(** * CasADi: NLP derivative-function manager and flat-OCP symbolic pipeline

    A shallow embedding of
    - [casadi/core/function/nlp_solver_internal.cpp] (bound checks and the
      lazily built derivative functions of an NLP solver), and
    - [optimal_control/flat_ocp_internal.cpp] (elimination of dependent
      variables, role classification, scaling and BLT sorting of a flat
      optimal control problem),
    together with the properties of these routines.

    C++ [double] is the kernel's binary64 [float]; a [std::vector] is a
    [list] read by index; member functions are computations in a small
    state-and-exception monad in which a thrown [CasadiException] keeps the
    mutations made before the throw. *)

From Stdlib Require Import Floats ZArith Lia.
From stdpp Require Import base list strings gmap.

Set Default Proof Using "Type".

(* ================================================================== *)
(** * Symbolic scalar expressions ([SX]) *)
(* ================================================================== *)

(** Modelled from the spec: the scalar expressions of the symbolic
    substrate, whose code is not part of the sources at hand: immutable
    nodes that composition builds.  A symbolic primitive is identified by
    its node; the model uses the (unique) name as the identity of the
    node. *)
Definition symbol := string.

(** The operators [readExpr] of flat_ocp_internal.cpp can produce. *)
Inductive unop : Type :=
| OpNeg | OpAcos | OpAsin | OpAtan | OpCos | OpExp | OpLog
| OpSin | OpSqrt | OpTan.

Inductive binop : Type :=
| OpAdd | OpSub | OpMul | OpDiv | OpPow | OpLt | OpGt.

Inductive SX : Type :=
| SXConst (c : float)
| SXSym (s : symbol)
| SXUn (o : unop) (a : SX)
| SXBin (o : binop) (a b : SX)
| SXIfElse (c a b : SX).

(** [dependsOn(e, s)]: the symbol [s] occurs in [e]. *)
Fixpoint dependsOn (e : SX) (s : symbol) : bool :=
  match e with
  | SXConst _ => false
  | SXSym s' => String.eqb s' s
  | SXUn _ a => dependsOn a s
  | SXBin _ a b => dependsOn a s || dependsOn b s
  | SXIfElse c a b => dependsOn c s || dependsOn a s || dependsOn b s
  end.

(** [dependsOn(e, v)] for a vector of symbols. *)
Definition dependsOnAny (e : SX) (v : list symbol) : bool :=
  existsb (dependsOn e) v.

(* ================================================================== *)
(** * Exceptions and the state monad *)
(* ================================================================== *)

(** A message is what the C++ code streams into an exception text or to
    the console with [<<]: literal text, integers, doubles, the name of a
    variable, an expression. *)
Inductive msg_part : Type :=
| MTxt (s : string)
| MInt (n : nat)
| MDbl (x : float)
| MSym (s : string)
| MExpr (e : SX).

Definition message := list msg_part.

(** Outcome of a call: normal return, or a thrown exception. *)
Inductive result (A : Type) : Type :=
| Ok (a : A)
| Throw (m : message).
Arguments Ok {A} a.
Arguments Throw {A} m.

(** A member function of an object with state [S]. *)
Definition M (S A : Type) : Type := S -> result A * S.

Definition ret {S A} (a : A) : M S A := fun s => (Ok a, s).

Definition bind {S A B} (c : M S A) (k : A -> M S B) : M S B :=
  fun s =>
    match c s with
    | (Ok a, s') => k a s'
    | (Throw m, s') => (Throw m, s')
    end.

Definition get {S} : M S S := fun s => (Ok s, s).
Definition put {S} (s : S) : M S unit := fun _ => (Ok tt, s).
Definition modify {S} (f : S -> S) : M S unit := fun s => (Ok tt, f s).
Definition throw {S A} (m : message) : M S A := fun s => (Throw m, s).

Declare Scope casadi_scope.
Delimit Scope casadi_scope with casadi.
Notation "x <- c ;; k" := (bind c (fun x => k))
  (at level 100, c at next level, right associativity) : casadi_scope.
Notation "c ;;; k" := (bind c (fun _ => k))
  (at level 100, right associativity) : casadi_scope.
Open Scope casadi_scope.

(** [casadi_assert_message(cond, msg)]: throws when [cond] is false. *)
Definition casadi_assert_message {S} (cond : bool) (m : message) : M S unit :=
  if cond then ret tt else throw m.

(** [casadi_assert(cond)]: the message is the text of the condition. *)
Definition casadi_assert {S} (cond : bool) (text : string) : M S unit :=
  casadi_assert_message cond [MTxt text].

(** Reading [l[i]] of a [std::vector]: out of range the C++ behaviour is
    undefined; the model stops with a failure of its own. *)
Definition vec_at {S A} (l : list A) (i : nat) : M S A :=
  match l !! i with
  | Some a => ret a
  | None => throw [MTxt "undefined behaviour: index out of range"]
  end.

Fixpoint map_M {S A B} (f : A -> M S B) (l : list A) : M S (list B) :=
  match l with
  | [] => ret []
  | a :: l' => b <- f a ;; bs <- map_M f l' ;; ret (b :: bs)
  end.

(** A [for] loop over a list of items whose body may throw. *)
Fixpoint for_each {S A} (body : A -> M S unit) (l : list A) : M S unit :=
  match l with
  | [] => ret tt
  | a :: l' => body a ;;; for_each body l'
  end.

Definition is_ok {A} (r : result A) : bool :=
  match r with Ok _ => true | Throw _ => false end.

(* ================================================================== *)
(** * Substitution *)
(* ================================================================== *)

(** The replacement of a symbol under the pairing of [v] with [vdef]
    (first occurrence wins). *)
Fixpoint replacement (sigma : list (symbol * SX)) (s : symbol) : option SX :=
  match sigma with
  | [] => None
  | (s', r) :: sigma' => if String.eqb s' s then Some r else replacement sigma' s
  end.

Fixpoint subst_expr (sigma : list (symbol * SX)) (e : SX) : SX :=
  match e with
  | SXConst c => SXConst c
  | SXSym s => match replacement sigma s with Some r => r | None => SXSym s end
  | SXUn o a => SXUn o (subst_expr sigma a)
  | SXBin o a b => SXBin o (subst_expr sigma a) (subst_expr sigma b)
  | SXIfElse c a b =>
      SXIfElse (subst_expr sigma c) (subst_expr sigma a) (subst_expr sigma b)
  end.

(** Modelled from the spec: [substitute(ex, v, vdef)] of the symbolic
    substrate (sx_tools), which is not part of the sources at hand.  The
    spec describes it as simultaneous substitution: every occurrence of the
    symbol [v[k]] in every expression of [ex] is replaced by [vdef[k]], all
    at once (replacements are not substituted into again). *)
Definition substitute (ex : list SX) (v : list symbol) (vdef : list SX)
  : list SX :=
  map (subst_expr (combine v vdef)) ex.

(** Constant folding of one node, for the operators binary64 arithmetic
    provides. *)
Definition fold_un (o : unop) (a : SX) : SX :=
  match o, a with
  | OpNeg, SXConst c => SXConst (- c)%float
  | OpSqrt, SXConst c => SXConst (PrimFloat.sqrt c)
  | _, _ => SXUn o a
  end.

Definition fold_bin (o : binop) (a b : SX) : SX :=
  match o, a, b with
  | OpAdd, SXConst c, SXConst d => SXConst (c + d)%float
  | OpSub, SXConst c, SXConst d => SXConst (c - d)%float
  | OpMul, SXConst c, SXConst d => SXConst (c * d)%float
  | OpDiv, SXConst c, SXConst d => SXConst (c / d)%float
  | _, _, _ => SXBin o a b
  end.

Fixpoint fold_constants (e : SX) : SX :=
  match e with
  | SXConst c => SXConst c
  | SXSym s => SXSym s
  | SXUn o a => fold_un o (fold_constants a)
  | SXBin o a b => fold_bin o (fold_constants a) (fold_constants b)
  | SXIfElse c a b =>
      SXIfElse (fold_constants c) (fold_constants a) (fold_constants b)
  end.

(** One round of substituting the definitions into themselves, repeated
    until no definition mentions a defined symbol; [None] when the rounds
    are used up.  Definitions without a cycle, listed so that each mentions
    only symbols defined before it, never use them up. *)
Fixpoint resolve_definitions (rounds : nat) (v : list symbol) (vdef : list SX)
  : option (list SX) :=
  if forallb (fun e => negb (dependsOnAny e v)) vdef then Some vdef
  else match rounds with
       | O => None
       | S n => resolve_definitions n v (substitute vdef v vdef)
       end.

(** Modelled from the spec: [substituteInPlace(v, vdef, eliminate_constants)]
    of the symbolic substrate, absent from the sources at hand.  The spec:
    constant-folding simultaneous substitution of the definitions against
    themselves, to a fixed point, so that every definition is written purely
    in terms of symbols outside [v]; a cyclic definition is reported as an
    error instead of looping or silently truncating. *)
Definition substituteInPlace (v : list symbol) (vdef : list SX)
    (eliminate_constants : bool) : result (list SX) :=
  match resolve_definitions (length v) v vdef with
  | Some r => Ok (if eliminate_constants then map fold_constants r else r)
  | None => Throw [MTxt "CyclicDefinitionError"]
  end.

(** The definitions [vdef] of the symbols [v] are ordered when each one
    mentions only symbols defined before it, and resolved up to [k] when the
    first [k] of them mention no defined symbol. *)
Definition ordered_definitions (v : list symbol) (vdef : list SX) : Prop :=
  length vdef = length v /\
  forall i e j s, vdef !! i = Some e -> v !! j = Some s ->
                  dependsOn e s = true -> j < i.

Definition resolved_up_to (k : nat) (v : list symbol) (vdef : list SX) : Prop :=
  forall i e s, i < k -> vdef !! i = Some e -> s ∈ v -> dependsOn e s = false.


(* ================================================================== *)
(** * Variables of the flat OCP *)
(* ================================================================== *)

Inductive Variability : Type := CONSTANT | PARAMETER | DISCRETE | CONTINUOUS.
Inductive Causality : Type := INPUT | OUTPUT | INTERNAL.
Inductive Alias : Type := NO_ALIAS | ALIAS | NEGATED_ALIAS.

(** Modelled from the spec: the [Variable] class (variable_internal.hpp) is
    not part of the sources at hand.  The spec's data model: identity,
    variability and causality, numeric metadata (nominal, min, max, start),
    an optional back-link to the time derivative, an alias flag.  [v_var] is
    the symbol returned by [var()].  ([Variable] is a reserved word.) *)
Record OCPVariable : Type := {
  v_name : string;
  v_var : symbol;
  v_der : option symbol;
  v_variability : Variability;
  v_causality : Causality;
  v_alias : Alias;
  v_nominal : float;
  v_start : float;
  v_min : float;
  v_max : float;
  v_free : bool
}.

(** Modelled from the spec: the vector helpers of variable_tools, which is
    not part of the sources at hand, element by element: the symbols, the
    symbols of the time derivatives, the nominal and the start values of a
    vector of variables. *)
Definition var (l : list OCPVariable) : list symbol := map v_var l.

Definition der_symbol (v : OCPVariable) : symbol :=
  match v_der v with
  | Some d => d
  | None => String.append "der(" (String.append (v_name v) ")")
  end.
Definition der (l : list OCPVariable) : list symbol := map der_symbol l.

Definition highest_symbol (v : OCPVariable) : symbol :=
  match v_der v with Some d => d | None => v_var v end.
Definition highest (l : list OCPVariable) : list symbol := map highest_symbol l.

Definition getNominal (l : list OCPVariable) : list float := map v_nominal l.

Definition getStart (l : list OCPVariable) (nominal : bool) : list float :=
  map (fun v => if nominal then (v_start v / v_nominal v)%float else v_start v) l.

(* ================================================================== *)
(** * Sparse matrices in compressed row storage *)
(* ================================================================== *)

Record CRSSparsity : Type := {
  sp_size1 : nat;            (* number of rows *)
  sp_size2 : nat;            (* number of columns *)
  sp_rowind : list nat;      (* row i holds the entries rowind[i] .. rowind[i+1]-1 *)
  sp_col : list nat          (* column of each entry *)
}.

Record DMatrix : Type := {
  m_sparsity : CRSSparsity;
  m_data : list float
}.

Definition size1 (J : DMatrix) : nat := sp_size1 (m_sparsity J).
Definition rowind (J : DMatrix) (i : nat) : nat := nth i (sp_rowind (m_sparsity J)) 0.

(** The entries [at(el)] for [el = rowind(i) .. rowind(i+1)-1]. *)
Definition row_entries (J : DMatrix) (i : nat) : list float :=
  take (rowind J (i + 1) - rowind J i) (drop (rowind J i) (m_data J)).



(** Modelled from the spec: the sparsity of [SXFunction(vars, exprs).jac()].
    The Jacobian code is not part of the sources at hand; the spec derives a
    sparsity pattern from the dependency structure of the expressions:
    entry (i, j) is a structural nonzero when expression i depends on
    variable j. *)
Definition jac_row (vars : list symbol) (e : SX) : list nat :=
  filter (fun j => Is_true (dependsOn e (nth j vars ""%string))) (seq 0 (length vars)).

Fixpoint row_offsets (start : nat) (rows : list (list nat)) : list nat :=
  match rows with
  | [] => [start]
  | r :: rows' => start :: row_offsets (start + length r) rows'
  end.

Definition jac_sparsity (vars : list symbol) (exprs : list SX) : CRSSparsity :=
  let rows := map (jac_row vars) exprs in
  {| sp_size1 := length exprs; sp_size2 := length vars;
     sp_rowind := row_offsets 0 rows; sp_col := concat rows |}.

(** What [dulmageMendelsohn] hands back through its reference arguments and
    its return value. *)
Record BLT : Type := {
  rowperm : list nat;
  colperm : list nat;
  rowblock : list nat;       (* block k is rows rowblock[k] .. rowblock[k+1]-1 *)
  colblock : list nat;       (* block k is columns colblock[k] .. colblock[k+1]-1 *)
  coarse_rowblock : list nat;
  coarse_colblock : list nat;
  nb : nat
}.

(** The routines of the symbolic substrate the flat OCP calls and whose code
    is not part of the sources at hand. *)
Class Substrate : Type := {
  (** [SXFunction J(v, SXFunction(xz, dae).jac())], initialised, its inputs
      set to [inputs], evaluated: [J.output()]. *)
  evaluate_jacobian :
    list (list symbol) -> list symbol -> list SX -> list (list float) -> DMatrix;
  (** [sp.dulmageMendelsohn(rowperm, colperm, rowblock, colblock, ...)]. *)
  dulmageMendelsohn : CRSSparsity -> BLT
}.

(* ================================================================== *)
(** * The flat OCP object *)
(* ================================================================== *)

Record FlatOCPInternal : Type := {
  varmap_ : list (string * OCPVariable);  (* std::map, in key order *)
  t_ : symbol;
  x_ : list OCPVariable;     (* implicitly defined states *)
  xd_ : list OCPVariable;    (* explicitly defined differential states *)
  xa_ : list OCPVariable;    (* algebraic states *)
  q_ : list OCPVariable;     (* quadrature states *)
  y_ : list OCPVariable;     (* dependent variables *)
  p_ : list OCPVariable;     (* free parameters *)
  u_ : list OCPVariable;     (* controls *)
  dae_ : list SX;
  ode_ : list SX;
  alg_ : list SX;
  quad_ : list SX;
  initial_ : list SX;
  dep_ : list SX;
  path_ : list SX;
  mterm_ : list SX;
  lterm_ : list SX;
  path_min_ : list float;
  path_max_ : list float;
  scaled_variables_ : bool;
  scaled_equations_ : bool;
  temp_ : list symbol;    (* symbols whose temporary marker is 1 *)
  cout_ : list message
    (* warnings and diagnostics written to the console, oldest first; the
       progress lines with their timings are not recorded *)
}.

Definition set_varmap_ (a : list (string * OCPVariable)) (st : FlatOCPInternal) : FlatOCPInternal :=
  {| varmap_ := a; t_ := t_ st; x_ := x_ st; xd_ := xd_ st; xa_ := xa_ st;
     q_ := q_ st; y_ := y_ st; p_ := p_ st; u_ := u_ st; dae_ := dae_ st;
     ode_ := ode_ st; alg_ := alg_ st; quad_ := quad_ st;
     initial_ := initial_ st; dep_ := dep_ st; path_ := path_ st;
     mterm_ := mterm_ st; lterm_ := lterm_ st; path_min_ := path_min_ st;
     path_max_ := path_max_ st; scaled_variables_ := scaled_variables_ st;
     scaled_equations_ := scaled_equations_ st; temp_ := temp_ st;
     cout_ := cout_ st |}.

Definition set_x_ (a : list OCPVariable) (st : FlatOCPInternal) : FlatOCPInternal :=
  {| varmap_ := varmap_ st; t_ := t_ st; x_ := a; xd_ := xd_ st;
     xa_ := xa_ st; q_ := q_ st; y_ := y_ st; p_ := p_ st; u_ := u_ st;
     dae_ := dae_ st; ode_ := ode_ st; alg_ := alg_ st; quad_ := quad_ st;
     initial_ := initial_ st; dep_ := dep_ st; path_ := path_ st;
     mterm_ := mterm_ st; lterm_ := lterm_ st; path_min_ := path_min_ st;
     path_max_ := path_max_ st; scaled_variables_ := scaled_variables_ st;
     scaled_equations_ := scaled_equations_ st; temp_ := temp_ st;
     cout_ := cout_ st |}.

Definition set_xd_ (a : list OCPVariable) (st : FlatOCPInternal) : FlatOCPInternal :=
  {| varmap_ := varmap_ st; t_ := t_ st; x_ := x_ st; xd_ := a;
     xa_ := xa_ st; q_ := q_ st; y_ := y_ st; p_ := p_ st; u_ := u_ st;
     dae_ := dae_ st; ode_ := ode_ st; alg_ := alg_ st; quad_ := quad_ st;
     initial_ := initial_ st; dep_ := dep_ st; path_ := path_ st;
     mterm_ := mterm_ st; lterm_ := lterm_ st; path_min_ := path_min_ st;
     path_max_ := path_max_ st; scaled_variables_ := scaled_variables_ st;
     scaled_equations_ := scaled_equations_ st; temp_ := temp_ st;
     cout_ := cout_ st |}.

Definition set_xa_ (a : list OCPVariable) (st : FlatOCPInternal) : FlatOCPInternal :=
  {| varmap_ := varmap_ st; t_ := t_ st; x_ := x_ st; xd_ := xd_ st;
     xa_ := a; q_ := q_ st; y_ := y_ st; p_ := p_ st; u_ := u_ st;
     dae_ := dae_ st; ode_ := ode_ st; alg_ := alg_ st; quad_ := quad_ st;
     initial_ := initial_ st; dep_ := dep_ st; path_ := path_ st;
     mterm_ := mterm_ st; lterm_ := lterm_ st; path_min_ := path_min_ st;
     path_max_ := path_max_ st; scaled_variables_ := scaled_variables_ st;
     scaled_equations_ := scaled_equations_ st; temp_ := temp_ st;
     cout_ := cout_ st |}.

Definition set_y_ (a : list OCPVariable) (st : FlatOCPInternal) : FlatOCPInternal :=
  {| varmap_ := varmap_ st; t_ := t_ st; x_ := x_ st; xd_ := xd_ st;
     xa_ := xa_ st; q_ := q_ st; y_ := a; p_ := p_ st; u_ := u_ st;
     dae_ := dae_ st; ode_ := ode_ st; alg_ := alg_ st; quad_ := quad_ st;
     initial_ := initial_ st; dep_ := dep_ st; path_ := path_ st;
     mterm_ := mterm_ st; lterm_ := lterm_ st; path_min_ := path_min_ st;
     path_max_ := path_max_ st; scaled_variables_ := scaled_variables_ st;
     scaled_equations_ := scaled_equations_ st; temp_ := temp_ st;
     cout_ := cout_ st |}.

Definition set_p_ (a : list OCPVariable) (st : FlatOCPInternal) : FlatOCPInternal :=
  {| varmap_ := varmap_ st; t_ := t_ st; x_ := x_ st; xd_ := xd_ st;
     xa_ := xa_ st; q_ := q_ st; y_ := y_ st; p_ := a; u_ := u_ st;
     dae_ := dae_ st; ode_ := ode_ st; alg_ := alg_ st; quad_ := quad_ st;
     initial_ := initial_ st; dep_ := dep_ st; path_ := path_ st;
     mterm_ := mterm_ st; lterm_ := lterm_ st; path_min_ := path_min_ st;
     path_max_ := path_max_ st; scaled_variables_ := scaled_variables_ st;
     scaled_equations_ := scaled_equations_ st; temp_ := temp_ st;
     cout_ := cout_ st |}.

Definition set_u_ (a : list OCPVariable) (st : FlatOCPInternal) : FlatOCPInternal :=
  {| varmap_ := varmap_ st; t_ := t_ st; x_ := x_ st; xd_ := xd_ st;
     xa_ := xa_ st; q_ := q_ st; y_ := y_ st; p_ := p_ st; u_ := a;
     dae_ := dae_ st; ode_ := ode_ st; alg_ := alg_ st; quad_ := quad_ st;
     initial_ := initial_ st; dep_ := dep_ st; path_ := path_ st;
     mterm_ := mterm_ st; lterm_ := lterm_ st; path_min_ := path_min_ st;
     path_max_ := path_max_ st; scaled_variables_ := scaled_variables_ st;
     scaled_equations_ := scaled_equations_ st; temp_ := temp_ st;
     cout_ := cout_ st |}.

Definition set_dae_ (a : list SX) (st : FlatOCPInternal) : FlatOCPInternal :=
  {| varmap_ := varmap_ st; t_ := t_ st; x_ := x_ st; xd_ := xd_ st;
     xa_ := xa_ st; q_ := q_ st; y_ := y_ st; p_ := p_ st; u_ := u_ st;
     dae_ := a; ode_ := ode_ st; alg_ := alg_ st; quad_ := quad_ st;
     initial_ := initial_ st; dep_ := dep_ st; path_ := path_ st;
     mterm_ := mterm_ st; lterm_ := lterm_ st; path_min_ := path_min_ st;
     path_max_ := path_max_ st; scaled_variables_ := scaled_variables_ st;
     scaled_equations_ := scaled_equations_ st; temp_ := temp_ st;
     cout_ := cout_ st |}.

Definition set_ode_ (a : list SX) (st : FlatOCPInternal) : FlatOCPInternal :=
  {| varmap_ := varmap_ st; t_ := t_ st; x_ := x_ st; xd_ := xd_ st;
     xa_ := xa_ st; q_ := q_ st; y_ := y_ st; p_ := p_ st; u_ := u_ st;
     dae_ := dae_ st; ode_ := a; alg_ := alg_ st; quad_ := quad_ st;
     initial_ := initial_ st; dep_ := dep_ st; path_ := path_ st;
     mterm_ := mterm_ st; lterm_ := lterm_ st; path_min_ := path_min_ st;
     path_max_ := path_max_ st; scaled_variables_ := scaled_variables_ st;
     scaled_equations_ := scaled_equations_ st; temp_ := temp_ st;
     cout_ := cout_ st |}.

Definition set_alg_ (a : list SX) (st : FlatOCPInternal) : FlatOCPInternal :=
  {| varmap_ := varmap_ st; t_ := t_ st; x_ := x_ st; xd_ := xd_ st;
     xa_ := xa_ st; q_ := q_ st; y_ := y_ st; p_ := p_ st; u_ := u_ st;
     dae_ := dae_ st; ode_ := ode_ st; alg_ := a; quad_ := quad_ st;
     initial_ := initial_ st; dep_ := dep_ st; path_ := path_ st;
     mterm_ := mterm_ st; lterm_ := lterm_ st; path_min_ := path_min_ st;
     path_max_ := path_max_ st; scaled_variables_ := scaled_variables_ st;
     scaled_equations_ := scaled_equations_ st; temp_ := temp_ st;
     cout_ := cout_ st |}.

Definition set_quad_ (a : list SX) (st : FlatOCPInternal) : FlatOCPInternal :=
  {| varmap_ := varmap_ st; t_ := t_ st; x_ := x_ st; xd_ := xd_ st;
     xa_ := xa_ st; q_ := q_ st; y_ := y_ st; p_ := p_ st; u_ := u_ st;
     dae_ := dae_ st; ode_ := ode_ st; alg_ := alg_ st; quad_ := a;
     initial_ := initial_ st; dep_ := dep_ st; path_ := path_ st;
     mterm_ := mterm_ st; lterm_ := lterm_ st; path_min_ := path_min_ st;
     path_max_ := path_max_ st; scaled_variables_ := scaled_variables_ st;
     scaled_equations_ := scaled_equations_ st; temp_ := temp_ st;
     cout_ := cout_ st |}.

Definition set_initial_ (a : list SX) (st : FlatOCPInternal) : FlatOCPInternal :=
  {| varmap_ := varmap_ st; t_ := t_ st; x_ := x_ st; xd_ := xd_ st;
     xa_ := xa_ st; q_ := q_ st; y_ := y_ st; p_ := p_ st; u_ := u_ st;
     dae_ := dae_ st; ode_ := ode_ st; alg_ := alg_ st; quad_ := quad_ st;
     initial_ := a; dep_ := dep_ st; path_ := path_ st; mterm_ := mterm_ st;
     lterm_ := lterm_ st; path_min_ := path_min_ st;
     path_max_ := path_max_ st; scaled_variables_ := scaled_variables_ st;
     scaled_equations_ := scaled_equations_ st; temp_ := temp_ st;
     cout_ := cout_ st |}.

Definition set_dep_ (a : list SX) (st : FlatOCPInternal) : FlatOCPInternal :=
  {| varmap_ := varmap_ st; t_ := t_ st; x_ := x_ st; xd_ := xd_ st;
     xa_ := xa_ st; q_ := q_ st; y_ := y_ st; p_ := p_ st; u_ := u_ st;
     dae_ := dae_ st; ode_ := ode_ st; alg_ := alg_ st; quad_ := quad_ st;
     initial_ := initial_ st; dep_ := a; path_ := path_ st;
     mterm_ := mterm_ st; lterm_ := lterm_ st; path_min_ := path_min_ st;
     path_max_ := path_max_ st; scaled_variables_ := scaled_variables_ st;
     scaled_equations_ := scaled_equations_ st; temp_ := temp_ st;
     cout_ := cout_ st |}.

Definition set_path_ (a : list SX) (st : FlatOCPInternal) : FlatOCPInternal :=
  {| varmap_ := varmap_ st; t_ := t_ st; x_ := x_ st; xd_ := xd_ st;
     xa_ := xa_ st; q_ := q_ st; y_ := y_ st; p_ := p_ st; u_ := u_ st;
     dae_ := dae_ st; ode_ := ode_ st; alg_ := alg_ st; quad_ := quad_ st;
     initial_ := initial_ st; dep_ := dep_ st; path_ := a;
     mterm_ := mterm_ st; lterm_ := lterm_ st; path_min_ := path_min_ st;
     path_max_ := path_max_ st; scaled_variables_ := scaled_variables_ st;
     scaled_equations_ := scaled_equations_ st; temp_ := temp_ st;
     cout_ := cout_ st |}.

Definition set_mterm_ (a : list SX) (st : FlatOCPInternal) : FlatOCPInternal :=
  {| varmap_ := varmap_ st; t_ := t_ st; x_ := x_ st; xd_ := xd_ st;
     xa_ := xa_ st; q_ := q_ st; y_ := y_ st; p_ := p_ st; u_ := u_ st;
     dae_ := dae_ st; ode_ := ode_ st; alg_ := alg_ st; quad_ := quad_ st;
     initial_ := initial_ st; dep_ := dep_ st; path_ := path_ st;
     mterm_ := a; lterm_ := lterm_ st; path_min_ := path_min_ st;
     path_max_ := path_max_ st; scaled_variables_ := scaled_variables_ st;
     scaled_equations_ := scaled_equations_ st; temp_ := temp_ st;
     cout_ := cout_ st |}.

Definition set_lterm_ (a : list SX) (st : FlatOCPInternal) : FlatOCPInternal :=
  {| varmap_ := varmap_ st; t_ := t_ st; x_ := x_ st; xd_ := xd_ st;
     xa_ := xa_ st; q_ := q_ st; y_ := y_ st; p_ := p_ st; u_ := u_ st;
     dae_ := dae_ st; ode_ := ode_ st; alg_ := alg_ st; quad_ := quad_ st;
     initial_ := initial_ st; dep_ := dep_ st; path_ := path_ st;
     mterm_ := mterm_ st; lterm_ := a; path_min_ := path_min_ st;
     path_max_ := path_max_ st; scaled_variables_ := scaled_variables_ st;
     scaled_equations_ := scaled_equations_ st; temp_ := temp_ st;
     cout_ := cout_ st |}.

Definition set_scaled_variables_ (a : bool) (st : FlatOCPInternal) : FlatOCPInternal :=
  {| varmap_ := varmap_ st; t_ := t_ st; x_ := x_ st; xd_ := xd_ st;
     xa_ := xa_ st; q_ := q_ st; y_ := y_ st; p_ := p_ st; u_ := u_ st;
     dae_ := dae_ st; ode_ := ode_ st; alg_ := alg_ st; quad_ := quad_ st;
     initial_ := initial_ st; dep_ := dep_ st; path_ := path_ st;
     mterm_ := mterm_ st; lterm_ := lterm_ st; path_min_ := path_min_ st;
     path_max_ := path_max_ st; scaled_variables_ := a;
     scaled_equations_ := scaled_equations_ st; temp_ := temp_ st;
     cout_ := cout_ st |}.

Definition set_scaled_equations_ (a : bool) (st : FlatOCPInternal) : FlatOCPInternal :=
  {| varmap_ := varmap_ st; t_ := t_ st; x_ := x_ st; xd_ := xd_ st;
     xa_ := xa_ st; q_ := q_ st; y_ := y_ st; p_ := p_ st; u_ := u_ st;
     dae_ := dae_ st; ode_ := ode_ st; alg_ := alg_ st; quad_ := quad_ st;
     initial_ := initial_ st; dep_ := dep_ st; path_ := path_ st;
     mterm_ := mterm_ st; lterm_ := lterm_ st; path_min_ := path_min_ st;
     path_max_ := path_max_ st; scaled_variables_ := scaled_variables_ st;
     scaled_equations_ := a; temp_ := temp_ st; cout_ := cout_ st |}.

Definition set_temp_ (a : list symbol) (st : FlatOCPInternal) : FlatOCPInternal :=
  {| varmap_ := varmap_ st; t_ := t_ st; x_ := x_ st; xd_ := xd_ st;
     xa_ := xa_ st; q_ := q_ st; y_ := y_ st; p_ := p_ st; u_ := u_ st;
     dae_ := dae_ st; ode_ := ode_ st; alg_ := alg_ st; quad_ := quad_ st;
     initial_ := initial_ st; dep_ := dep_ st; path_ := path_ st;
     mterm_ := mterm_ st; lterm_ := lterm_ st; path_min_ := path_min_ st;
     path_max_ := path_max_ st; scaled_variables_ := scaled_variables_ st;
     scaled_equations_ := scaled_equations_ st; temp_ := a;
     cout_ := cout_ st |}.

Definition set_cout_ (a : list message) (st : FlatOCPInternal) : FlatOCPInternal :=
  {| varmap_ := varmap_ st; t_ := t_ st; x_ := x_ st; xd_ := xd_ st;
     xa_ := xa_ st; q_ := q_ st; y_ := y_ st; p_ := p_ st; u_ := u_ st;
     dae_ := dae_ st; ode_ := ode_ st; alg_ := alg_ st; quad_ := quad_ st;
     initial_ := initial_ st; dep_ := dep_ st; path_ := path_ st;
     mterm_ := mterm_ st; lterm_ := lterm_ st; path_min_ := path_min_ st;
     path_max_ := path_max_ st; scaled_variables_ := scaled_variables_ st;
     scaled_equations_ := scaled_equations_ st; temp_ := temp_ st;
     cout_ := a |}.



(* ================================================================== *)
(** * Passes of the flat OCP *)
(* ================================================================== *)

(** ** [FlatOCPInternal::eliminateInterdependencies] *)
Definition eliminateInterdependencies : M FlatOCPInternal unit :=
  st <- get ;;
  let eliminate_constants := true in
  match substituteInPlace (var (y_ st)) (dep_ st) eliminate_constants with
  | Ok d => modify (set_dep_ d)
  | Throw m => throw m
  end.

(** ** [FlatOCPInternal::eliminateDependent] *)
Definition eliminateDependent (eliminate_dependents_with_bounds : bool)
  : M FlatOCPInternal unit :=
  st <- get ;;
  let v := var (y_ st) in
  let v_old := dep_ st in
  modify (fun st => set_dae_ (substitute (dae_ st) v v_old) st) ;;;
  modify (fun st => set_ode_ (substitute (ode_ st) v v_old) st) ;;;
  modify (fun st => set_alg_ (substitute (alg_ st) v v_old) st) ;;;
  modify (fun st => set_quad_ (substitute (quad_ st) v v_old) st) ;;;
  modify (fun st => set_initial_ (substitute (initial_ st) v v_old) st) ;;;
  modify (fun st => set_path_ (substitute (path_ st) v v_old) st) ;;;
  modify (fun st => set_mterm_ (substitute (mterm_ st) v v_old) st) ;;;
  modify (fun st => set_lterm_ (substitute (lterm_ st) v v_old) st).

(** ** [FlatOCPInternal::sortType] *)

(** [s.getTemp() == 1] and [s.setTemp(k)] on the marker of a symbol. *)
Definition getTemp (s : symbol) (temp : list symbol) : bool :=
  existsb (String.eqb s) temp.

Definition setTemp (s : symbol) (one : bool) (temp : list symbol) : list symbol :=
  let cleared := filter (fun s' => s' <> s) temp in
  if one then s :: cleared else cleared.

(** The body of the loop over [varmap_]. *)
Definition sortType_visit (v : OCPVariable) : M FlatOCPInternal unit :=
  st <- get ;;
  if negb (getTemp (v_var v) (temp_ st)) then
    match v_variability v with
    | PARAMETER =>
        if v_free v then modify (fun st => set_p_ (p_ st ++ [v]) st)
        else
          modify (fun st => set_cout_ (cout_ st ++ [[MTxt "v = "; MSym (v_name v)]]) st) ;;;
          casadi_assert false "0"
    | CONTINUOUS =>
        match v_causality v with
        | INTERNAL => modify (fun st => set_x_ (x_ st ++ [v]) st)
        | INPUT => modify (fun st => set_u_ (u_ st ++ [v]) st)
        | OUTPUT => ret tt
        end
    | CONSTANT =>
        modify (fun st => set_y_ (y_ st ++ [v]) st) ;;;
        modify (fun st => set_dep_ (dep_ st ++ [SXConst (v_nominal v)]) st)
    | DISCRETE => ret tt
    end
  else ret tt.

Definition sortType : M FlatOCPInternal unit :=
  modify (set_x_ []) ;;;
  modify (set_xd_ []) ;;;
  modify (set_xa_ []) ;;;
  modify (set_u_ []) ;;;
  modify (set_p_ []) ;;;
  (* mark all dependent variables *)
  st <- get ;;
  for_each (fun v => modify (fun st => set_temp_ (setTemp (v_var v) true (temp_ st)) st))
           (y_ st) ;;;
  (* loop over variables *)
  st <- get ;;
  for_each (fun kv => sortType_visit (snd kv)) (varmap_ st) ;;;
  (* unmark all dependent variables *)
  st <- get ;;
  for_each (fun v => modify (fun st => set_temp_ (setTemp (v_var v) false (temp_ st)) st))
           (y_ st).

(** ** [FlatOCPInternal::scaleVariables] *)

(** Element-wise product of a vector of symbols with a numeric vector. *)
Definition times (x : list symbol) (n : list float) : list SX :=
  zip_with (fun s c => SXBin OpMul (SXSym s) (SXConst c)) x n.

Definition scaleVariables : M FlatOCPInternal unit :=
  st <- get ;;
  (* make sure that the variables have not already been scaled *)
  casadi_assert (negb (scaled_variables_ st)) "!scaled_variables_" ;;;
  let t := [t_ st] in
  let x := var (x_ st) in
  let xdot := der (x_ st) in
  let xd := var (xd_ st) in
  let xa := var (xa_ st) in
  let p := var (p_ st) in
  let u := var (u_ st) in
  let v := t ++ x ++ xdot ++ xd ++ xa ++ p ++ u in
  let t_n := [1%float] in
  let x_n := getNominal (x_ st) in
  let xd_n := getNominal (xd_ st) in
  let xa_n := getNominal (xa_ st) in
  let p_n := getNominal (p_ st) in
  let u_n := getNominal (u_ st) in
  let v_old := times t t_n ++ times x x_n ++ times xdot x_n ++ times xd xd_n
               ++ times xa xa_n ++ times p p_n ++ times u u_n in
  modify (fun st => set_dae_ (substitute (dae_ st) v v_old) st) ;;;
  modify (fun st => set_initial_ (substitute (initial_ st) v v_old) st) ;;;
  modify (fun st => set_path_ (substitute (path_ st) v v_old) st) ;;;
  modify (fun st => set_mterm_ (substitute (mterm_ st) v v_old) st) ;;;
  modify (fun st => set_lterm_ (substitute (lterm_ st) v v_old) st) ;;;
  modify (set_scaled_variables_ true).

(** ** [FlatOCPInternal::scaleEquations] *)

(** [std::max(a, b)] on doubles. *)
Definition fmax (a b : float) : float := if (a <? b)%float then b else a.

(** The inner loop over the entries of one row, starting from [0.0]: the
    maximum norm, ignoring not-a-number entries. *)
Definition row_step (s e : float) : float :=
  if PrimFloat.is_nan e then s else fmax s (abs e).

Definition row_max (row : list float) : float :=
  fold_left row_step row 0%float.

Definition no_scale_warning (i : nat) (e : SX) : message :=
  [MTxt "Warning: Could not generate a scaling factor for equation "; MInt i;
   MTxt "(0 == "; MExpr e; MTxt "), selecting 1."].

(** The body of the loop over the rows of [J0]: the entry [scale[i]]. *)
Definition scale_factor (J0 : DMatrix) (i : nat) : M FlatOCPInternal float :=
  let s := row_max (row_entries J0 i) in
  if (s =? 0)%float then
    st <- get ;;
    e <- vec_at (dae_ st) i ;;
    modify (fun st => set_cout_ (cout_ st ++ [no_scale_warning i e]) st) ;;;
    ret 1%float
  else ret s.

(** [dae_[i] /= scale[i]]. *)
Definition divide_equation (scale : list float) (i : nat) : M FlatOCPInternal unit :=
  st <- get ;;
  e <- vec_at (dae_ st) i ;;
  s <- vec_at scale i ;;
  modify (fun st => set_dae_ (<[i := SXBin OpDiv e (SXConst s)]> (dae_ st)) st).

Definition scaleEquations `{Substrate} : M FlatOCPInternal unit :=
  st <- get ;;
  (* make sure that the equations have not already been scaled *)
  casadi_assert (negb (scaled_equations_ st)) "!scaled_equations_" ;;;
  (* make sure that the variables have been scaled *)
  casadi_assert (scaled_variables_ st) "scaled_variables_" ;;;
  (* quick return if no implicit equations *)
  match dae_ st with
  | [] => ret tt
  | _ :: _ =>
      let v := [[t_ st]; var (xd_ st); der (xd_ st); var (xa_ st);
                var (p_ st); var (u_ st)] in
      let xz := var (xd_ st) ++ var (xa_ st) ++ var (p_ st) ++ var (u_ st) in
      let inputs := [[0%float]; getStart (xd_ st) true;
                     map (fun _ => 0%float) (der (xd_ st));
                     getStart (xa_ st) true; getStart (p_ st) true;
                     getStart (u_ st) true] in
      let J0 := evaluate_jacobian v xz (dae_ st) inputs in
      scale <- map_M (scale_factor J0) (seq 0 (size1 J0)) ;;
      for_each (divide_equation scale) (seq 0 (length (dae_ st))) ;;;
      modify (set_scaled_equations_ true)
  end.

(** ** [FlatOCPInternal::sortBLT] *)
Definition sortBLT_sparsity (with_x : bool) (st : FlatOCPInternal) : CRSSparsity :=
  if with_x then
    let invtau : symbol := "invtau" in
    let dae_with_x :=
      substitute (map SXSym (highest (x_ st))) (var (xd_ st))
                 (map (fun s => SXBin OpMul (SXSym invtau) (SXSym s)) (var (xd_ st))) in
    jac_sparsity (highest (x_ st)) dae_with_x
  else
    jac_sparsity (highest (x_ st)) (dae_ st).

Definition sortBLT `{Substrate} (with_x : bool) : M FlatOCPInternal unit :=
  st <- get ;;
  let sp := sortBLT_sparsity with_x st in
  let blt := dulmageMendelsohn sp in
  (* permute equations *)
  dae_new <- map_M (fun i => r <- vec_at (rowperm blt) i ;; vec_at (dae_ st) r)
                   (seq 0 (length (dae_ st))) ;;
  modify (set_dae_ dae_new) ;;;
  (* permute variables *)
  x_new <- map_M (fun i => c <- vec_at (colperm blt) i ;; vec_at (x_ st) c)
                 (seq 0 (length (x_ st))) ;;
  modify (set_x_ x_new).


(** ** Vocabulary of the statements about elimination *)


(** The scenario of the specification: a dependent variable [y := x1 + 1]
    and an equation [g = y - x2]. *)
Definition plain_variable (n : string) (vb : Variability) (cs : Causality)
  : OCPVariable :=
  {| v_name := n; v_var := n; v_der := None;
     v_variability := vb; v_causality := cs; v_alias := NO_ALIAS;
     v_nominal := 1%float; v_start := 0%float;
     v_min := neg_infinity; v_max := infinity; v_free := false |}.

Definition empty_ocp : FlatOCPInternal :=
  {| varmap_ := []; t_ := "t"; x_ := []; xd_ := []; xa_ := []; q_ := [];
     y_ := []; p_ := []; u_ := [];
     dae_ := []; ode_ := []; alg_ := []; quad_ := []; initial_ := [];
     dep_ := []; path_ := []; mterm_ := []; lterm_ := [];
     path_min_ := []; path_max_ := [];
     scaled_variables_ := false; scaled_equations_ := false;
     temp_ := []; cout_ := [] |}.

Definition scenario_g : SX := SXBin OpSub (SXSym "y") (SXSym "x2").

Definition scenario_ocp : FlatOCPInternal :=
  set_y_ [plain_variable "y" CONTINUOUS INTERNAL]
    (set_dep_ [SXBin OpAdd (SXSym "x1") (SXConst 1)]
       (set_dae_ [scenario_g]
          (set_path_ [scenario_g]
             (set_x_ [plain_variable "x1" CONTINUOUS INTERNAL;
                      plain_variable "x2" CONTINUOUS INTERNAL] empty_ocp)))).


(** ** Vocabulary of the statements about equation scaling *)

(** [x] is an entry of row [i] of [J]: the value [at(el)] for a position
    [el] from [rowind(i)] up to, and without, [rowind(i+1)]. *)
Definition row_entry (J : DMatrix) (i : nat) (x : float) : Prop :=
  exists el, rowind J i <= el < rowind J (i + 1) /\ m_data J !! el = Some x.

(** The row has an entry that is a number and is not zero. *)
Definition has_scale (row : list float) : bool :=
  existsb (fun x => negb (PrimFloat.is_nan x) && negb (abs x =? 0)%float) row.

(** [s] is the largest absolute value among the entries of [row] that are
    not NaN: it is attained, and it bounds them all. *)
Definition is_max_abs (row : list float) (s : float) : Prop :=
  (exists x, x ∈ row /\ PrimFloat.is_nan x = false /\ s = abs x) /\
  (forall x, x ∈ row -> PrimFloat.is_nan x = false -> (abs x <=? s)%float = true).

(** The warnings printed for the rows [l], in order. *)
Definition scale_warnings (J0 : DMatrix) (dae : list SX) (l : list nat)
  : list message :=
  omap (fun i => if has_scale (row_entries J0 i) then None
                 else no_scale_warning i <$> dae !! i) l.

(** The Jacobian [scaleEquations] evaluates: inputs time [0], start values
    (divided by the nominal values) and zero derivatives. *)
Definition nominal_jacobian `{Substrate} (st : FlatOCPInternal) : DMatrix :=
  evaluate_jacobian
    [[t_ st]; var (xd_ st); der (xd_ st); var (xa_ st); var (p_ st); var (u_ st)]
    (var (xd_ st) ++ var (xa_ st) ++ var (p_ st) ++ var (u_ st))
    (dae_ st)
    [[0%float]; getStart (xd_ st) true; map (fun _ => 0%float) (der (xd_ st));
     getStart (xa_ st) true; getStart (p_ st) true; getStart (u_ st) true].

(** ** Vocabulary of the statements about BLT sorting *)





(** ** A concrete substrate for the examples *)

(** A 2 x 3 matrix with rows [(-3, NaN, 2)] and [(0, NaN)]. *)
Definition example_J0 : DMatrix :=
  {| m_sparsity := {| sp_size1 := 2; sp_size2 := 3;
                      sp_rowind := [0; 3; 5]; sp_col := [0; 1; 2; 0; 2] |};
     m_data := [(-3)%float; nan; 2%float; 0%float; nan] |}.

(** A 2 x 2 matrix with rows [(inf, 2)] and [(-inf)]. *)
Definition infinite_J0 : DMatrix :=
  {| m_sparsity := {| sp_size1 := 2; sp_size2 := 2;
                      sp_rowind := [0; 2; 3]; sp_col := [0; 1; 1] |};
     m_data := [infinity; 2%float; neg_infinity] |}.

(** The block triangular form of the pattern with rows [{0, 1}] and [{1}]:
    both permutations swap the two indices. *)
Definition example_blt : BLT :=
  {| rowperm := [1; 0]; colperm := [1; 0];
     rowblock := [0; 1; 2]; colblock := [0; 1; 2];
     coarse_rowblock := [0; 0; 0; 2; 2]; coarse_colblock := [0; 0; 2; 2; 2];
     nb := 2 |}.

Definition example_substrate : Substrate :=
  {| evaluate_jacobian := fun _ _ _ _ => example_J0;
     dulmageMendelsohn := fun _ => example_blt |}.

(** The block triangular form of a diagonal 2 x 2 pattern: nothing is
    moved, and each index is a block of its own. *)
Definition diagonal_blt : BLT :=
  {| rowperm := [0; 1]; colperm := [0; 1];
     rowblock := [0; 1; 2]; colblock := [0; 1; 2];
     coarse_rowblock := [0; 0; 0; 2; 2]; coarse_colblock := [0; 0; 2; 2; 2];
     nb := 2 |}.


Definition infinite_substrate : Substrate :=
  {| evaluate_jacobian := fun _ _ _ _ => infinite_J0;
     dulmageMendelsohn := fun _ => diagonal_blt |}.

(** Two implicit equations [x1 + x2 = 0] and [x2 = 0] in two variables,
    variables already scaled. *)
Definition example_ocp : FlatOCPInternal :=
  set_scaled_variables_ true
    (set_dae_ [SXBin OpAdd (SXSym "x1") (SXSym "x2"); SXSym "x2"]
       (set_x_ [plain_variable "x1" CONTINUOUS INTERNAL;
                plain_variable "x2" CONTINUOUS INTERNAL] empty_ocp)).

(** ** Vocabulary of the statements about role classification *)

(** The buckets a variable can be sorted into by [sortType]; [RoleNone]
    stands for no bucket, [RoleInvalid] for the combination that stops the
    pass. *)
Inductive role : Type :=
| RoleParameter | RoleState | RoleControl | RoleDependent
| RoleNone | RoleInvalid.

#[global] Instance role_eq_dec : EqDecision role.
Proof. solve_decision. Defined.

Definition role_of (v : OCPVariable) : role :=
  match v_variability v, v_causality v with
  | PARAMETER, _ => if v_free v then RoleParameter else RoleInvalid
  | CONTINUOUS, INTERNAL => RoleState
  | CONTINUOUS, INPUT => RoleControl
  | CONTINUOUS, OUTPUT => RoleNone
  | CONSTANT, _ => RoleDependent
  | DISCRETE, _ => RoleNone
  end.

(** The variables of [l] whose symbol is not marked. *)
Definition unmarked (temp : list symbol) (l : list OCPVariable) : list OCPVariable :=
  filter (fun v => getTemp (v_var v) temp = false) l.

Definition with_role (r : role) (l : list OCPVariable) : list OCPVariable :=
  filter (fun v => role_of v = r) l.

(** A registry with one continuous output and one discrete variable. *)
Definition output_ocp : FlatOCPInternal :=
  set_varmap_ [("w"%string, plain_variable "w" DISCRETE INTERNAL);
               ("z"%string, plain_variable "z" CONTINUOUS OUTPUT)] empty_ocp.

(* ================================================================== *)
(** * Function objects of the NLP solver *)
(* ================================================================== *)

Inductive IOScheme : Type :=
| SCHEME_GradFInput | SCHEME_GradFOutput
| SCHEME_JacGInput | SCHEME_JacGOutput
| SCHEME_HessLagInput | SCHEME_HessLagOutput.

(** How a function object came to be: handed in by the user, or derived
    from the function at some address. *)
Inductive origin : Type :=
| Supplied
| Gradient (f iind oind : nat)
| Jacobian (f iind oind : nat) (compact symmetric : bool)
| Derivative (f nfwd nadj : nat).

(** The node a [Function] handle points to.  Copies of a handle share the
    node, so the nodes live in a heap and a handle is an address. *)
Record FunctionNode : Type := {
  fn_origin : origin;
  fn_nin : nat;
  fn_nout : nat;
  fn_name : option string;
  fn_input_scheme : option IOScheme;
  fn_output_scheme : option IOScheme;
  fn_initialized : bool
}.

(** A [Function] handle; [None] is the null handle of [Function()]. *)
Definition Function : Type := option nat.

(** A [Sparsity] object; [None] is the null pattern of [Sparsity()].  The
    pattern returned by [f.jacSparsity(iind, oind, compact, symmetric)] is
    identified by the call that made it. *)
Record SparsityNode : Type := {
  sp_function : nat;
  sp_iind : nat;
  sp_oind : nat;
  sp_compact : bool;
  sp_symmetric : bool
}.
Definition Sparsity : Type := option SparsityNode.

Definition isNull {A} (h : option A) : bool :=
  match h with None => true | Some _ => false end.

Inductive NlpSolverInput : Type :=
| NLP_SOLVER_X0 | NLP_SOLVER_P | NLP_SOLVER_LBX | NLP_SOLVER_UBX
| NLP_SOLVER_LBG | NLP_SOLVER_UBG | NLP_SOLVER_LAM_X0 | NLP_SOLVER_LAM_G0.

(** Modelled from the spec: the indices of the NLP function, whose header
    is not part of the sources at hand.  The NLP function has exactly two
    inputs (decision variables, parameters) and exactly two outputs
    (objective, constraints). *)
Definition NL_X : nat := 0.
Definition NL_P : nat := 1.
Definition NL_NUM_IN : nat := 2.
Definition NL_F : nat := 0.
Definition NL_G : nat := 1.
Definition NL_NUM_OUT : nat := 2.

(** The constants of the derivative schemes, and the numbers of inputs and
    outputs of the functions generated by differentiation; they come from
    headers and from code that are not part of the sources at hand. *)
Class DerivativeSubstrate : Type := {
  GRADF_NUM_IN : nat;
  GRADF_NUM_OUT : nat;
  JACG_NUM_IN : nat;
  JACG_NUM_OUT : nat;
  HESSLAG_NUM_IN : nat;
  HESSLAG_NUM_OUT : nat;
  (** [(nIn, nOut)] of [f.gradient(iind, oind)] from those of [f] *)
  gradient_arity : nat * nat -> nat -> nat -> nat * nat;
  (** [(nIn, nOut)] of [f.jacobian(iind, oind, compact, symmetric)] *)
  jacobian_arity : nat * nat -> nat -> nat -> bool -> bool -> nat * nat;
  (** [(nIn, nOut)] of [f.derivative(nfwd, nadj)] *)
  derivative_arity : nat * nat -> nat -> nat -> nat * nat
}.

(* ================================================================== *)
(** * The NLP solver object *)
(* ================================================================== *)

Record NlpSolverInternal : Type := {
  nlp_ : Function;
  nx_ : nat;
  np_ : nat;
  ng_ : nat;
  input_ : NlpSolverInput -> list float;      (* input(k).data() *)
  dictionary_ : gmap string Function;          (* the function options that have been set *)
  warn_initial_bounds_ : bool;                 (* option "warn_initial_bounds" *)
  verbose_ : bool;
  gradF_ : Function;
  jacF_ : Function;
  jacG_ : Function;
  gradLag_ : Function;
  hessLag_ : Function;
  spHessLag_ : Sparsity;
  heap_ : list FunctionNode;                   (* the function nodes, by address *)
  console_ : list message                      (* log lines and warnings *)
}.

Definition set_gradF_ (a : Function) (st : NlpSolverInternal)
  : NlpSolverInternal :=
  {| nlp_ := nlp_ st; nx_ := nx_ st; np_ := np_ st; ng_ := ng_ st;
     input_ := input_ st; dictionary_ := dictionary_ st;
     warn_initial_bounds_ := warn_initial_bounds_ st; verbose_ := verbose_ st; gradF_ := a; jacF_ := jacF_ st;
     jacG_ := jacG_ st; gradLag_ := gradLag_ st; hessLag_ := hessLag_ st;
     spHessLag_ := spHessLag_ st; heap_ := heap_ st;
     console_ := console_ st |}.

Definition set_jacF_ (a : Function) (st : NlpSolverInternal)
  : NlpSolverInternal :=
  {| nlp_ := nlp_ st; nx_ := nx_ st; np_ := np_ st; ng_ := ng_ st;
     input_ := input_ st; dictionary_ := dictionary_ st;
     warn_initial_bounds_ := warn_initial_bounds_ st; verbose_ := verbose_ st; gradF_ := gradF_ st; jacF_ := a;
     jacG_ := jacG_ st; gradLag_ := gradLag_ st; hessLag_ := hessLag_ st;
     spHessLag_ := spHessLag_ st; heap_ := heap_ st;
     console_ := console_ st |}.

Definition set_jacG_ (a : Function) (st : NlpSolverInternal)
  : NlpSolverInternal :=
  {| nlp_ := nlp_ st; nx_ := nx_ st; np_ := np_ st; ng_ := ng_ st;
     input_ := input_ st; dictionary_ := dictionary_ st;
     warn_initial_bounds_ := warn_initial_bounds_ st; verbose_ := verbose_ st; gradF_ := gradF_ st; jacF_ := jacF_ st;
     jacG_ := a; gradLag_ := gradLag_ st; hessLag_ := hessLag_ st;
     spHessLag_ := spHessLag_ st; heap_ := heap_ st;
     console_ := console_ st |}.

Definition set_gradLag_ (a : Function) (st : NlpSolverInternal)
  : NlpSolverInternal :=
  {| nlp_ := nlp_ st; nx_ := nx_ st; np_ := np_ st; ng_ := ng_ st;
     input_ := input_ st; dictionary_ := dictionary_ st;
     warn_initial_bounds_ := warn_initial_bounds_ st; verbose_ := verbose_ st; gradF_ := gradF_ st; jacF_ := jacF_ st;
     jacG_ := jacG_ st; gradLag_ := a; hessLag_ := hessLag_ st;
     spHessLag_ := spHessLag_ st; heap_ := heap_ st;
     console_ := console_ st |}.

Definition set_hessLag_ (a : Function) (st : NlpSolverInternal)
  : NlpSolverInternal :=
  {| nlp_ := nlp_ st; nx_ := nx_ st; np_ := np_ st; ng_ := ng_ st;
     input_ := input_ st; dictionary_ := dictionary_ st;
     warn_initial_bounds_ := warn_initial_bounds_ st; verbose_ := verbose_ st; gradF_ := gradF_ st; jacF_ := jacF_ st;
     jacG_ := jacG_ st; gradLag_ := gradLag_ st; hessLag_ := a;
     spHessLag_ := spHessLag_ st; heap_ := heap_ st;
     console_ := console_ st |}.

Definition set_spHessLag_ (a : Sparsity) (st : NlpSolverInternal)
  : NlpSolverInternal :=
  {| nlp_ := nlp_ st; nx_ := nx_ st; np_ := np_ st; ng_ := ng_ st;
     input_ := input_ st; dictionary_ := dictionary_ st;
     warn_initial_bounds_ := warn_initial_bounds_ st; verbose_ := verbose_ st; gradF_ := gradF_ st; jacF_ := jacF_ st;
     jacG_ := jacG_ st; gradLag_ := gradLag_ st; hessLag_ := hessLag_ st;
     spHessLag_ := a; heap_ := heap_ st; console_ := console_ st |}.

Definition set_heap_ (a : list FunctionNode) (st : NlpSolverInternal)
  : NlpSolverInternal :=
  {| nlp_ := nlp_ st; nx_ := nx_ st; np_ := np_ st; ng_ := ng_ st;
     input_ := input_ st; dictionary_ := dictionary_ st;
     warn_initial_bounds_ := warn_initial_bounds_ st; verbose_ := verbose_ st; gradF_ := gradF_ st; jacF_ := jacF_ st;
     jacG_ := jacG_ st; gradLag_ := gradLag_ st; hessLag_ := hessLag_ st;
     spHessLag_ := spHessLag_ st; heap_ := a; console_ := console_ st |}.

Definition set_console_ (a : list message) (st : NlpSolverInternal)
  : NlpSolverInternal :=
  {| nlp_ := nlp_ st; nx_ := nx_ st; np_ := np_ st; ng_ := ng_ st;
     input_ := input_ st; dictionary_ := dictionary_ st;
     warn_initial_bounds_ := warn_initial_bounds_ st; verbose_ := verbose_ st; gradF_ := gradF_ st; jacF_ := jacF_ st;
     jacG_ := jacG_ st; gradLag_ := gradLag_ st; hessLag_ := hessLag_ st;
     spHessLag_ := spHessLag_ st; heap_ := heap_ st; console_ := a |}.


(** ** Options, logging *)

Definition hasSetOption (name : string) (st : NlpSolverInternal) : bool :=
  bool_decide (is_Some (dictionary_ st !! name)).

(** [Function f = getOption(name)] for an option of type [OT_FUNCTION]; the
    default value [GenericType()] of these options holds no function. *)
Definition getOption_Function (name : string) : M NlpSolverInternal Function :=
  st <- get ;;
  match dictionary_ st !! name with
  | Some f => ret f
  | None => throw [MTxt "GenericType: no function"]
  end.

(** [log(msg)]: printed when the object is verbose. *)
Definition log (msg : string) : M NlpSolverInternal unit :=
  st <- get ;;
  if verbose_ st then modify (set_console_ (console_ st ++ [[MTxt msg]]))
  else ret tt.

Definition casadi_warning (msg : string) : M NlpSolverInternal unit :=
  modify (fun st => set_console_ (console_ st ++ [[MTxt "WARNING: "; MTxt msg]]) st).

(** ** Member functions of [Function] *)

(** Following a handle; a null handle throws. *)
Definition deref (f : Function) : M NlpSolverInternal (nat * FunctionNode) :=
  match f with
  | None => throw [MTxt "SharedObject: access to a null object"]
  | Some a =>
      st <- get ;;
      match heap_ st !! a with
      | Some n => ret (a, n)
      | None => throw [MTxt "undefined behaviour: dangling handle"]
      end
  end.

Definition update_node (f : Function) (upd : FunctionNode -> FunctionNode)
  : M NlpSolverInternal unit :=
  an <- deref f ;;
  modify (fun st => set_heap_ (<[fst an := upd (snd an)]> (heap_ st)) st).

Definition with_name (name : string) (n : FunctionNode) : FunctionNode :=
  {| fn_origin := fn_origin n; fn_nin := fn_nin n; fn_nout := fn_nout n;
     fn_name := Some name;
     fn_input_scheme := fn_input_scheme n;
     fn_output_scheme := fn_output_scheme n;
     fn_initialized := fn_initialized n |}.

Definition with_input_scheme (sch : IOScheme) (n : FunctionNode) : FunctionNode :=
  {| fn_origin := fn_origin n; fn_nin := fn_nin n; fn_nout := fn_nout n;
     fn_name := fn_name n;
     fn_input_scheme := Some sch;
     fn_output_scheme := fn_output_scheme n;
     fn_initialized := fn_initialized n |}.

Definition with_output_scheme (sch : IOScheme) (n : FunctionNode) : FunctionNode :=
  {| fn_origin := fn_origin n; fn_nin := fn_nin n; fn_nout := fn_nout n;
     fn_name := fn_name n;
     fn_input_scheme := fn_input_scheme n;
     fn_output_scheme := Some sch;
     fn_initialized := fn_initialized n |}.

Definition initialized (n : FunctionNode) : FunctionNode :=
  {| fn_origin := fn_origin n; fn_nin := fn_nin n; fn_nout := fn_nout n;
     fn_name := fn_name n;
     fn_input_scheme := fn_input_scheme n;
     fn_output_scheme := fn_output_scheme n;
     fn_initialized := true |}.

(** [f.setOption("name", name)] *)
Definition setOption_name (f : Function) (name : string) :=
  update_node f (with_name name).
(** [f.setOption("input_scheme", IOScheme(sch).v())] *)
Definition setOption_input_scheme (f : Function) (sch : IOScheme) :=
  update_node f (with_input_scheme sch).
(** [f.setOption("output_scheme", IOScheme(sch).v())] *)
Definition setOption_output_scheme (f : Function) (sch : IOScheme) :=
  update_node f (with_output_scheme sch).
(** [f.init(false)] *)
Definition Function_init (f : Function) := update_node f initialized.

Definition nIn (f : Function) : M NlpSolverInternal nat :=
  an <- deref f ;; ret (fn_nin (snd an)).
Definition nOut (f : Function) : M NlpSolverInternal nat :=
  an <- deref f ;; ret (fn_nout (snd an)).

(** Modelled from the spec: the differentiating members of [Function]
    ([gradient], [jacobian], [derivative], [jacSparsity]), whose code is
    not part of the sources at hand.  The spec has an empty slot built by
    symbolic differentiation of the underlying NLP function and counts the
    builds: here each such call makes a function object of its own, a new
    node behind the existing ones, of which the handle is returned; no
    call hands out a function object made by an earlier call. *)
Definition new_function (o : origin) (arity : nat * nat)
  : M NlpSolverInternal Function :=
  st <- get ;;
  let n := {| fn_origin := o; fn_nin := fst arity; fn_nout := snd arity;
              fn_name := None; fn_input_scheme := None;
              fn_output_scheme := None; fn_initialized := false |} in
  put (set_heap_ (heap_ st ++ [n]) st) ;;;
  ret (Some (length (heap_ st))).

Definition Function_gradient `{DerivativeSubstrate} (f : Function) (iind oind : nat)
  : M NlpSolverInternal Function :=
  an <- deref f ;;
  new_function (Gradient (fst an) iind oind)
    (gradient_arity (fn_nin (snd an), fn_nout (snd an)) iind oind).

Definition Function_jacobian `{DerivativeSubstrate} (f : Function) (iind oind : nat)
    (compact symmetric : bool) : M NlpSolverInternal Function :=
  an <- deref f ;;
  new_function (Jacobian (fst an) iind oind compact symmetric)
    (jacobian_arity (fn_nin (snd an), fn_nout (snd an)) iind oind compact symmetric).

Definition Function_derivative `{DerivativeSubstrate} (f : Function) (nfwd nadj : nat)
  : M NlpSolverInternal Function :=
  an <- deref f ;;
  new_function (Derivative (fst an) nfwd nadj)
    (derivative_arity (fn_nin (snd an), fn_nout (snd an)) nfwd nadj).

Definition Function_jacSparsity (f : Function) (iind oind : nat)
    (compact symmetric : bool) : M NlpSolverInternal Sparsity :=
  an <- deref f ;;
  ret (Some {| sp_function := fst an; sp_iind := iind; sp_oind := oind;
               sp_compact := compact; sp_symmetric := symmetric |}).

(** ** The bound checks *)

(** [for (i=0; !violated && i<n; ++i) violated = cond(i);] over the
    remaining indices [l]. *)
Fixpoint scan_violated (cond : nat -> bool) (violated : bool) (l : list nat) : bool :=
  match l with
  | [] => violated
  | i :: l' => if violated then violated else scan_violated cond (cond i) l'
  end.

(** [v[i]] of an input vector; the vectors are sized by [init]. *)
Definition elt (v : list float) (i : nat) : float := nth i v 0%float.

(** [NlpSolverInternal::checkInitialBounds] *)
Definition checkInitialBounds : M NlpSolverInternal unit :=
  st <- get ;;
  let x0 := input_ st NLP_SOLVER_X0 in
  let lbx := input_ st NLP_SOLVER_LBX in
  let ubx := input_ st NLP_SOLVER_UBX in
  let lbg := input_ st NLP_SOLVER_LBG in
  let ubg := input_ st NLP_SOLVER_UBG in
  let inf := infinity in
  (* detect ill-posed problems (simple bounds) *)
  let violated := false in
  let violated :=
    scan_violated (fun i => (elt lbx i =? inf) || (elt ubx i <? elt lbx i)
                            || (elt ubx i =? - inf))%float
                  violated (seq 0 (nx_ st)) in
  casadi_assert_message (negb violated)
    [MTxt "Ill-posed problem detected (x bounds)"] ;;;
  (* detect ill-posed problems (nonlinear bounds) *)
  let violated :=
    scan_violated (fun i => (elt lbg i =? inf) || (elt ubg i <? elt lbg i)
                            || (elt ubg i =? - inf))%float
                  violated (seq 0 (ng_ st)) in
  casadi_assert_message (negb violated)
    [MTxt "Ill-posed problem detected (g bounds)"] ;;;
  (* warn if initial condition violates bounds *)
  if warn_initial_bounds_ st then
    let violated :=
      scan_violated (fun k => (elt ubx k <? elt x0 k) || (elt x0 k <? elt lbx k))%float
                    violated (seq 0 (nx_ st)) in
    if violated then
      casadi_warning
        "NlpSolver: The initial guess does not satisfy LBX and UBX. Option 'warn_initial_bounds' controls this warning."
    else ret tt
  else ret tt.

(** [Matrix::at(i)]: checked access. *)
Definition at_ (v : list float) (i : nat) : M NlpSolverInternal float :=
  match v !! i with
  | Some x => ret x
  | None => throw [MTxt "std::out_of_range"]
  end.

Definition check_bound (text : nat -> float -> float -> message)
    (lb ub : list float) (i : nat) : M NlpSolverInternal unit :=
  l <- at_ lb i ;;
  u <- at_ ub i ;;
  casadi_assert_message (l <=? u)%float (text i l u).

Definition lbx_violated_text (i : nat) (l u : float) : message :=
  [MTxt "LBX[i] <= UBX[i] was violated for i="; MInt i;
   MTxt ". Got LBX[i]="; MDbl l; MTxt " and UBX[i]="; MDbl u].

Definition lbg_violated_text (i : nat) (l u : float) : message :=
  [MTxt "LBG[i] <= UBG[i] was violated for i="; MInt i;
   MTxt ". Got LBG[i]="; MDbl l; MTxt " and UBG[i]="; MDbl u].

(** [NlpSolverInternal::checkInputs] *)
Definition checkInputs : M NlpSolverInternal unit :=
  st <- get ;;
  for_each (check_bound lbx_violated_text
              (input_ st NLP_SOLVER_LBX) (input_ st NLP_SOLVER_UBX))
           (seq 0 (length (input_ st NLP_SOLVER_LBX))) ;;;
  for_each (check_bound lbg_violated_text
              (input_ st NLP_SOLVER_LBG) (input_ st NLP_SOLVER_UBG))
           (seq 0 (length (input_ st NLP_SOLVER_LBG))).

(** ** Vocabulary of the statements about the bound checks *)

(** The bounds at index [i] are ill-posed: the lower bound is [+inf], or it
    exceeds the upper bound, or the upper bound is [-inf]. *)
Definition ill_posed (lb ub : list float) (i : nat) : bool :=
  ((elt lb i =? infinity) || (elt ub i <? elt lb i)
   || (elt ub i =? - infinity))%float.

(** [st1] differs from [st] at most by what was printed. *)
Definition same_but_console (st st1 : NlpSolverInternal) : Prop :=
  set_console_ (console_ st) st1 = st.

(** A message names the index [i]. *)
Definition names_index (m : message) (i : nat) : Prop := MInt i ∈ m.

(** ** The derivative functions *)

(** The texts of the signature assertions. *)
Definition gradient_inputs_text : message :=
  [MTxt "Wrong number of inputs to the gradient function. Note: The gradient signature was changed in #544"].
Definition gradient_outputs_text : message :=
  [MTxt "Wrong number of outputs to the gradient function. Note: The gradient signature was changed in #544"].
Definition jacobian_inputs_text : message :=
  [MTxt "Wrong number of inputs to the Jacobian function. Note: The Jacobian signature was changed in #544"].
Definition jacobian_outputs_text : message :=
  [MTxt "Wrong number of outputs to the Jacobian function. Note: The Jacobian signature was changed in #544"].
Definition hessian_inputs_text : message :=
  [MTxt "Wrong number of inputs to the Hessian function. Note: The Lagrangian Hessian signature was changed in #544"].
Definition hessian_outputs_text : message :=
  [MTxt "Wrong number of outputs to the Hessian function. Note: The Lagrangian Hessian signature was changed in #544"].

(** [NlpSolverInternal::getJacF] *)
Definition getJacF `{DerivativeSubstrate} : M NlpSolverInternal Function :=
  st <- get ;;
  jacF <- (if hasSetOption "jac_f" st then getOption_Function "jac_f"
           else
             log "Generating objective jacobian" ;;;
             j <- Function_jacobian (nlp_ st) NL_X NL_F false false ;;
             log "Jacobian function generated" ;;;
             ret j) ;;
  setOption_name jacF "jac_f" ;;;
  Function_init jacF ;;;
  n <- nIn jacF ;;
  casadi_assert_message (n =? GRADF_NUM_IN)
    gradient_inputs_text ;;;
  n <- nOut jacF ;;
  casadi_assert_message (n =? GRADF_NUM_OUT)
    gradient_outputs_text ;;;
  setOption_input_scheme jacF SCHEME_GradFInput ;;;
  setOption_output_scheme jacF SCHEME_GradFOutput ;;;
  log "Objective gradient function initialized" ;;;
  ret jacF.

(** [NlpSolverInternal::jacF] *)
Definition jacF `{DerivativeSubstrate} : M NlpSolverInternal Function :=
  st <- get ;;
  (if isNull (jacF_ st) then f <- getJacF ;; modify (set_jacF_ f) else ret tt) ;;;
  st <- get ;;
  ret (jacF_ st).

(** [NlpSolverInternal::getGradF] *)
Definition getGradF `{DerivativeSubstrate} : M NlpSolverInternal Function :=
  st <- get ;;
  gradF <- (if hasSetOption "grad_f" st then getOption_Function "grad_f"
            else
              log "Generating objective gradient" ;;;
              g <- Function_gradient (nlp_ st) NL_X NL_F ;;
              log "Gradient function generated" ;;;
              ret g) ;;
  setOption_name gradF "grad_f" ;;;
  Function_init gradF ;;;
  n <- nIn gradF ;;
  casadi_assert_message (n =? GRADF_NUM_IN)
    gradient_inputs_text ;;;
  n <- nOut gradF ;;
  casadi_assert_message (n =? GRADF_NUM_OUT)
    gradient_outputs_text ;;;
  setOption_input_scheme gradF SCHEME_GradFInput ;;;
  setOption_output_scheme gradF SCHEME_GradFOutput ;;;
  log "Objective gradient function initialized" ;;;
  ret gradF.

(** [NlpSolverInternal::gradF] *)
Definition gradF `{DerivativeSubstrate} : M NlpSolverInternal Function :=
  st <- get ;;
  (if isNull (gradF_ st) then f <- getGradF ;; modify (set_gradF_ f) else ret tt) ;;;
  st <- get ;;
  ret (gradF_ st).

(** [NlpSolverInternal::getJacG] *)
Definition getJacG `{DerivativeSubstrate} : M NlpSolverInternal Function :=
  st <- get ;;
  (* return null if no constraints *)
  if ng_ st =? 0 then ret None
  else
    jacG <- (if hasSetOption "jac_g" st then getOption_Function "jac_g"
             else
               log "Generating constraint Jacobian" ;;;
               j <- Function_jacobian (nlp_ st) NL_X NL_G false false ;;
               log "Jacobian function generated" ;;;
               ret j) ;;
    setOption_name jacG "jac_g" ;;;
    Function_init jacG ;;;
    n <- nIn jacG ;;
    casadi_assert_message (n =? JACG_NUM_IN)
      jacobian_inputs_text ;;;
    n <- nOut jacG ;;
    casadi_assert_message (n =? JACG_NUM_OUT)
      jacobian_outputs_text ;;;
    setOption_input_scheme jacG SCHEME_JacGInput ;;;
    setOption_output_scheme jacG SCHEME_JacGOutput ;;;
    log "Jacobian function initialized" ;;;
    ret jacG.

(** [NlpSolverInternal::jacG] *)
Definition jacG `{DerivativeSubstrate} : M NlpSolverInternal Function :=
  st <- get ;;
  (if isNull (jacG_ st) then f <- getJacG ;; modify (set_jacG_ f) else ret tt) ;;;
  st <- get ;;
  ret (jacG_ st).

(** [NlpSolverInternal::getGradLag] *)
Definition getGradLag `{DerivativeSubstrate} : M NlpSolverInternal Function :=
  st <- get ;;
  gradLag <- (if hasSetOption "grad_lag" st then getOption_Function "grad_lag"
              else
                log "Generating/retrieving Lagrangian gradient function" ;;;
                g <- Function_derivative (nlp_ st) 0 1 ;;
                log "Gradient function generated" ;;;
                ret g) ;;
  setOption_name gradLag "grad_lag" ;;;
  Function_init gradLag ;;;
  log "Gradient function initialized" ;;;
  ret gradLag.

(** [NlpSolverInternal::gradLag] *)
Definition gradLag `{DerivativeSubstrate} : M NlpSolverInternal Function :=
  st <- get ;;
  (if isNull (gradLag_ st) then f <- getGradLag ;; modify (set_gradLag_ f)
   else ret tt) ;;;
  st <- get ;;
  ret (gradLag_ st).

(** [NlpSolverInternal::getHessLag] *)
Definition getHessLag `{DerivativeSubstrate} : M NlpSolverInternal Function :=
  st <- get ;;
  hessLag <- (if hasSetOption "hess_lag" st then getOption_Function "hess_lag"
              else
                gradLag <- gradLag ;;
                log "Generating Hessian of the Lagrangian" ;;;
                h <- Function_jacobian gradLag NL_X (NL_NUM_OUT + NL_X) false true ;;
                log "Hessian function generated" ;;;
                ret h) ;;
  setOption_name hessLag "hess_lag" ;;;
  Function_init hessLag ;;;
  n <- nIn hessLag ;;
  casadi_assert_message (n =? HESSLAG_NUM_IN)
    hessian_inputs_text ;;;
  n <- nOut hessLag ;;
  casadi_assert_message (n =? HESSLAG_NUM_OUT)
    hessian_outputs_text ;;;
  setOption_input_scheme hessLag SCHEME_HessLagInput ;;;
  setOption_output_scheme hessLag SCHEME_HessLagOutput ;;;
  log "Hessian function initialized" ;;;
  ret hessLag.

(** [NlpSolverInternal::hessLag] *)
Definition hessLag `{DerivativeSubstrate} : M NlpSolverInternal Function :=
  st <- get ;;
  (if isNull (hessLag_ st) then f <- getHessLag ;; modify (set_hessLag_ f)
   else ret tt) ;;;
  st <- get ;;
  ret (hessLag_ st).

(** [NlpSolverInternal::getSpHessLag]; the branch for an option
    [hess_lag_sparsity] is disabled in the source ([if (false)]). *)
Definition getSpHessLag `{DerivativeSubstrate} : M NlpSolverInternal Sparsity :=
  gradLag <- gradLag ;;
  log "Generating Hessian of the Lagrangian sparsity pattern" ;;;
  spHessLag <- Function_jacSparsity gradLag NL_X (NL_NUM_OUT + NL_X) false true ;;
  log "Hessian sparsity pattern generated" ;;;
  ret spHessLag.

(** [NlpSolverInternal::spHessLag] *)
Definition spHessLag `{DerivativeSubstrate} : M NlpSolverInternal Sparsity :=
  st <- get ;;
  (if isNull (spHessLag_ st) then sp <- getSpHessLag ;; modify (set_spHessLag_ sp)
   else ret tt) ;;;
  st <- get ;;
  ret (spHessLag_ st).

(** ** The six derivative kinds, uniformly *)

Inductive kind : Type :=
| KGradF | KJacF | KJacG | KGradLag | KHessLag | KSpHessLag.

#[global] Instance kind_eq_dec : EqDecision kind.
Proof. solve_decision. Defined.

(** What a cache slot holds or an accessor returns. *)
Inductive cached : Type :=
| CFunction (f : Function)
| CSparsity (sp : Sparsity).

Definition cached_null (c : cached) : bool :=
  match c with CFunction f => isNull f | CSparsity sp => isNull sp end.

Definition slot (k : kind) (st : NlpSolverInternal) : cached :=
  match k with
  | KGradF => CFunction (gradF_ st)
  | KJacF => CFunction (jacF_ st)
  | KJacG => CFunction (jacG_ st)
  | KGradLag => CFunction (gradLag_ st)
  | KHessLag => CFunction (hessLag_ st)
  | KSpHessLag => CSparsity (spHessLag_ st)
  end.

Definition access `{DerivativeSubstrate} (k : kind) : M NlpSolverInternal cached :=
  match k with
  | KGradF => f <- gradF ;; ret (CFunction f)
  | KJacF => f <- jacF ;; ret (CFunction f)
  | KJacG => f <- jacG ;; ret (CFunction f)
  | KGradLag => f <- gradLag ;; ret (CFunction f)
  | KHessLag => f <- hessLag ;; ret (CFunction f)
  | KSpHessLag => sp <- spHessLag ;; ret (CSparsity sp)
  end.

(** The option that overrides the default recipe of a kind, if there is
    one. *)
Definition override_option (k : kind) : option string :=
  match k with
  | KGradF => Some "grad_f"%string
  | KJacF => Some "jac_f"%string
  | KJacG => Some "jac_g"%string
  | KGradLag => Some "grad_lag"%string
  | KHessLag => Some "hess_lag"%string
  | KSpHessLag => None
  end.

(** The numbers of inputs and outputs the source checks a candidate
    against, for the kinds it checks. *)
Definition expected_arity `{DerivativeSubstrate} (k : kind) : option (nat * nat) :=
  match k with
  | KGradF | KJacF => Some (GRADF_NUM_IN, GRADF_NUM_OUT)
  | KJacG => Some (JACG_NUM_IN, JACG_NUM_OUT)
  | KHessLag => Some (HESSLAG_NUM_IN, HESSLAG_NUM_OUT)
  | KGradLag | KSpHessLag => None
  end.

(** ** A concrete solver for the examples *)

(** The constants and the arities of CasADi: a derivative function returns
    the derivative in front of the outputs of the function it derives. *)
Definition casadi_derivatives : DerivativeSubstrate :=
  {| GRADF_NUM_IN := 2; GRADF_NUM_OUT := 3;
     JACG_NUM_IN := 2; JACG_NUM_OUT := 3;
     HESSLAG_NUM_IN := 4; HESSLAG_NUM_OUT := 5;
     gradient_arity := fun a _ _ => (fst a, S (snd a));
     jacobian_arity := fun a _ _ _ _ => (fst a, S (snd a));
     derivative_arity := fun a nfwd nadj =>
       (fst a * (1 + nfwd) + snd a * nadj, snd a * (1 + nfwd) + fst a * nadj) |}.

Definition supplied (nin nout : nat) : FunctionNode :=
  {| fn_origin := Supplied; fn_nin := nin; fn_nout := nout;
     fn_name := None; fn_input_scheme := None; fn_output_scheme := None;
     fn_initialized := false |}.

(** A solver for an NLP with [ng] constraints, with the given options and
    bounds; address 0 holds the NLP function, the addresses after it the
    functions supplied by the user. *)
Definition example_solver (ng : nat) (options : list (string * Function))
    (user : list FunctionNode) (lbx ubx lbg ubg : list float)
  : NlpSolverInternal :=
  {| nlp_ := Some 0; nx_ := length lbx; np_ := 0; ng_ := ng;
     input_ := fun k => match k with
                        | NLP_SOLVER_LBX => lbx | NLP_SOLVER_UBX => ubx
                        | NLP_SOLVER_LBG => lbg | NLP_SOLVER_UBG => ubg
                        | NLP_SOLVER_X0 | NLP_SOLVER_LAM_X0 => map (fun _ => 0%float) lbx
                        | NLP_SOLVER_LAM_G0 => map (fun _ => 0%float) lbg
                        | NLP_SOLVER_P => []
                        end;
     dictionary_ := list_to_map options;
     warn_initial_bounds_ := false;
     verbose_ := false;
     gradF_ := None; jacF_ := None; jacG_ := None; gradLag_ := None;
     hessLag_ := None; spHessLag_ := None;
     heap_ := supplied 2 2 :: user;
     console_ := [] |}.

(** A problem with one variable whose bounds are both [+inf], and no
    constraint. *)
Definition infinite_bounds_solver : NlpSolverInternal :=
  example_solver 0 [] [] [infinity] [infinity] [] [].

(** A problem whose second variable has its lower bound above its upper
    bound. *)
Definition crossed_bounds_solver : NlpSolverInternal :=
  example_solver 0 [] [] [0%float; 2%float] [1%float; 1%float] [] [].

(** ** Vocabulary of the statements about the derivative functions *)

(** What the accessor of a kind calls to fill an empty slot, and the
    assignment to the slot. *)
Definition getter `{DerivativeSubstrate} (k : kind) : M NlpSolverInternal cached :=
  match k with
  | KGradF => f <- getGradF ;; ret (CFunction f)
  | KJacF => f <- getJacF ;; ret (CFunction f)
  | KJacG => f <- getJacG ;; ret (CFunction f)
  | KGradLag => f <- getGradLag ;; ret (CFunction f)
  | KHessLag => f <- getHessLag ;; ret (CFunction f)
  | KSpHessLag => sp <- getSpHessLag ;; ret (CSparsity sp)
  end.

Definition set_slot (k : kind) (c : cached) (st : NlpSolverInternal)
  : NlpSolverInternal :=
  match k, c with
  | KGradF, CFunction f => set_gradF_ f st
  | KJacF, CFunction f => set_jacF_ f st
  | KJacG, CFunction f => set_jacG_ f st
  | KGradLag, CFunction f => set_gradLag_ f st
  | KHessLag, CFunction f => set_hessLag_ f st
  | KSpHessLag, CSparsity sp => set_spHessLag_ sp st
  | _, _ => st
  end.

(** The candidate function of a kind: the override when the option is set,
    the function generated from the NLP otherwise (the first statements of
    [getGradF], [getJacF], [getJacG], [getGradLag] and [getHessLag]). *)
Definition candidate `{DerivativeSubstrate} (k : kind) : M NlpSolverInternal Function :=
  st <- get ;;
  match k with
  | KGradF =>
      if hasSetOption "grad_f" st then getOption_Function "grad_f"
      else
        log "Generating objective gradient" ;;;
        g <- Function_gradient (nlp_ st) NL_X NL_F ;;
        log "Gradient function generated" ;;;
        ret g
  | KJacF =>
      if hasSetOption "jac_f" st then getOption_Function "jac_f"
      else
        log "Generating objective jacobian" ;;;
        j <- Function_jacobian (nlp_ st) NL_X NL_F false false ;;
        log "Jacobian function generated" ;;;
        ret j
  | KJacG =>
      if hasSetOption "jac_g" st then getOption_Function "jac_g"
      else
        log "Generating constraint Jacobian" ;;;
        j <- Function_jacobian (nlp_ st) NL_X NL_G false false ;;
        log "Jacobian function generated" ;;;
        ret j
  | KGradLag =>
      if hasSetOption "grad_lag" st then getOption_Function "grad_lag"
      else
        log "Generating/retrieving Lagrangian gradient function" ;;;
        g <- Function_derivative (nlp_ st) 0 1 ;;
        log "Gradient function generated" ;;;
        ret g
  | KHessLag =>
      if hasSetOption "hess_lag" st then getOption_Function "hess_lag"
      else
        gradLag <- gradLag ;;
        log "Generating Hessian of the Lagrangian" ;;;
        h <- Function_jacobian gradLag NL_X (NL_NUM_OUT + NL_X) false true ;;
        log "Hessian function generated" ;;;
        ret h
  | KSpHessLag => gradLag
  end.

(** The statements that follow the choice of the candidate in [getGradF],
    [getJacF], [getJacG] and [getHessLag]. *)
Definition check_signature (f : Function) (name : string) (num_in num_out : nat)
    (inputs_text outputs_text : message) (scheme_in scheme_out : IOScheme)
    (done : string) : M NlpSolverInternal Function :=
  setOption_name f name ;;;
  Function_init f ;;;
  n <- nIn f ;;
  casadi_assert_message (n =? num_in) inputs_text ;;;
  n <- nOut f ;;
  casadi_assert_message (n =? num_out) outputs_text ;;;
  setOption_input_scheme f scheme_in ;;;
  setOption_output_scheme f scheme_out ;;;
  log done ;;;
  ret f.

(** The statements of the getter of a function kind that follow the choice
    of the candidate [f]. *)
Definition finish `{DerivativeSubstrate} (k : kind) (f : Function)
  : M NlpSolverInternal Function :=
  match k with
  | KGradF =>
      check_signature f "grad_f" GRADF_NUM_IN GRADF_NUM_OUT
        gradient_inputs_text gradient_outputs_text
        SCHEME_GradFInput SCHEME_GradFOutput
        "Objective gradient function initialized"
  | KJacF =>
      check_signature f "jac_f" GRADF_NUM_IN GRADF_NUM_OUT
        gradient_inputs_text gradient_outputs_text
        SCHEME_GradFInput SCHEME_GradFOutput
        "Objective gradient function initialized"
  | KJacG =>
      check_signature f "jac_g" JACG_NUM_IN JACG_NUM_OUT
        jacobian_inputs_text jacobian_outputs_text
        SCHEME_JacGInput SCHEME_JacGOutput
        "Jacobian function initialized"
  | KHessLag =>
      check_signature f "hess_lag" HESSLAG_NUM_IN HESSLAG_NUM_OUT
        hessian_inputs_text hessian_outputs_text
        SCHEME_HessLagInput SCHEME_HessLagOutput
        "Hessian function initialized"
  | KGradLag =>
      setOption_name f "grad_lag" ;;;
      Function_init f ;;;
      log "Gradient function initialized" ;;;
      ret f
  | KSpHessLag => ret f
  end.

(** The texts of the two signature assertions of a kind. *)
Definition inputs_text (k : kind) : message :=
  match k with
  | KGradF | KJacF => gradient_inputs_text
  | KJacG => jacobian_inputs_text
  | KHessLag => hessian_inputs_text
  | KGradLag | KSpHessLag => []
  end.

Definition outputs_text (k : kind) : message :=
  match k with
  | KGradF | KJacF => gradient_outputs_text
  | KJacG => jacobian_outputs_text
  | KHessLag => hessian_outputs_text
  | KGradLag | KSpHessLag => []
  end.

(** A computation keeps a relation between the state before and the state
    after, whether it returns or throws. *)
Definition preserves {S A} (R : S -> S -> Prop) (c : M S A) : Prop :=
  forall s r s', c s = (r, s') -> R s s'.

(** The members other than the cache slots, the heap and the console. *)
Definition config_same (st st' : NlpSolverInternal) : Prop :=
  nlp_ st' = nlp_ st /\ nx_ st' = nx_ st /\ np_ st' = np_ st /\
  ng_ st' = ng_ st /\ input_ st' = input_ st /\
  dictionary_ st' = dictionary_ st /\
  warn_initial_bounds_ st' = warn_initial_bounds_ st /\
  verbose_ st' = verbose_ st.

(** No node is removed and no node changes its numbers of inputs and
    outputs. *)
Definition arity_stable (st st' : NlpSolverInternal) : Prop :=
  forall a n, heap_ st !! a = Some n ->
    exists n', heap_ st' !! a = Some n' /\
               fn_nin n' = fn_nin n /\ fn_nout n' = fn_nout n.

(** What a step may do to the object: only the slots of the kinds [ks] may
    change, and of these only the empty ones. *)
Definition frame (ks : list kind) (st st' : NlpSolverInternal) : Prop :=
  config_same st st' /\
  (forall k, k ∉ ks -> slot k st' = slot k st) /\
  (forall k, cached_null (slot k st) = false -> slot k st' = slot k st) /\
  arity_stable st st'.

(** The kinds whose slot the accessor of [k] may fill. *)
Definition may_fill (k : kind) : list kind :=
  match k with
  | KHessLag => [KHessLag; KGradLag]
  | KSpHessLag => [KSpHessLag; KGradLag]
  | _ => [k]
  end.

(** A solver with no constraints for which a constraint Jacobian has been
    supplied. *)
Definition unconstrained_solver : NlpSolverInternal :=
  example_solver 0 [("jac_g"%string, Some 1)] [supplied 2 3] [] [] [] [].

(** A solver with one constraint and no option set. *)
Definition plain_solver : NlpSolverInternal :=
  example_solver 1 [] [] [0%float] [1%float] [0%float] [0%float].

(** A solver to which a function with [nin] inputs and one output has been
    supplied as the option [name]. *)
Definition solver_with_override (name : string) (nin : nat) : NlpSolverInternal :=
  example_solver 1 [(name, Some 1)] [supplied nin 1] [0%float] [1%float]
    [0%float] [0%float].

(** ** Vocabulary of the further statements about the derivative functions *)

(** The state after [log(msg)]. *)
Definition logged (msg : string) (st : NlpSolverInternal) : NlpSolverInternal :=
  if verbose_ st then set_console_ (console_ st ++ [[MTxt msg]]) st else st.

(** The schemes the getter of a kind tags its function with. *)
Definition schemes_of (k : kind) : option (IOScheme * IOScheme) :=
  match k with
  | KGradF | KJacF => Some (SCHEME_GradFInput, SCHEME_GradFOutput)
  | KJacG => Some (SCHEME_JacGInput, SCHEME_JacGOutput)
  | KHessLag => Some (SCHEME_HessLagInput, SCHEME_HessLagOutput)
  | KGradLag | KSpHessLag => None
  end.

(** What the getter of a kind has done to the node [n] of its candidate
    when it returns. *)
Definition tagged (k : kind) (n : FunctionNode) : FunctionNode :=
  match k with
  | KGradF =>
      with_output_scheme SCHEME_GradFOutput
        (with_input_scheme SCHEME_GradFInput (initialized (with_name "grad_f" n)))
  | KJacF =>
      with_output_scheme SCHEME_GradFOutput
        (with_input_scheme SCHEME_GradFInput (initialized (with_name "jac_f" n)))
  | KJacG =>
      with_output_scheme SCHEME_JacGOutput
        (with_input_scheme SCHEME_JacGInput (initialized (with_name "jac_g" n)))
  | KGradLag => initialized (with_name "grad_lag" n)
  | KHessLag =>
      with_output_scheme SCHEME_HessLagOutput
        (with_input_scheme SCHEME_HessLagInput (initialized (with_name "hess_lag" n)))
  | KSpHessLag => n
  end.

(** The name the getter of a kind gives its function, and the line it logs
    last. *)
Definition function_name (k : kind) : string :=
  match k with
  | KGradF => "grad_f" | KJacF => "jac_f" | KJacG => "jac_g"
  | KGradLag => "grad_lag" | KHessLag => "hess_lag" | KSpHessLag => ""
  end.

Definition done_text (k : kind) : string :=
  match k with
  | KGradF | KJacF => "Objective gradient function initialized"
  | KJacG => "Jacobian function initialized"
  | KGradLag => "Gradient function initialized"
  | KHessLag => "Hessian function initialized"
  | KSpHessLag => ""
  end.

(** The node of a function generated by differentiation. *)
Definition generated (o : origin) (arity : nat * nat) : FunctionNode :=
  {| fn_origin := o; fn_nin := fst arity; fn_nout := snd arity;
     fn_name := None; fn_input_scheme := None; fn_output_scheme := None;
     fn_initialized := false |}.

(** The pattern [getSpHessLag] asks of the function at address [g]. *)
Definition hessian_pattern (g : nat) : SparsityNode :=
  {| sp_function := g; sp_iind := NL_X; sp_oind := NL_NUM_OUT + NL_X;
     sp_compact := false; sp_symmetric := true |}.

(** A solver to which a gradient of the objective with the numbers of
    inputs and outputs of the scheme has been supplied. *)
Definition solver_with_gradient : NlpSolverInternal :=
  example_solver 1 [("grad_f"%string, Some 1)] [supplied 2 3] [0%float] [1%float]
    [0%float] [0%float].

(** ** Vocabulary of the comparison of the two bound checks *)

(** Both bounds at index [i] are [+inf], or both are [-inf]. *)
Definition both_infinite (lb ub : list float) (i : nat) : bool :=
  ((elt lb i =? infinity) && (elt ub i =? infinity)
   || (elt lb i =? neg_infinity) && (elt ub i =? neg_infinity))%float.

(** The line [checkInitialBounds] prints for an initial guess outside its
    bounds. *)
Definition initial_guess_warning : message :=
  [MTxt "WARNING: ";
   MTxt "NlpSolver: The initial guess does not satisfy LBX and UBX. Option 'warn_initial_bounds' controls this warning."].

(** The initial guess at index [k] is above its upper or below its lower
    bound. *)
Definition guess_outside (x0 lbx ubx : list float) (k : nat) : bool :=
  ((elt ubx k <? elt x0 k) || (elt x0 k <? elt lbx k))%float.

(** A problem with one variable, bounds [1] and [2], initial guess [0],
    for which the warning about the initial guess is switched on. *)
Definition warned_solver : NlpSolverInternal :=
  {| nlp_ := Some 0; nx_ := 1; np_ := 0; ng_ := 0;
     input_ := fun k => match k with
                        | NLP_SOLVER_LBX => [1%float]
                        | NLP_SOLVER_UBX => [2%float]
                        | NLP_SOLVER_X0 | NLP_SOLVER_LAM_X0 => [0%float]
                        | _ => []
                        end;
     dictionary_ := ∅;
     warn_initial_bounds_ := true;
     verbose_ := false;
     gradF_ := None; jacF_ := None; jacG_ := None; gradLag_ := None;
     hessLag_ := None; spHessLag_ := None;
     heap_ := [supplied 2 2];
     console_ := [] |}.

(* ================================================================== *)
(** * The registry of variables *)
(* ================================================================== *)

(** [varmap_.find(name)] on the registry, a [std::map] kept in the order of
    its keys. *)
Fixpoint map_find (name : string) (m : list (string * OCPVariable))
  : option OCPVariable :=
  match m with
  | [] => None
  | (k, v) :: m' => if String.eqb k name then Some v else map_find name m'
  end.

(** [varmap_[name] = var]: the entry is put at its place in the order of
    the keys ([std::string] compares byte by byte), and replaces an entry
    with the same key. *)
Fixpoint map_assign (name : string) (var : OCPVariable)
    (m : list (string * OCPVariable)) : list (string * OCPVariable) :=
  match m with
  | [] => [(name, var)]
  | (k, v) :: m' =>
      if String.ltb name k then (name, var) :: (k, v) :: m'
      else if String.eqb k name then (name, var) :: m'
      else (k, v) :: map_assign name var m'
  end.

(** The double quote character of the messages. *)
Definition quote : string := String (Ascii.ascii_of_nat 34) EmptyString.

Definition no_such_variable_text (name : string) : message :=
  [MTxt (String.append "No such variable: " quote); MTxt name;
   MTxt (String.append quote ".")].

Definition already_added_text (name : string) : message :=
  [MTxt (String.append "Variable " quote); MTxt name;
   MTxt (String.append quote " has already been added.")].

(** [FlatOCPInternal::variable] *)
Definition variable (name : string) : M FlatOCPInternal OCPVariable :=
  st <- get ;;
  (* find the variable *)
  match map_find name (varmap_ st) with
  | None => throw (no_such_variable_text name)
  | Some v => ret v
  end.

(** [FlatOCPInternal::addVariable] *)
Definition addVariable (name : string) (var : OCPVariable)
  : M FlatOCPInternal unit :=
  st <- get ;;
  (* try to find the name *)
  match map_find name (varmap_ st) with
  | Some _ => throw (already_added_text name)
  | None => modify (fun st => set_varmap_ (map_assign name var (varmap_ st)) st)
  end.

(** The keys of the registry increase strictly: what [std::map] keeps. *)
Fixpoint keys_increase (m : list (string * OCPVariable)) : bool :=
  match m with
  | [] => true
  | (k, _) :: m' =>
      match m' with
      | [] => true
      | (k', _) :: _ => String.ltb k k' && keys_increase m'
      end
  end.

(** ** Vocabulary of the statements about what the passes keep *)

(** The sizes parse checks: as many implicit equations as implicit states,
    explicit equations as differential states, algebraic equations as
    algebraic states, quadrature equations as quadrature states,
    definitions as dependent variables. *)
Definition dimensions_consistent (st : FlatOCPInternal) : Prop :=
  length (x_ st) = length (dae_ st) /\
  length (xd_ st) = length (ode_ st) /\
  length (xa_ st) = length (alg_ st) /\
  length (q_ st) = length (quad_ st) /\
  length (y_ st) = length (dep_ st).

(** The lists of variables and the sets of equations have the sizes they
    had. *)
Definition same_sizes (st st' : FlatOCPInternal) : Prop :=
  length (x_ st') = length (x_ st) /\
  length (xd_ st') = length (xd_ st) /\
  length (xa_ st') = length (xa_ st) /\
  length (q_ st') = length (q_ st) /\
  length (y_ st') = length (y_ st) /\
  length (dae_ st') = length (dae_ st) /\
  length (ode_ st') = length (ode_ st) /\
  length (alg_ st') = length (alg_ st) /\
  length (quad_ st') = length (quad_ st) /\
  length (dep_ st') = length (dep_ st).

(** The members [sortType] has no business with: the registry, the
    quadrature states, the flags and all the sets of equations but the
    definitions of the dependent variables. *)
Definition unsorted_same (st st' : FlatOCPInternal) : Prop :=
  varmap_ st' = varmap_ st /\ t_ st' = t_ st /\ q_ st' = q_ st /\
  dae_ st' = dae_ st /\ ode_ st' = ode_ st /\ alg_ st' = alg_ st /\
  quad_ st' = quad_ st /\ initial_ st' = initial_ st /\
  path_ st' = path_ st /\ mterm_ st' = mterm_ st /\ lterm_ st' = lterm_ st /\
  path_min_ st' = path_min_ st /\ path_max_ st' = path_max_ st /\
  scaled_variables_ st' = scaled_variables_ st /\
  scaled_equations_ st' = scaled_equations_ st.

(** A registry with one constant and one state. *)
Definition constant_ocp : FlatOCPInternal :=
  set_varmap_ [("c"%string, plain_variable "c" CONSTANT INTERNAL);
               ("x"%string, plain_variable "x" CONTINUOUS INTERNAL)] empty_ocp.

(** The registry and the lists of variables are as they were. *)
Definition variables_same (st st' : FlatOCPInternal) : Prop :=
  varmap_ st' = varmap_ st /\ t_ st' = t_ st /\
  x_ st' = x_ st /\ xd_ st' = xd_ st /\ xa_ st' = xa_ st /\ q_ st' = q_ st /\
  y_ st' = y_ st /\ p_ st' = p_ st /\ u_ st' = u_ st /\
  path_min_ st' = path_min_ st /\ path_max_ st' = path_max_ st.

(* ================================================================== *)
(** * Reading the model description *)
(* ================================================================== *)

(** Modelled from the spec: the attribute tree handed over by the XML
    parser, whose class [XMLNode] is not part of the sources at hand: a
    node has a name, attributes looked up by key, a text content and
    children looked up by position or by name. *)
#[local] Unset Elimination Schemes.
Inductive XMLNode : Type :=
| XMLElement (name : string) (attributes : list (string * string))
             (text : string) (children : list XMLNode).
#[local] Set Elimination Schemes.

Definition getName (node : XMLNode) : string :=
  match node with XMLElement name _ _ _ => name end.

Definition getText (node : XMLNode) : string :=
  match node with XMLElement _ _ text _ => text end.

Definition node_attributes (node : XMLNode) : list (string * string) :=
  match node with XMLElement _ attributes _ _ => attributes end.

Definition node_children (node : XMLNode) : list XMLNode :=
  match node with XMLElement _ _ _ children => children end.

(** [node.size()] *)
Definition size (node : XMLNode) : nat := length (node_children node).

(** [node.checkName(name)] *)
Definition checkName (node : XMLNode) (name : string) : bool :=
  String.eqb (getName node) name.

(** [node[i]]; a position without child is a failure. *)
Definition child {S} (node : XMLNode) (i : nat) : M S XMLNode :=
  match node_children node !! i with
  | Some c => ret c
  | None => throw [MTxt "XMLNode: index out of bounds"]
  end.

(** [node[name]]; a name without child is a failure. *)
Definition child_named {S} (node : XMLNode) (name : string) : M S XMLNode :=
  match list_find (fun c => getName c = name) (node_children node) with
  | Some (_, c) => ret c
  | None => throw [MTxt "XMLNode: could not find "; MTxt name]
  end.

(** [node.attribute(name)]; a key without attribute is a failure. *)
Definition attribute {S} (node : XMLNode) (name : string) : M S string :=
  match list_find (fun kv => kv.1 = name) (node_attributes node) with
  | Some (_, kv) => ret kv.2
  | None => throw [MTxt "XMLNode: could not find "; MTxt name]
  end.

(** The conversions of text and the members of [Variable] that reading an
    expression calls; their code is not part of the sources at hand. *)
Class ParserSubstrate : Type := {
  (** [int(text)] and [double(text)] of a text content *)
  text_to_int : string -> Z;
  text_to_double : string -> float;
  (** [stream << ind] for an [int] *)
  int_to_text : Z -> string;
  (** the constant [SX(i)] of an [int] *)
  int_to_double : Z -> float;
  (** [v.der(true)]: the expression returned, and the variable afterwards *)
  Variable_der : OCPVariable -> SX * OCPVariable;
  (** [v.atTime(t, true)]: the expression returned, and the variable
      afterwards *)
  Variable_atTime : OCPVariable -> float -> SX * OCPVariable;
  (** C++ leaves the order in which the two operands of a call are
      evaluated to the compiler: whether, in the case of [readExpr] for
      the node of this name, the second operand is evaluated before the
      first *)
  second_operand_first : string -> bool
}.

(** The two operands of a call, evaluated in the order the compiler has
    chosen. *)
Definition operands {S A B} (second_first : bool) (first : M S A)
    (second : M S B) : M S (A * B) :=
  if second_first then b <- second ;; a <- first ;; ret (a, b)
  else a <- first ;; b <- second ;; ret (a, b).

(** [fullname.substr(pos)] *)
Fixpoint substr (pos : nat) (s : string) : string :=
  match pos, s with
  | 0, _ => s
  | S p, String _ s' => substr p s'
  | S _, EmptyString => EmptyString
  end.

(** [FlatOCPInternal::qualifiedName]: the body of the loop for part [i],
    and the loop. *)
Definition qualifiedName_part `{ParserSubstrate} {S} (i : nat) (part : XMLNode)
  : M S string :=
  (* add a dot *)
  let dot : string := if i =? 0 then "" else "." in
  (* get the name part *)
  namepart <- attribute part "name" ;;
  (* get the index, if any *)
  if 0 <? size part then
    subscripts <- child_named part "exp:ArraySubscripts" ;;
    index <- child_named subscripts "exp:IndexExpression" ;;
    literal <- child_named index "exp:IntegerLiteral" ;;
    let ind := text_to_int (getText literal) in
    ret (dot +:+ namepart +:+ "[" +:+ int_to_text ind +:+ "]")
  else ret (dot +:+ namepart).

Definition qualifiedName `{ParserSubstrate} {S} (nn : XMLNode) : M S string :=
  parts <- map_M (fun ip => qualifiedName_part ip.1 ip.2)
                 (zip (seq 0 (size nn)) (node_children nn)) ;;
  ret (fold_right String.append EmptyString parts).

(** [FlatOCPInternal::readVariable]: the reference returned is the entry of
    the registry under the qualified name, here the name with what the
    registry holds for it. *)
Definition readVariable `{ParserSubstrate} (node : XMLNode)
  : M FlatOCPInternal (string * OCPVariable) :=
  (* qualified name *)
  qn <- qualifiedName node ;;
  (* find and return the variable *)
  v <- variable qn ;;
  ret (qn, v).

(** A member function that changes the variable behind the reference
    [ref], and returns an expression. *)
Definition through_reference (ref : string * OCPVariable)
    (member : OCPVariable -> SX * OCPVariable) : M FlatOCPInternal SX :=
  let result := member ref.2 in
  modify (fun st => set_varmap_ (map_assign ref.1 result.2 (varmap_ st)) st) ;;;
  ret result.1.

(** The texts of the exceptions of [readExpr]. *)
Definition not_an_expression_text (fullname : string) : message :=
  [MTxt "FlatOCPInternal::readExpr: unknown - expression is supposed to start with 'exp:' , got ";
   MTxt fullname].

Definition unknown_node_text (name : string) : message :=
  [MTxt ("FlatOCPInternal::readExpr: unknown node: " +:+ name)].

(** The loop of the [NoEvent] case: [i] runs from [n-3] down to [0] in
    steps of two. *)
Fixpoint noevent_positions (rounds i : nat) : list nat :=
  match rounds with
  | 0 => []
  | S r => i :: (if i <? 2 then [] else noevent_positions r (i - 2))
  end.

Fixpoint noevent_loop (second_first : bool) (arg : nat -> M FlatOCPInternal SX)
    (positions : list nat) (ex : SX) : M FlatOCPInternal SX :=
  match positions with
  | [] => ret ex
  | i :: rest =>
      (* ex = if_else(readExpr(node[i]), readExpr(node[i+1]), ex) *)
      ce <- operands second_first (arg i) (arg (i + 1)) ;;
      noevent_loop second_first arg rest (SXIfElse ce.1 ce.2 ex)
  end.

(** [FlatOCPInternal::readExpr] *)
Fixpoint readExpr `{ParserSubstrate} (node : XMLNode) : M FlatOCPInternal SX :=
  match node with
  | XMLElement fullname attributes text children =>
      (* readExpr(node[i]) *)
      let arg (i : nat) : M FlatOCPInternal SX :=
        match map readExpr children !! i with
        | Some read => read
        | None => throw [MTxt "XMLNode: index out of bounds"]
        end in
      let unary (o : unop) : M FlatOCPInternal SX :=
        a <- arg 0 ;; ret (SXUn o a) in
      match String.index 0 "exp:" fullname with
      | None => throw (not_an_expression_text fullname)
      | Some _ =>
          (* chop the 'exp:' *)
          let name := substr 4 fullname in
          let binary (o : binop) : M FlatOCPInternal SX :=
            ab <- operands (second_operand_first name) (arg 0) (arg 1) ;;
            ret (SXBin o ab.1 ab.2) in
          if String.eqb name "Add" then binary OpAdd
          else if String.eqb name "Acos" then unary OpAcos
          else if String.eqb name "Asin" then unary OpAsin
          else if String.eqb name "Atan" then unary OpAtan
          else if String.eqb name "Cos" then unary OpCos
          else if String.eqb name "Der" then
            c <- child node 0 ;;
            ref <- readVariable c ;;
            through_reference ref Variable_der
          else if String.eqb name "Div" then binary OpDiv
          else if String.eqb name "Exp" then unary OpExp
          else if String.eqb name "Identifier" then
            ref <- readVariable node ;;
            ret (SXSym (v_var ref.2))
          else if String.eqb name "IntegerLiteral" then
            ret (SXConst (int_to_double (text_to_int text)))
          else if String.eqb name "Instant" then
            ret (SXConst (text_to_double text))
          else if String.eqb name "Log" then unary OpLog
          else if String.eqb name "LogLt" then binary OpLt
          else if String.eqb name "LogGt" then binary OpGt
          else if String.eqb name "Mul" then binary OpMul
          else if String.eqb name "Neg" then unary OpNeg
          else if String.eqb name "NoEvent" then
            let n := length children in
            (* default-expression *)
            ex <- match n with
                  | 0 => throw [MTxt "XMLNode: index out of bounds"]
                  | S m => arg m
                  end ;;
            (* evaluate ifs *)
            noevent_loop (second_operand_first name) arg
              (if n <? 3 then [] else noevent_positions n (n - 3)) ex
          else if String.eqb name "Pow" then binary OpPow
          else if String.eqb name "RealLiteral" then
            ret (SXConst (text_to_double text))
          else if String.eqb name "Sin" then unary OpSin
          else if String.eqb name "Sqrt" then unary OpSqrt
          else if String.eqb name "StringLiteral" then throw [MTxt text]
          else if String.eqb name "Sub" then binary OpSub
          else if String.eqb name "Tan" then unary OpTan
          else if String.eqb name "Time" then
            st <- get ;; ret (SXSym (t_ st))
          else if String.eqb name "TimedVariable" then
            ri <- operands (second_operand_first name)
                    (c <- child node 0 ;; readVariable c)
                    (child node 1) ;;
            through_reference ri.1
              (fun v => Variable_atTime v (text_to_double (getText ri.2)))
          else
            (* throw error if reached this point *)
            throw (unknown_node_text name)
      end
  end.

(** The names after [exp:] for which [readExpr] has a case that can
    return. *)
Definition expression_names : list string :=
  ["Add"; "Acos"; "Asin"; "Atan"; "Cos"; "Der"; "Div"; "Exp"; "Identifier";
   "IntegerLiteral"; "Instant"; "Log"; "LogLt"; "LogGt"; "Mul"; "Neg";
   "NoEvent"; "Pow"; "RealLiteral"; "Sin"; "Sqrt"; "Sub"; "Tan"; "Time";
   "TimedVariable"]%string.

(** No character of the string is a colon. *)
Definition colon : Ascii.ascii := Eval cbv in Ascii.ascii_of_nat 58.

Fixpoint colon_free (s : string) : bool :=
  match s with
  | EmptyString => true
  | String c s' => negb (Ascii.eqb c colon) && colon_free s'
  end.

(** A reading of decimal digits, a printing of small numbers and members of
    [Variable] that name the derivative after the variable, for the
    examples. *)
Fixpoint digits_value (acc : Z) (s : string) : Z :=
  match s with
  | EmptyString => acc
  | String c s' =>
      digits_value (10 * acc + (Z.of_nat (Ascii.nat_of_ascii c) - 48)) s'
  end.

Definition example_der (v : OCPVariable) : SX * OCPVariable :=
  match v_der v with
  | Some d => (SXSym d, v)
  | None =>
      let d := ("der(" +:+ v_name v +:+ ")")%string in
      (SXSym d,
       {| v_name := v_name v; v_var := v_var v; v_der := Some d;
          v_variability := v_variability v; v_causality := v_causality v;
          v_alias := v_alias v; v_nominal := v_nominal v;
          v_start := v_start v; v_min := v_min v; v_max := v_max v;
          v_free := v_free v |})
  end.

Definition example_parser : ParserSubstrate :=
  {| text_to_int := digits_value 0;
     text_to_double := fun s => PrimFloat.of_uint63 (Uint63.of_Z (digits_value 0 s));
     int_to_text := fun z => String (Ascii.ascii_of_nat (48 + Z.to_nat z)) EmptyString;
     int_to_double := fun z => PrimFloat.of_uint63 (Uint63.of_Z z);
     Variable_der := example_der;
     Variable_atTime := fun v _ => (SXSym (v_name v +:+ "@")%string, v);
     second_operand_first := fun _ => true |}.

(** An expression of the model description: [noEvent(x < 2 ? der(x) : time)]. *)
Definition example_identifier : XMLNode :=
  XMLElement "exp:Identifier" [] ""
    [XMLElement "exp:QualifiedNamePart" [("name", "x")]%string "" []].

Definition example_switch : XMLNode :=
  XMLElement "exp:NoEvent" [] ""
    [XMLElement "exp:LogLt" [] ""
       [example_identifier; XMLElement "exp:IntegerLiteral" [] "2" []];
     XMLElement "exp:Der" [] "" [example_identifier];
     XMLElement "exp:Time" [] "" []].

(** Nothing but the registry has changed. *)
Definition registry_only (st st' : FlatOCPInternal) : Prop :=
  st' = set_varmap_ (varmap_ st') st.

(** [if c1 then e1 else if c2 then e2 else ... else d] *)
Fixpoint nested_if (branches : list (SX * SX)) (d : SX) : SX :=
  match branches with
  | [] => d
  | (c, e) :: rest => SXIfElse c e (nested_if rest d)
  end.

(** The conditions and values of the branches in a row. *)
Definition in_a_row (branches : list (SX * SX)) : list SX :=
  concat (map (fun b => [b.1; b.2]) branches).

(* ================================================================== *)
(** * Adding the objective and the constraints *)
(* ================================================================== *)

Definition set_path_min_ (a : list float) (st : FlatOCPInternal) : FlatOCPInternal :=
  {| varmap_ := varmap_ st; t_ := t_ st; x_ := x_ st; xd_ := xd_ st;
     xa_ := xa_ st; q_ := q_ st; y_ := y_ st; p_ := p_ st; u_ := u_ st;
     dae_ := dae_ st; ode_ := ode_ st; alg_ := alg_ st; quad_ := quad_ st;
     initial_ := initial_ st; dep_ := dep_ st; path_ := path_ st;
     mterm_ := mterm_ st; lterm_ := lterm_ st; path_min_ := a;
     path_max_ := path_max_ st; scaled_variables_ := scaled_variables_ st;
     scaled_equations_ := scaled_equations_ st; temp_ := temp_ st;
     cout_ := cout_ st |}.

Definition set_path_max_ (a : list float) (st : FlatOCPInternal) : FlatOCPInternal :=
  {| varmap_ := varmap_ st; t_ := t_ st; x_ := x_ st; xd_ := xd_ st;
     xa_ := xa_ st; q_ := q_ st; y_ := y_ st; p_ := p_ st; u_ := u_ st;
     dae_ := dae_ st; ode_ := ode_ st; alg_ := alg_ st; quad_ := quad_ st;
     initial_ := initial_ st; dep_ := dep_ st; path_ := path_ st;
     mterm_ := mterm_ st; lterm_ := lterm_ st; path_min_ := path_min_ st;
     path_max_ := a; scaled_variables_ := scaled_variables_ st;
     scaled_equations_ := scaled_equations_ st; temp_ := temp_ st;
     cout_ := cout_ st |}.

(** [FlatOCPInternal::addObjectiveFunction] *)
Definition addObjectiveFunction `{ParserSubstrate} (onode : XMLNode)
  : M FlatOCPInternal unit :=
  (* add components *)
  for_each (fun i =>
      var <- child onode i ;;
      v <- readExpr var ;;
      modify (fun st => set_mterm_ (mterm_ st ++ [v]) st))
    (seq 0 (size onode)).

(** [FlatOCPInternal::addIntegrandObjectiveFunction] *)
Definition addIntegrandObjectiveFunction `{ParserSubstrate} (onode : XMLNode)
  : M FlatOCPInternal unit :=
  for_each (fun i =>
      var <- child onode i ;;
      v <- readExpr var ;;
      modify (fun st => set_lterm_ (lterm_ st ++ [v]) st))
    (seq 0 (size onode)).

(** [FlatOCPInternal::addConstraints].  A constraint of an unknown type is
    reported on the error stream, which is not recorded, and a C string is
    thrown, which is the text of the failure here. *)
Definition addConstraints `{ParserSubstrate} (onode : XMLNode)
  : M FlatOCPInternal unit :=
  for_each (fun i =>
      constr_i <- child onode i ;;
      if checkName constr_i "opt:ConstraintLeq" then
        (c0 <- child constr_i 0 ;;
         ex <- readExpr c0 ;;
         c1 <- child constr_i 1 ;;
         ub <- readExpr c1 ;;
         modify (fun st => set_path_ (path_ st ++ [SXBin OpSub ex ub]) st) ;;;
         modify (fun st => set_path_min_ (path_min_ st ++ [neg_infinity]) st) ;;;
         modify (fun st => set_path_max_ (path_max_ st ++ [0%float]) st))
      else if checkName constr_i "opt:ConstraintGeq" then
        (c0 <- child constr_i 0 ;;
         ex <- readExpr c0 ;;
         c1 <- child constr_i 1 ;;
         lb <- readExpr c1 ;;
         modify (fun st => set_path_ (path_ st ++ [SXBin OpSub ex lb]) st) ;;;
         modify (fun st => set_path_min_ (path_min_ st ++ [0%float]) st) ;;;
         modify (fun st => set_path_max_ (path_max_ st ++ [infinity]) st))
      else if checkName constr_i "opt:ConstraintEq" then
        (c0 <- child constr_i 0 ;;
         ex <- readExpr c0 ;;
         c1 <- child constr_i 1 ;;
         eq <- readExpr c1 ;;
         modify (fun st => set_path_ (path_ st ++ [SXBin OpSub ex eq]) st) ;;;
         modify (fun st => set_path_min_ (path_min_ st ++ [0%float]) st) ;;;
         modify (fun st => set_path_max_ (path_max_ st ++ [0%float]) st))
      else
        throw [MTxt "FlatOCPInternal::addConstraints"])
    (seq 0 (size onode)).

(** The registry and the time symbol of two objects are the same. *)
Definition same_view (st1 st2 : FlatOCPInternal) : Prop :=
  varmap_ st1 = varmap_ st2 /\ t_ st1 = t_ st2.

(** A computation whose outcome and whose registry afterwards are decided
    by the registry and the time symbol alone. *)
Definition reads_registry {A} (c : M FlatOCPInternal A) : Prop :=
  forall st1 st2, same_view st1 st2 ->
    fst (c st1) = fst (c st2) /\ same_view (snd (c st1)) (snd (c st2)).

(** The bounds of a path constraint of each type. *)
Definition constraint_bounds (name : string) : option (float * float) :=
  if String.eqb name "opt:ConstraintLeq" then Some (neg_infinity, 0%float)
  else if String.eqb name "opt:ConstraintGeq" then Some (0%float, infinity)
  else if String.eqb name "opt:ConstraintEq" then Some (0%float, 0%float)
  else None.

(** Rows of path constraints, each an expression with its lower and its
    upper bound, added at the end. *)
Definition add_rows (rows : list (SX * float * float)) (st : FlatOCPInternal)
  : FlatOCPInternal :=
  set_path_max_ (path_max_ st ++ map (fun row => row.2) rows)
    (set_path_min_ (path_min_ st ++ map (fun row => row.1.2) rows)
       (set_path_ (path_ st ++ map (fun row => row.1.1) rows) st)).

(** The row is a difference, with the bounds of the type of the
    constraint [c]. *)
Definition row_of (c : XMLNode) (row : SX * float * float) : Prop :=
  (exists ex b, row.1.1 = SXBin OpSub ex b) /\
  constraint_bounds (getName c) = Some (row.1.2, row.2).

(** An optimization problem of the model description: two terms of the
    objective, and the constraints [x <= 2], [der(x) >= time], [x = 2]. *)
Definition example_two : XMLNode := XMLElement "exp:IntegerLiteral" [] "2" [].

Definition example_objective : XMLNode :=
  XMLElement "opt:ObjectiveFunction" [] ""
    [XMLElement "exp:Der" [] "" [example_identifier]; example_switch].

Definition example_constraints : XMLNode :=
  XMLElement "opt:Constraints" [] ""
    [XMLElement "opt:ConstraintLeq" [] "" [example_identifier; example_two];
     XMLElement "opt:ConstraintGeq" [] ""
       [XMLElement "exp:Der" [] "" [example_identifier];
        XMLElement "exp:Time" [] "" []];
     XMLElement "opt:ConstraintEq" [] "" [example_identifier; example_two]].


(* ================================================================== *)
(** * Properties of substitution *)
(* ================================================================== *)


Lemma replacement_combine_none (v : list symbol) (vdef : list SX) s :
  length v <= length vdef ->
  replacement (combine v vdef) s = None -> s ∉ v.
Proof.
  revert vdef. induction v as [|s0 v IH]; intros vdef Hlen Hnone.
  - apply not_elem_of_nil.
  - destruct vdef as [|r0 vdef]; simpl in *; [lia|].
    destruct (String.eqb_spec s0 s) as [->|Hne]; [discriminate|].
    apply not_elem_of_cons. split; [congruence|].
    apply (IH vdef); [lia|done].
Qed.



Lemma length_substitute ex v vdef : length (substitute ex v vdef) = length ex.
Proof. unfold substitute. apply length_map. Qed.

Lemma fold_un_dependsOn o a s :
  dependsOn (fold_un o a) s = dependsOn (SXUn o a) s.
Proof. destruct o, a; reflexivity. Qed.

Lemma fold_bin_dependsOn o a b s :
  dependsOn (fold_bin o a b) s = dependsOn (SXBin o a b) s.
Proof. destruct o, a, b; simpl; try reflexivity. Qed.

(** Constant folding neither adds nor removes a symbol. *)
Lemma fold_constants_dependsOn e s :
  dependsOn (fold_constants e) s = dependsOn e s.
Proof.
  induction e as [c|s'|o a IHa|o a IHa b IHb|c IHc a IHa b IHb]; simpl;
    try reflexivity.
  - by rewrite fold_un_dependsOn.
  - by rewrite fold_bin_dependsOn; simpl; rewrite IHa, IHb.
  - by rewrite IHc, IHa, IHb.
Qed.

Lemma dependsOnAny_false e v :
  dependsOnAny e v = false <-> forall s, s ∈ v -> dependsOn e s = false.
Proof.
  unfold dependsOnAny. split.
  - intros H s Hs. apply not_true_is_false. intros Hd.
    assert (existsb (dependsOn e) v = true) as Hex; [|congruence].
    apply existsb_exists. exists s. split; [by apply list_elem_of_In|done].
  - intros H. apply not_true_is_false. intros Hex.
    apply existsb_exists in Hex as (s & Hin & Hd).
    apply list_elem_of_In in Hin. rewrite (H s Hin) in Hd. discriminate.
Qed.

Lemma resolve_definitions_free rounds v vdef r :
  resolve_definitions rounds v vdef = Some r ->
  length r = length vdef /\
  forall e s, e ∈ r -> s ∈ v -> dependsOn e s = false.
Proof.
  revert vdef. induction rounds as [|n IH]; intros vdef; simpl;
    destruct (forallb _ vdef) eqn:Hall; try discriminate.
  1,2: intros [= <-]; split; [done|]; intros e s He Hs;
       rewrite forallb_forall in Hall;
       apply list_elem_of_In, Hall, negb_true_iff in He;
       by eapply dependsOnAny_false in He.
  intros Hr. apply IH in Hr as [Hlen Hfree].
  rewrite length_substitute in Hlen. done.
Qed.

(** What the specification promises of [substituteInPlace]: on success the
    definitions are free of the defined symbols. *)
Lemma substituteInPlace_free v vdef b r :
  substituteInPlace v vdef b = Ok r ->
  length r = length vdef /\
  forall e s, e ∈ r -> s ∈ v -> dependsOn e s = false.
Proof.
  unfold substituteInPlace.
  destruct (resolve_definitions (length v) v vdef) as [r0|] eqn:Hr; [|discriminate].
  intros [= <-]. apply resolve_definitions_free in Hr as [Hlen Hfree].
  destruct b; [|done]. split; [by rewrite length_map|].
  intros e s He Hs. apply list_elem_of_fmap in He as (e0 & -> & He0).
  rewrite fold_constants_dependsOn. by apply Hfree.
Qed.

Lemma replacement_combine_lookup (v : list symbol) (vdef : list SX) s r :
  replacement (combine v vdef) s = Some r ->
  exists j, v !! j = Some s /\ vdef !! j = Some r.
Proof.
  revert vdef. induction v as [|s0 v IH]; intros [|r0 vdef]; simpl; try discriminate.
  destruct (String.eqb_spec s0 s) as [->|Hne].
  - intros [= ->]. by exists 0.
  - intros Hr. destruct (IH _ Hr) as (j & Hv & Hd). by exists (S j).
Qed.

(** Where a symbol of a substituted expression comes from: it was there and
    is not replaced, or it is in the replacement of a symbol that was
    there. *)
Lemma subst_expr_dependsOn sigma e s :
  dependsOn (subst_expr sigma e) s = true ->
  (dependsOn e s = true /\ replacement sigma s = None) \/
  (exists s' r, dependsOn e s' = true /\ replacement sigma s' = Some r /\
                dependsOn r s = true).
Proof.
  induction e as [c|s'|o a IHa|o a IHa b IHb|c IHc a IHa b IHb]; simpl.
  - discriminate.
  - destruct (replacement sigma s') as [r|] eqn:Hr.
    + intros Hd. right. exists s', r. by rewrite String.eqb_refl.
    + simpl. intros Hd. left. split; [done|].
      apply String.eqb_eq in Hd as <-. done.
  - exact IHa.
  - intros Hd. apply orb_true_iff in Hd as [Hd|Hd].
    + destruct (IHa Hd) as [[H1 H2]|(s' & r & H1 & H2 & H3)].
      * left. by rewrite H1.
      * right. exists s', r. by rewrite H1.
    + destruct (IHb Hd) as [[H1 H2]|(s' & r & H1 & H2 & H3)].
      * left. rewrite H1. by rewrite orb_true_r.
      * right. exists s', r. rewrite H1. by rewrite orb_true_r.
  - intros Hd. apply orb_true_iff in Hd as [Hd|Hd];
      [apply orb_true_iff in Hd as [Hd|Hd]|].
    + destruct (IHc Hd) as [[H1 H2]|(s' & r & H1 & H2 & H3)].
      * left. by rewrite H1.
      * right. exists s', r. by rewrite H1.
    + destruct (IHa Hd) as [[H1 H2]|(s' & r & H1 & H2 & H3)].
      * left. rewrite H1. by rewrite orb_true_r.
      * right. exists s', r. rewrite H1. by rewrite orb_true_r.
    + destruct (IHb Hd) as [[H1 H2]|(s' & r & H1 & H2 & H3)].
      * left. rewrite H1. by rewrite orb_true_r.
      * right. exists s', r. rewrite H1. by rewrite orb_true_r.
Qed.

Lemma substitute_ordered k v vdef :
  ordered_definitions v vdef -> resolved_up_to k v vdef ->
  ordered_definitions v (substitute vdef v vdef) /\
  resolved_up_to (S k) v (substitute vdef v vdef).
Proof.
  intros [Hlen Hord] Hres. split; [split|].
  - by rewrite length_substitute.
  - intros i e' j s He' Hs Hd. unfold substitute in He'.
    rewrite list_lookup_fmap in He'.
    destruct (vdef !! i) as [e|] eqn:He; [|discriminate].
    injection He' as <-.
    apply subst_expr_dependsOn in Hd as [[Hd _]|(s' & r & Hd & Hr & Hrs)].
    + by eapply Hord.
    + apply replacement_combine_lookup in Hr as (j' & Hv' & Hr).
      assert (j' < i) by by eapply Hord.
      assert (j < j') by by eapply Hord.
      lia.
  - intros i e' s Hi He' Hs. unfold substitute in He'.
    rewrite list_lookup_fmap in He'.
    destruct (vdef !! i) as [e|] eqn:He; [|discriminate].
    injection He' as <-.
    apply not_true_is_false. intros Hd.
    apply subst_expr_dependsOn in Hd as [[Hd Hnone]|(s' & r & Hd & Hr & Hrs)].
    + apply replacement_combine_none in Hnone; [done|lia].
    + apply replacement_combine_lookup in Hr as (j' & Hv' & Hr).
      assert (j' < i) by by eapply Hord.
      rewrite (Hres j' r s) in Hrs; [discriminate|lia|done|done].
Qed.

Lemma resolve_definitions_rounds rounds k v vdef :
  ordered_definitions v vdef -> resolved_up_to k v vdef ->
  length v <= k + rounds ->
  exists r, resolve_definitions rounds v vdef = Some r.
Proof.
  revert k vdef. induction rounds as [|n IH]; intros k vdef Hord Hres Hk; simpl;
    destruct (forallb _ vdef) eqn:Hall; eauto.
  - exfalso. apply not_true_iff_false in Hall. apply Hall.
    apply forallb_forall. intros e He. apply negb_true_iff, dependsOnAny_false.
    intros s Hs. apply list_elem_of_In, list_elem_of_lookup in He as [i He].
    apply (Hres i e s); [|done|done].
    apply lookup_lt_Some in He. destruct Hord as [Hlen _]. lia.
  - destruct (substitute_ordered k v vdef Hord Hres) as [Hord' Hres'].
    apply (IH (S k)); [done|done|lia].
Qed.

(** Definitions that are ordered, each one mentioning only symbols defined
    before it, are resolved: [substituteInPlace] returns. *)
Lemma substituteInPlace_ordered v vdef b :
  ordered_definitions v vdef -> exists r, substituteInPlace v vdef b = Ok r.
Proof.
  intros Hord. unfold substituteInPlace.
  destruct (resolve_definitions_rounds (length v) 0 v vdef Hord) as [r ->];
    [|lia|eauto].
  intros i e s Hi. lia.
Qed.

(* ================================================================== *)
(** * Elimination of dependent variables *)
(* ================================================================== *)






(* ================================================================== *)
(** * Running computations *)
(* ================================================================== *)

Lemma bind_ok {S A B} (c : M S A) (k : A -> M S B) s a s1 :
  c s = (Ok a, s1) -> bind c k s = k a s1.
Proof. intros H. unfold bind. by rewrite H. Qed.

Lemma bind_throw {S A B} (c : M S A) (k : A -> M S B) s m s1 :
  c s = (Throw m, s1) -> bind c k s = (Throw m, s1).
Proof. intros H. unfold bind. by rewrite H. Qed.

Lemma bind_inv_ok {S A B} (c : M S A) (k : A -> M S B) s b s2 :
  bind c k s = (Ok b, s2) ->
  exists a s1, c s = (Ok a, s1) /\ k a s1 = (Ok b, s2).
Proof.
  unfold bind. destruct (c s) as [[a|m] s1]; [eauto|discriminate].
Qed.

Lemma vec_at_Some {S A} (l : list A) i a (s : S) :
  l !! i = Some a -> vec_at l i s = (Ok a, s).
Proof. intros H. unfold vec_at. by rewrite H. Qed.

(* ================================================================== *)
(** * Scaling of the variables *)
(* ================================================================== *)

(** C10.  [scaleVariables] substitutes the nominal-scaled variables into the
    sets dae, initial, path, Mayer terms and Lagrange terms only, and then
    sets the scaled-variables flag; the sets ode, alg, quad and dep are left
    as they were.  (On an object whose variables are already scaled it
    throws and changes nothing.) *)
Theorem scaleVariables_frame (st : FlatOCPInternal) :
  (scaled_variables_ st = false ->
   exists st1,
     scaleVariables st = (Ok tt, st1) /\
     let v := [t_ st] ++ var (x_ st) ++ der (x_ st) ++ var (xd_ st)
              ++ var (xa_ st) ++ var (p_ st) ++ var (u_ st) in
     let v_old := times [t_ st] [1%float]
                  ++ times (var (x_ st)) (getNominal (x_ st))
                  ++ times (der (x_ st)) (getNominal (x_ st))
                  ++ times (var (xd_ st)) (getNominal (xd_ st))
                  ++ times (var (xa_ st)) (getNominal (xa_ st))
                  ++ times (var (p_ st)) (getNominal (p_ st))
                  ++ times (var (u_ st)) (getNominal (u_ st)) in
     dae_ st1 = substitute (dae_ st) v v_old /\
     initial_ st1 = substitute (initial_ st) v v_old /\
     path_ st1 = substitute (path_ st) v v_old /\
     mterm_ st1 = substitute (mterm_ st) v v_old /\
     lterm_ st1 = substitute (lterm_ st) v v_old /\
     scaled_variables_ st1 = true /\
     ode_ st1 = ode_ st /\ alg_ st1 = alg_ st /\
     quad_ st1 = quad_ st /\ dep_ st1 = dep_ st) /\
  (scaled_variables_ st = true ->
   exists m, scaleVariables st = (Throw m, st)).
Proof.
  split; intros Hflag.
  - exists (snd (scaleVariables st)).
    unfold scaleVariables, bind, get, casadi_assert, casadi_assert_message.
    simpl. rewrite Hflag. simpl. done.
  - eexists. unfold scaleVariables, bind, get, casadi_assert, casadi_assert_message.
    simpl. rewrite Hflag. reflexivity.
Qed.

Lemma scaleVariables_frame_witness :
  exists st1,
    scaleVariables scenario_ocp = (Ok tt, st1) /\
    scaled_variables_ st1 = true /\
    path_ st1 =
      [SXBin OpSub (SXSym "y")
         (SXBin OpMul (SXSym "x2") (SXConst 1))] /\
    dep_ st1 = dep_ scenario_ocp.
Proof.
  destruct (proj1 (scaleVariables_frame scenario_ocp))
    as (st1 & Hrun & _ & _ & Hpath & _ & _ & Hflag & _ & _ & _ & Hdep).
  - reflexivity.
  - exists st1. split; [exact Hrun|]. split; [exact Hflag|].
    split; [|exact Hdep]. rewrite Hpath. reflexivity.
Defined.

(* ================================================================== *)
(** * Guards of the scaling of the equations *)
(* ================================================================== *)

Lemma scaleEquations_unfold `{Substrate} (st : FlatOCPInternal) :
  scaleEquations st =
    if scaled_equations_ st then (Throw [MTxt "!scaled_equations_"], st)
    else if negb (scaled_variables_ st) then (Throw [MTxt "scaled_variables_"], st)
    else match dae_ st with
         | [] => (Ok tt, st)
         | _ :: _ =>
             (scale <- map_M (scale_factor (nominal_jacobian st))
                             (seq 0 (size1 (nominal_jacobian st))) ;;
              for_each (divide_equation scale) (seq 0 (length (dae_ st))) ;;;
              modify (set_scaled_equations_ true)) st
         end.
Proof.
  unfold scaleEquations at 1, nominal_jacobian.
  unfold bind at 1, get, casadi_assert, casadi_assert_message.
  destruct (scaled_equations_ st); simpl; [reflexivity|].
  unfold bind at 1. destruct (scaled_variables_ st); simpl; [|reflexivity].
  unfold bind at 1. simpl. destruct (dae_ st); reflexivity.
Qed.

Lemma scaleEquations_sets_flag `{Substrate} (st st1 : FlatOCPInternal) :
  scaleEquations st = (Ok tt, st1) -> dae_ st <> [] ->
  scaled_equations_ st1 = true.
Proof.
  rewrite scaleEquations_unfold.
  destruct (scaled_equations_ st); [discriminate|].
  destruct (negb (scaled_variables_ st)); [discriminate|].
  destruct (dae_ st) as [|e l] eqn:Hdae; [done|]. intros Hrun _.
  apply bind_inv_ok in Hrun as (scale & s1 & _ & Hrun).
  apply bind_inv_ok in Hrun as ([] & s2 & _ & Hrun).
  unfold modify in Hrun. by injection Hrun as <-.
Qed.

(** C7.  [scaleEquations] throws when the variables have not been scaled,
    throws when the equations have already been scaled (so a call that did
    scale makes every later call throw, and no call ever scales again), and
    returns at once without any change when there are no implicit
    equations. *)
Theorem scaleEquations_guards `{Substrate} (st : FlatOCPInternal) :
  (scaled_variables_ st = false ->
     exists m, scaleEquations st = (Throw m, st)) /\
  (scaled_equations_ st = true ->
     exists m, scaleEquations st = (Throw m, st)) /\
  (scaled_equations_ st = false -> scaled_variables_ st = true ->
   dae_ st = [] ->
     scaleEquations st = (Ok tt, st)) /\
  (forall st1, scaleEquations st = (Ok tt, st1) -> dae_ st <> [] ->
     exists m, scaleEquations st1 = (Throw m, st1)) /\
  (forall st1 st2,
     scaleEquations st = (Ok tt, st1) -> scaleEquations st1 = (Ok tt, st2) ->
     dae_ st = [] /\ st1 = st /\ st2 = st).
Proof.
  assert (Hthrow : forall s, scaled_equations_ s = true ->
                     exists m, scaleEquations s = (Throw m, s)).
  { intros s Hs. eexists. rewrite scaleEquations_unfold, Hs. reflexivity. }
  assert (Hempty : forall s s1, dae_ s = [] ->
                     scaleEquations s = (Ok tt, s1) -> s1 = s).
  { intros s s1 Hd. rewrite scaleEquations_unfold, Hd.
    destruct (scaled_equations_ s); [discriminate|].
    destruct (negb (scaled_variables_ s)); [discriminate|]. congruence. }
  repeat split.
  - intros Hv. rewrite scaleEquations_unfold, Hv.
    destruct (scaled_equations_ st); eexists; reflexivity.
  - apply Hthrow.
  - intros He Hv Hd. rewrite scaleEquations_unfold, He, Hv, Hd. reflexivity.
  - intros st1 Hrun Hd. apply Hthrow. by eapply scaleEquations_sets_flag.
  - destruct (dae_ st) as [|e l] eqn:Hd; [done|].
    assert (scaled_equations_ st1 = true) as Hf.
    { eapply scaleEquations_sets_flag; [done|]. by rewrite Hd. }
    apply Hthrow in Hf as [m Hm]. congruence.
  - destruct (dae_ st) as [|e l] eqn:Hd; [by eapply Hempty|].
    assert (scaled_equations_ st1 = true) as Hf.
    { eapply scaleEquations_sets_flag; [done|]. by rewrite Hd. }
    apply Hthrow in Hf as [m Hm]. congruence.
  - destruct (dae_ st) as [|e l] eqn:Hd.
    + assert (st1 = st) as -> by by eapply Hempty. by eapply Hempty.
    + assert (scaled_equations_ st1 = true) as Hf.
      { eapply scaleEquations_sets_flag; [done|]. by rewrite Hd. }
      apply Hthrow in Hf as [m Hm]. congruence.
Qed.

Lemma scaleEquations_guards_witness :
  exists st1 m,
    @scaleEquations example_substrate example_ocp = (Ok tt, st1) /\
    @scaleEquations example_substrate st1 = (Throw m, st1).
Proof.
  exists (snd (@scaleEquations example_substrate example_ocp)).
  destruct (@scaleEquations_guards example_substrate example_ocp)
    as (_ & _ & _ & Hsecond & _).
  destruct (Hsecond (snd (@scaleEquations example_substrate example_ocp)))
    as [m Hm].
  - vm_compute. reflexivity.
  - discriminate.
  - exists m. split; [vm_compute; reflexivity|exact Hm].
Defined.

(* ================================================================== *)
(** * The order of binary64 numbers *)
(* ================================================================== *)

Section float_order.
Local Open Scope float_scope.

Ltac cmp_cases :=
  repeat match goal with
  | |- context [Pos.compare_cont Eq ?a ?b] =>
      change (Pos.compare_cont Eq a b) with (Pos.compare a b)
  | H : context [Pos.compare_cont Eq ?a ?b] |- _ =>
      change (Pos.compare_cont Eq a b) with (Pos.compare a b) in H
  end;
  repeat match goal with
  | |- context [Z.compare ?a ?b] => destruct (Z.compare_spec a b); simpl in *
  | H : context [Z.compare ?a ?b] |- _ => destruct (Z.compare_spec a b); simpl in *
  | |- context [Pos.compare ?a ?b] => destruct (Pos.compare_spec a b); simpl in *
  | H : context [Pos.compare ?a ?b] |- _ => destruct (Pos.compare_spec a b); simpl in *
  end;
  try discriminate; try reflexivity; try lia.

Ltac by_signs :=
  repeat match goal with s : bool |- _ => destruct s end; simpl;
  try discriminate; try reflexivity; try congruence.

Lemma SFleb_trans x y z :
  SFleb x y = true -> SFleb y z = true -> SFleb x z = true.
Proof.
  unfold SFleb.
  destruct x as [sx|sx| |sx mx ex], y as [sy|sy| |sy my ey],
           z as [sz|sz| |sz mz ez];
    simpl; try discriminate; try reflexivity; by_signs;
    intros H1 H2; cmp_cases.
Qed.

Lemma SFleb_total x y :
  x <> S754_nan -> y <> S754_nan -> SFltb x y = false -> SFleb y x = true.
Proof.
  unfold SFleb, SFltb.
  destruct x as [sx|sx| |sx mx ex], y as [sy|sy| |sy my ey];
    simpl; try congruence; by_signs; intros _ _ H1; cmp_cases.
Qed.

Lemma SFleb_refl x : x <> S754_nan -> SFleb x x = true.
Proof.
  unfold SFleb. destruct x as [sx|sx| |sx mx ex]; simpl; try congruence;
    by_signs; intros _; cmp_cases.
Qed.

Lemma is_nan_false x : PrimFloat.is_nan x = false <-> Prim2SF x <> S754_nan.
Proof.
  unfold PrimFloat.is_nan. rewrite FloatAxioms.eqb_spec. unfold SFeqb.
  destruct (Prim2SF x) as [sx|sx| |sx mx ex] eqn:E; simpl.
  - destruct sx; simpl; split; congruence.
  - destruct sx; simpl; split; congruence.
  - split; [discriminate|congruence].
  - rewrite Z.compare_refl.
    change (Pos.compare_cont Eq mx mx) with (Pos.compare mx mx).
    rewrite Pos.compare_refl. destruct sx; simpl; split; congruence.
Qed.

Lemma abs_is_nan x : PrimFloat.is_nan (abs x) = PrimFloat.is_nan x.
Proof.
  destruct (PrimFloat.is_nan x) eqn:Hx.
  - apply not_false_iff_true. intros Ha. apply not_false_iff_true in Hx.
    apply Hx. apply is_nan_false. apply is_nan_false in Ha.
    rewrite abs_spec in Ha. by destruct (Prim2SF x).
  - apply is_nan_false. apply is_nan_false in Hx. rewrite abs_spec.
    by destruct (Prim2SF x).
Qed.

Lemma leb_trans x y z : (x <=? y) = true -> (y <=? z) = true -> (x <=? z) = true.
Proof. rewrite !leb_spec. apply SFleb_trans. Qed.

Lemma ltb_leb x y : (x <? y) = true -> (x <=? y) = true.
Proof.
  rewrite ltb_spec, leb_spec. unfold SFltb, SFleb.
  by destruct (SFcompare (Prim2SF x) (Prim2SF y)) as [[]|].
Qed.

Lemma leb_total x y :
  PrimFloat.is_nan x = false -> PrimFloat.is_nan y = false ->
  (x <? y) = false -> (y <=? x) = true.
Proof.
  rewrite !is_nan_false, ltb_spec, leb_spec. apply SFleb_total.
Qed.

Lemma leb_refl x : PrimFloat.is_nan x = false -> (x <=? x) = true.
Proof. rewrite is_nan_false, leb_spec. apply SFleb_refl. Qed.

(** An absolute value below a zero is a zero. *)
Lemma abs_leb_zero x s :
  (abs x <=? s) = true -> (s =? 0) = true -> (abs x =? 0) = true.
Proof.
  rewrite leb_spec, !FloatAxioms.eqb_spec, abs_spec.
  change (Prim2SF 0) with (S754_zero false).
  unfold SFleb, SFeqb.
  destruct (Prim2SF x) as [sx|sx| |sx mx ex], (Prim2SF s) as [ss|ss| |ss ms es];
    simpl; try discriminate; try reflexivity; by_signs.
Qed.
End float_order.

(* ================================================================== *)
(** * The scale factor of a row *)
(* ================================================================== *)

Section row_max.
Local Open Scope float_scope.

Lemma row_max_snoc row e : row_max (row ++ [e]) = row_step (row_max row) e.
Proof. unfold row_max. by rewrite fold_left_app. Qed.

(** The invariant of the loop over the entries of a row. *)
Lemma row_max_invariant row :
  (row_max row = 0 \/
   exists x, x ∈ row /\ PrimFloat.is_nan x = false /\ row_max row = abs x) /\
  PrimFloat.is_nan (row_max row) = false /\
  (forall x, x ∈ row -> PrimFloat.is_nan x = false ->
             (abs x <=? row_max row) = true).
Proof.
  induction row as [|e row (Hatt & Hnan & Hub)] using rev_ind.
  - split; [by left|]. split; [reflexivity|].
    intros x Hx. by apply elem_of_nil in Hx.
  - rewrite row_max_snoc. unfold row_step.
    destruct (PrimFloat.is_nan e) eqn:He.
    + split; [|split; [done|]].
      * destruct Hatt as [Hz|(x & Hx & Hxn & Hxs)]; [by left|right].
        exists x. split; [|done]. apply elem_of_app. by left.
      * intros x Hx Hxn. apply elem_of_app in Hx as [Hx|Hx]; [by apply Hub|].
        apply list_elem_of_singleton in Hx as ->. congruence.
    + assert (PrimFloat.is_nan (abs e) = false) as Hae
        by by rewrite abs_is_nan.
      unfold fmax. destruct (row_max row <? abs e) eqn:Hlt.
      * split; [|split; [done|]].
        -- right. exists e. split; [|done]. apply elem_of_app. right. left.
        -- intros x Hx Hxn. apply elem_of_app in Hx as [Hx|Hx].
           ++ eapply leb_trans; [by apply Hub|by apply ltb_leb].
           ++ apply list_elem_of_singleton in Hx as ->. by apply leb_refl.
      * split; [|split; [done|]].
        -- destruct Hatt as [Hz|(x & Hx & Hxn & Hxs)]; [by left|right].
           exists x. split; [|done]. apply elem_of_app. by left.
        -- intros x Hx Hxn. apply elem_of_app in Hx as [Hx|Hx]; [by apply Hub|].
           apply list_elem_of_singleton in Hx as ->. by apply leb_total.
Qed.

Lemma has_scale_true row :
  has_scale row = true <->
  exists x, x ∈ row /\ PrimFloat.is_nan x = false /\ (abs x =? 0) = false.
Proof.
  unfold has_scale. rewrite existsb_exists. split.
  - intros (x & Hx & Hb). apply andb_true_iff in Hb as [H1 H2].
    exists x. rewrite list_elem_of_In.
    by apply negb_true_iff in H1; apply negb_true_iff in H2.
  - intros (x & Hx & H1 & H2). exists x. rewrite <- list_elem_of_In.
    split; [done|]. by rewrite H1, H2.
Qed.

(** The number the loop leaves in [scale[i]] before the test against zero
    is zero exactly when the row has no entry to scale by. *)
Lemma row_max_zero row : (row_max row =? 0) = negb (has_scale row).
Proof.
  destruct (row_max_invariant row) as (Hatt & Hnan & Hub).
  destruct (has_scale row) eqn:Hs; simpl.
  - apply has_scale_true in Hs as (x & Hx & Hxn & Hx0).
    apply not_true_is_false. intros Hz.
    pose proof (abs_leb_zero x _ (Hub x Hx Hxn) Hz). congruence.
  - destruct Hatt as [->|(x & Hx & Hxn & ->)]; [reflexivity|].
    apply not_false_iff_true. intros Hx0.
    assert (has_scale row = true) as Hs'; [|congruence].
    apply has_scale_true. eauto.
Qed.

Lemma row_max_is_max row : has_scale row = true -> is_max_abs row (row_max row).
Proof.
  intros Hs. destruct (row_max_invariant row) as (Hatt & Hnan & Hub).
  split; [|done]. destruct Hatt as [Hz|Hatt]; [|done].
  pose proof (row_max_zero row) as Hzero. rewrite Hs, Hz in Hzero.
  discriminate.
Qed.
End row_max.

(* ================================================================== *)
(** * Scaling of the equations *)
(* ================================================================== *)

Lemma set_cout_same st : set_cout_ (cout_ st) st = st.
Proof. by destruct st. Qed.

Lemma set_dae_same st : set_dae_ (dae_ st) st = st.
Proof. by destruct st. Qed.

Lemma set_dae_twice a b st : set_dae_ a (set_dae_ b st) = set_dae_ a st.
Proof. reflexivity. Qed.

Lemma scale_factor_run (J0 : DMatrix) i e (st : FlatOCPInternal) :
  dae_ st !! i = Some e ->
  scale_factor J0 i st =
    if has_scale (row_entries J0 i)
    then (Ok (row_max (row_entries J0 i)), st)
    else (Ok 1%float, set_cout_ (cout_ st ++ [no_scale_warning i e]) st).
Proof.
  intros He. unfold scale_factor. rewrite row_max_zero.
  destruct (has_scale (row_entries J0 i)); simpl; [reflexivity|].
  unfold bind, get, vec_at, modify, ret. by rewrite He.
Qed.

Lemma divide_equation_run (scale : list float) i e x (st : FlatOCPInternal) :
  dae_ st !! i = Some e -> scale !! i = Some x ->
  divide_equation scale i st =
    (Ok tt, set_dae_ (<[i := SXBin OpDiv e (SXConst x)]> (dae_ st)) st).
Proof.
  intros He Hx. unfold divide_equation, bind, get, vec_at, modify, ret.
  by rewrite He, Hx.
Qed.

(** The loop that fills [scale]. *)
Lemma map_M_scale_factor (J0 : DMatrix) (l : list nat) (st : FlatOCPInternal) :
  (forall i, i ∈ l -> i < length (dae_ st)) ->
  map_M (scale_factor J0) l st =
    (Ok (map (fun i => if has_scale (row_entries J0 i)
                       then row_max (row_entries J0 i) else 1%float) l),
     set_cout_ (cout_ st ++ scale_warnings J0 (dae_ st) l) st).
Proof.
  revert st. induction l as [|i l IH]; intros st Hl; simpl.
  - unfold ret, scale_warnings. simpl. by rewrite app_nil_r, set_cout_same.
  - assert (i < length (dae_ st)) as Hi by (apply Hl; left).
    destruct (lookup_lt_is_Some_2 _ _ Hi) as [e He].
    unfold scale_warnings. simpl. fold (scale_warnings J0 (dae_ st) l).
    unfold bind at 1. rewrite (scale_factor_run _ _ _ _ He).
    destruct (has_scale (row_entries J0 i)) eqn:Hs; simpl.
    + erewrite bind_ok; [|apply IH; intros j Hj; apply Hl; by right].
      reflexivity.
    + rewrite He. simpl.
      erewrite bind_ok; [|apply IH; simpl; intros j Hj; apply Hl; by right].
      unfold ret. simpl. by rewrite <- app_assoc.
Qed.

(** The loop that divides the equations, started at index [k]. *)
Lemma for_each_divide_equation (scale : list float) (m k : nat) (st : FlatOCPInternal) :
  k + m = length (dae_ st) -> length scale = length (dae_ st) ->
  for_each (divide_equation scale) (seq k m) st =
    (Ok tt,
     set_dae_ (take k (dae_ st)
               ++ zip_with (fun e s => SXBin OpDiv e (SXConst s))
                    (drop k (dae_ st)) (drop k scale)) st).
Proof.
  revert k st. induction m as [|m IH]; intros k st Hk Hlen; simpl.
  - unfold ret. rewrite (drop_ge (dae_ st)) by lia. simpl.
    rewrite app_nil_r, take_ge by lia. by rewrite set_dae_same.
  - destruct (lookup_lt_is_Some_2 (dae_ st) k) as [e He]; [lia|].
    destruct (lookup_lt_is_Some_2 scale k) as [x Hx]; [lia|].
    erewrite bind_ok; [|by apply divide_equation_run].
    rewrite IH; simpl; rewrite ?length_insert; [|lia|lia].
    rewrite set_dae_twice. f_equal. f_equal.
    rewrite (drop_S _ _ _ He), (drop_S _ _ _ Hx). simpl.
    rewrite drop_insert_lt by lia.
    rewrite (take_S_r _ _ (SXBin OpDiv e (SXConst x))).
    + rewrite take_insert_ge by lia. by rewrite <- app_assoc.
    + apply list_lookup_insert_eq. lia.
Qed.

(** Nothing but infinity is above infinity. *)
Lemma infinity_leb s : (infinity <=? s)%float = true -> s = infinity.
Proof.
  rewrite leb_spec. change (Prim2SF infinity) with (S754_infinity false).
  intros Hle. apply Prim2SF_inj.
  change (Prim2SF infinity) with (S754_infinity false).
  unfold SFleb, SFcompare in Hle.
  destruct (Prim2SF s) as [ss|ss| |ss ms es]; try discriminate.
  by destruct ss.
Qed.

(** The entries the inner loop visits. *)
Lemma row_entries_positions (J : DMatrix) (i : nat) (x : float) :
  x ∈ row_entries J i <-> row_entry J i x.
Proof.
  unfold row_entries, row_entry. rewrite list_elem_of_lookup. split.
  - intros [k Hk].
    assert (Hlt : k < rowind J (i + 1) - rowind J i).
    { apply lookup_lt_Some in Hk. rewrite length_take in Hk. lia. }
    rewrite lookup_take_lt, lookup_drop in Hk by done.
    exists (rowind J i + k). split; [lia|done].
  - intros (el & Hel & Hx). exists (el - rowind J i).
    rewrite lookup_take_lt, lookup_drop by lia.
    by replace (rowind J i + (el - rowind J i)) with el by lia.
Qed.

(** The amended C8.  [scaleEquations] on an object ready to be scaled, where
    [J0] is the Jacobian evaluated at the nominal point (time 0, start
    values, zero derivatives) and has one row per implicit equation: the
    call returns; the factor of row [i] is the greatest absolute value
    among the entries of the row (the values at the positions [rowind(i)]
    to [rowind(i+1)-1]) that are not NaN, an infinite entry being a number
    like any other, so that a row with an infinite entry has the factor
    infinity; it is 1 when no entry that is not NaN is different from zero,
    in which case a warning for the row is printed and nothing is thrown;
    every implicit equation [i] is divided by the factor of row [i]. *)
Theorem scaleEquations_row_scaling `{Substrate} (st : FlatOCPInternal) :
  scaled_equations_ st = false ->
  scaled_variables_ st = true ->
  size1 (nominal_jacobian st) = length (dae_ st) ->
  exists st1 scale,
    scaleEquations st = (Ok tt, st1) /\
    length scale = length (dae_ st) /\
    (forall i s, scale !! i = Some s ->
       let row := row_entries (nominal_jacobian st) i in
       (forall x, x ∈ row <-> row_entry (nominal_jacobian st) i x) /\
       (if has_scale row then is_max_abs row s else s = 1%float) /\
       ((exists x, row_entry (nominal_jacobian st) i x /\
                   (x = infinity \/ x = neg_infinity)) -> s = infinity)) /\
    dae_ st1 =
      zip_with (fun e s => SXBin OpDiv e (SXConst s)) (dae_ st) scale /\
    cout_ st1 =
      cout_ st ++ scale_warnings (nominal_jacobian st) (dae_ st)
                    (seq 0 (length (dae_ st))).
Proof.
  intros He Hv Hsize.
  set (J0 := nominal_jacobian st) in *.
  set (scale := map (fun i => if has_scale (row_entries J0 i)
                              then row_max (row_entries J0 i) else 1%float)
                    (seq 0 (length (dae_ st)))).
  assert (length scale = length (dae_ st)) as Hlen
    by (unfold scale; by rewrite length_map, length_seq).
  assert (Hmax : forall i s, scale !! i = Some s ->
            if has_scale (row_entries J0 i)
            then is_max_abs (row_entries J0 i) s else s = 1%float).
  { intros i s Hi. unfold scale in Hi. rewrite list_lookup_fmap in Hi.
    destruct (seq 0 (length (dae_ st)) !! i) as [j|] eqn:Hj; [|discriminate].
    apply lookup_seq in Hj as [-> _]. simpl in Hi. injection Hi as <-.
    destruct (has_scale (row_entries J0 i)) eqn:Hs; [|done].
    by apply row_max_is_max. }
  assert (Hscale : forall i s, scale !! i = Some s ->
            (forall x, x ∈ row_entries J0 i <-> row_entry J0 i x) /\
            (if has_scale (row_entries J0 i)
             then is_max_abs (row_entries J0 i) s else s = 1%float) /\
            ((exists x, row_entry J0 i x /\ (x = infinity \/ x = neg_infinity)) ->
             s = infinity)).
  { intros i s Hi. split; [intros x; apply row_entries_positions|].
    split; [by apply Hmax|].
    intros (x & Hx & Hinf). apply row_entries_positions in Hx.
    specialize (Hmax i s Hi).
    assert (Hnan : PrimFloat.is_nan x = false) by (by destruct Hinf as [->| ->]).
    assert (Habs : abs x = infinity) by (by destruct Hinf as [->| ->]).
    assert (Hhas : has_scale (row_entries J0 i) = true).
    { apply existsb_exists. exists x. split; [by apply list_elem_of_In|].
      by rewrite Hnan, Habs. }
    rewrite Hhas in Hmax. destruct Hmax as [(y & Hy & Hyn & ->) Hbound].
    specialize (Hbound x Hx Hnan). rewrite Habs in Hbound.
    by apply infinity_leb. }
  assert (dae_ st = [] \/ dae_ st <> []) as [Hdae|Hdae]
    by (destruct (dae_ st); [by left|by right]).
  - exists st, []. rewrite scaleEquations_unfold, He, Hv, Hdae. simpl.
    unfold scale_warnings. simpl. rewrite app_nil_r. repeat split; done.
  - exists (set_scaled_equations_ true
              (set_dae_ (zip_with (fun e s => SXBin OpDiv e (SXConst s))
                           (dae_ st) scale)
                 (set_cout_ (cout_ st ++ scale_warnings J0 (dae_ st)
                                          (seq 0 (length (dae_ st)))) st))).
    exists scale. split; [|done].
    rewrite scaleEquations_unfold, He, Hv. simpl. fold J0. rewrite Hsize.
    destruct (dae_ st) as [|e0 dae] eqn:Hd; [done|]. rewrite <- Hd.
    erewrite bind_ok; cycle 1.
    { apply map_M_scale_factor. intros i Hi. apply elem_of_seq in Hi. lia. }
    erewrite bind_ok; cycle 1.
    { apply (for_each_divide_equation _ (length (dae_ st)) 0); simpl; [lia|].
      by rewrite length_map, length_seq. }
    unfold modify. simpl. rewrite !drop_0. subst scale. by rewrite Hd.
Qed.

Lemma scaleEquations_row_scaling_witness :
  exists st1 scale,
    @scaleEquations example_substrate example_ocp = (Ok tt, st1) /\
    length scale = 2 /\
    (forall i s, scale !! i = Some s ->
       let row := row_entries example_J0 i in
       (forall x, x ∈ row <-> row_entry example_J0 i x) /\
       (if has_scale row then is_max_abs row s else s = 1%float) /\
       ((exists x, row_entry example_J0 i x /\
                   (x = infinity \/ x = neg_infinity)) -> s = infinity)) /\
    dae_ st1 =
      zip_with (fun e s => SXBin OpDiv e (SXConst s)) (dae_ example_ocp) scale /\
    cout_ st1 =
      scale_warnings example_J0 (dae_ example_ocp) [0; 1].
Proof.
  apply (@scaleEquations_row_scaling example_substrate example_ocp);
    reflexivity.
Defined.

(** C8 as stated fails on a row with an infinite entry.  Row 0 has the
    entries infinity and 2: the greatest absolute value among its finite
    entries is 2, and its factor is infinity.  Row 1 has the one entry
    minus infinity: no entry gives a finite value different from zero, and
    yet its factor is infinity, not 1, and no warning is printed. *)
Lemma infinite_entry_is_the_scale :
  row_entries infinite_J0 0 = [infinity; 2%float] /\
  row_entries infinite_J0 1 = [neg_infinity] /\
  @scaleEquations infinite_substrate example_ocp =
    (Ok tt,
     set_scaled_equations_ true
       (set_dae_ [SXBin OpDiv (SXBin OpAdd (SXSym "x1") (SXSym "x2"))
                              (SXConst infinity);
                  SXBin OpDiv (SXSym "x2") (SXConst infinity)] example_ocp)) /\
  cout_ (snd (@scaleEquations infinite_substrate example_ocp)) = [].
Proof. repeat split; vm_compute; reflexivity. Qed.

(** The same run, computed: row 0 has entries -3, NaN and 2 and scale 3;
    row 1 has entries 0 and NaN, gets scale 1 and a warning. *)
Example scaleEquations_example :
  @scaleEquations example_substrate example_ocp =
    (Ok tt,
     set_scaled_equations_ true
       (set_cout_ [no_scale_warning 1 (SXSym "x2")]
          (set_dae_ [SXBin OpDiv (SXBin OpAdd (SXSym "x1") (SXSym "x2"))
                                 (SXConst 3);
                     SXBin OpDiv (SXSym "x2") (SXConst 1)] example_ocp))).
Proof. vm_compute. reflexivity. Qed.

(* ================================================================== *)
(** * Role classification *)
(* ================================================================== *)

Lemma getTemp_elem s temp : getTemp s temp = true <-> s ∈ temp.
Proof.
  unfold getTemp. rewrite existsb_exists. split.
  - intros (s' & Hin & Heq). apply String.eqb_eq in Heq as ->.
    by apply list_elem_of_In.
  - intros Hin. exists s. split; [by apply list_elem_of_In|apply String.eqb_refl].
Qed.

Lemma setTemp_elem s s' b temp :
  s ∈ setTemp s' b temp <-> (s = s' /\ b = true) \/ (s <> s' /\ s ∈ temp).
Proof.
  unfold setTemp. destruct b.
  - rewrite elem_of_cons, list_elem_of_filter.
    destruct (decide (s = s')); intuition congruence.
  - rewrite list_elem_of_filter. intuition congruence.
Qed.

(** The loops that set and clear the markers. *)
Lemma for_each_setTemp b (l : list OCPVariable) (st : FlatOCPInternal) :
  for_each (fun v => modify (fun st => set_temp_ (setTemp (v_var v) b (temp_ st)) st))
           l st =
    (Ok tt, set_temp_ (fold_left (fun t v => setTemp (v_var v) b t) l (temp_ st)) st).
Proof.
  revert st. induction l as [|v l IH]; intros st; simpl.
  - unfold ret. by destruct st.
  - unfold bind, modify at 1. by rewrite IH.
Qed.

Lemma marked_elem s (l : list OCPVariable) temp :
  s ∈ fold_left (fun t v => setTemp (v_var v) true t) l temp <->
  s ∈ var l \/ s ∈ temp.
Proof.
  revert temp. induction l as [|v l IH]; intros temp; cbn [fold_left var map].
  - rewrite elem_of_nil. tauto.
  - rewrite IH, setTemp_elem, elem_of_cons. fold (var l).
    destruct (decide (s = v_var v)); intuition congruence.
Qed.

Lemma cleared_elem s (l : list OCPVariable) temp :
  s ∈ fold_left (fun t v => setTemp (v_var v) false t) l temp <->
  (s ∉ var l) /\ (s ∈ temp).
Proof.
  revert temp. induction l as [|v l IH]; intros temp; cbn [fold_left var map].
  - rewrite elem_of_nil. tauto.
  - rewrite IH, setTemp_elem, not_elem_of_cons. fold (var l).
    intuition congruence.
Qed.

Lemma unmarked_ext temp1 temp2 (l : list OCPVariable) :
  (forall s, s ∈ temp1 <-> s ∈ temp2) -> unmarked temp1 l = unmarked temp2 l.
Proof.
  intros Hext. unfold unmarked. apply list_filter_iff. intros v.
  rewrite <- !not_true_iff_false, !getTemp_elem. by rewrite Hext.
Qed.

(** What the loop over the registry has done to the buckets when it
    returns: the unmarked variables [U] it has seen are appended, each to the
    bucket of its role. *)
Definition buckets_extended (st st' : FlatOCPInternal) (U : list OCPVariable)
  : Prop :=
  p_ st' = p_ st ++ with_role RoleParameter U /\
  x_ st' = x_ st ++ with_role RoleState U /\
  u_ st' = u_ st ++ with_role RoleControl U /\
  y_ st' = y_ st ++ with_role RoleDependent U /\
  dep_ st' = dep_ st ++ map (fun v => SXConst (v_nominal v)) (with_role RoleDependent U) /\
  xd_ st' = xd_ st /\ xa_ st' = xa_ st /\
  temp_ st' = temp_ st /\ varmap_ st' = varmap_ st.

Lemma sortType_visit_marked v (st : FlatOCPInternal) :
  getTemp (v_var v) (temp_ st) = true -> sortType_visit v st = (Ok tt, st).
Proof. intros Hm. unfold sortType_visit, bind, get. by rewrite Hm. Qed.

Lemma sortType_visit_unmarked v (st : FlatOCPInternal) :
  getTemp (v_var v) (temp_ st) = false ->
  match role_of v with
  | RoleInvalid => exists m st', sortType_visit v st = (Throw m, st')
  | _ => exists st', sortType_visit v st = (Ok tt, st') /\
                     buckets_extended st st' [v]
  end.
Proof.
  intros Hm. unfold sortType_visit, bind, get, role_of, buckets_extended,
    with_role. rewrite Hm. simpl.
  destruct (v_variability v) eqn:Hvb, (v_causality v) eqn:Hcs;
    try destruct (v_free v) eqn:Hfree; simpl;
    try (do 2 eexists; reflexivity);
    (eexists; split; [reflexivity|]);
    rewrite !filter_cons, !filter_nil; unfold role_of;
    rewrite ?Hvb, ?Hcs, ?Hfree; repeat case_decide; try congruence;
    simpl; by rewrite ?app_nil_r.
Qed.

Lemma unmarked_cons temp v l :
  unmarked temp (v :: l) =
    if getTemp (v_var v) temp then unmarked temp l else v :: unmarked temp l.
Proof.
  unfold unmarked. rewrite filter_cons.
  destruct (getTemp (v_var v) temp); by case_decide.
Qed.

Lemma with_role_cons r v l :
  with_role r (v :: l) = with_role r [v] ++ with_role r l.
Proof.
  unfold with_role. rewrite !filter_cons, filter_nil. by case_decide.
Qed.

Lemma buckets_extended_trans st st1 st2 v U :
  buckets_extended st st1 [v] -> buckets_extended st1 st2 U ->
  buckets_extended st st2 (v :: U).
Proof.
  unfold buckets_extended.
  intros (Hp & Hx & Hu & Hy & Hd & Hxd & Hxa & Ht & Hm)
         (Hp' & Hx' & Hu' & Hy' & Hd' & Hxd' & Hxa' & Ht' & Hm').
  rewrite (with_role_cons RoleParameter), (with_role_cons RoleState),
    (with_role_cons RoleControl), (with_role_cons RoleDependent), map_app.
  rewrite Hp', Hx', Hu', Hy', Hd', Hxd', Hxa', Ht', Hm'.
  rewrite Hp, Hx, Hu, Hy, Hd, Hxd, Hxa, Ht, Hm.
  by rewrite <- !app_assoc.
Qed.

Lemma buckets_extended_refl st : buckets_extended st st [].
Proof. unfold buckets_extended, with_role. simpl. by rewrite !app_nil_r. Qed.

(** The loop over the registry. *)
Lemma for_each_sortType_visit (l : list (string * OCPVariable)) (st : FlatOCPInternal) :
  if decide (Forall (fun v => role_of v <> RoleInvalid)
                    (unmarked (temp_ st) (map snd l)))
  then exists st', for_each (fun kv => sortType_visit (snd kv)) l st = (Ok tt, st')
                   /\ buckets_extended st st' (unmarked (temp_ st) (map snd l))
  else exists m st', for_each (fun kv => sortType_visit (snd kv)) l st = (Throw m, st').
Proof.
  revert st. induction l as [|[k v] l IH]; intros st; cbn [for_each map snd].
  - rewrite decide_True by constructor.
    exists st. split; [done|apply buckets_extended_refl].
  - rewrite unmarked_cons. destruct (getTemp (v_var v) (temp_ st)) eqn:Hm.
    + specialize (IH st).
      erewrite bind_ok; [|by apply sortType_visit_marked]. exact IH.
    + pose proof (sortType_visit_unmarked v st Hm) as Hv.
      destruct (decide (role_of v = RoleInvalid)) as [Hinv|Hok].
      * rewrite Hinv in Hv. destruct Hv as (m & st' & Hv).
        rewrite decide_False.
        { exists m, st'. by erewrite bind_throw. }
        intros Hall. by apply Forall_cons in Hall as [Hall _].
      * assert (exists st1, sortType_visit v st = (Ok tt, st1) /\
                            buckets_extended st st1 [v]) as (st1 & Hrun & Hext).
        { destruct (role_of v); done. }
        specialize (IH st1).
        assert (temp_ st1 = temp_ st) as Ht by apply Hext.
        rewrite Ht in IH. erewrite bind_ok; [|exact Hrun].
        destruct (decide (Forall (fun v => role_of v <> RoleInvalid)
                            (unmarked (temp_ st) (map snd l)))) as [Hall|Hall].
        -- rewrite decide_True by by constructor.
           destruct IH as (st' & Hloop & Hext').
           exists st'. split; [done|]. by eapply buckets_extended_trans.
        -- rewrite decide_False; [done|].
           intros Hall'. by apply Forall_cons in Hall' as [_ Hall'].
Qed.

Lemma sortType_unfold (st : FlatOCPInternal) :
  let st_a := set_p_ [] (set_u_ [] (set_xa_ [] (set_xd_ [] (set_x_ [] st)))) in
  let st_b := set_temp_ (fold_left (fun t v => setTemp (v_var v) true t)
                                   (y_ st) (temp_ st)) st_a in
  sortType st =
    (for_each (fun kv => sortType_visit (snd kv)) (varmap_ st) ;;;
     st' <- get ;;
     for_each (fun v => modify (fun st => set_temp_ (setTemp (v_var v) false (temp_ st)) st))
              (y_ st')) st_b.
Proof.
  intros st_a st_b. unfold sortType.
  do 5 (unfold bind at 1, modify at 1). unfold bind at 1, get at 1.
  unfold bind at 1. rewrite for_each_setTemp. unfold bind at 1, get at 1.
  reflexivity.
Qed.

(** The amended C6.  With all markers cleared beforehand, [sortType] sorts
    the variables of the registry that are not dependent as follows: a free
    parameter goes to [p_], a continuous internal variable to [x_], a
    continuous input to [u_], and a constant joins the dependent variables
    [y_], its nominal value being appended to [dep_]; no variable lands in
    two buckets.  A parameter that is not free stops the pass with an
    exception.  A continuous output and a discrete variable are put in no
    bucket, and raise nothing. *)
Theorem sortType_classification (st : FlatOCPInternal) :
  temp_ st = [] ->
  let U := unmarked (var (y_ st)) (map snd (varmap_ st)) in
  (Forall (fun v => role_of v <> RoleInvalid) U ->
   exists st1,
     sortType st = (Ok tt, st1) /\
     p_ st1 = with_role RoleParameter U /\
     x_ st1 = with_role RoleState U /\
     u_ st1 = with_role RoleControl U /\
     y_ st1 = y_ st ++ with_role RoleDependent U /\
     dep_ st1 = dep_ st ++ map (fun v => SXConst (v_nominal v))
                               (with_role RoleDependent U) /\
     xd_ st1 = [] /\ xa_ st1 = [] /\ temp_ st1 = [] /\
     forall v, v ∈ U ->
       (v ∈ p_ st1 <-> role_of v = RoleParameter) /\
       (v ∈ x_ st1 <-> role_of v = RoleState) /\
       (v ∈ u_ st1 <-> role_of v = RoleControl) /\
       (v ∈ y_ st1 <-> role_of v = RoleDependent) /\
       (v ∉ xd_ st1) /\ (v ∉ xa_ st1)) /\
  (~ Forall (fun v => role_of v <> RoleInvalid) U ->
   exists m st1, sortType st = (Throw m, st1)).
Proof.
  intros Htemp U. rewrite sortType_unfold. cbv zeta. rewrite Htemp.
  set (st_b := set_temp_ _ _).
  assert (HU : unmarked (temp_ st_b) (map snd (varmap_ st)) = U).
  { apply unmarked_ext. intros s. unfold st_b. simpl.
    rewrite marked_elem, elem_of_nil. tauto. }
  pose proof (for_each_sortType_visit (varmap_ st) st_b) as Hloop.
  rewrite HU in Hloop. split; intros Hall.
  - rewrite decide_True in Hloop by done.
    destruct Hloop as (st_c & Hrun & Hp & Hx & Hu & Hy & Hd & Hxd & Hxa & Ht & _).
    erewrite bind_ok; [|exact Hrun]. unfold bind at 1, get.
    rewrite for_each_setTemp. eexists. split; [reflexivity|]. simpl.
    rewrite Hp, Hx, Hu, Hy, Hd, Hxd, Hxa, Ht. simpl.
    repeat (split; [done|]). split.
    { apply elem_of_nil_inv. intros s Hs. apply cleared_elem in Hs as [Hn Hs].
      apply marked_elem in Hs as [Hs|Hs]; [|by apply elem_of_nil in Hs].
      apply Hn. unfold var. rewrite map_app. apply elem_of_app. by left. }
    intros v Hv. unfold with_role. rewrite elem_of_app, !list_elem_of_filter.
    repeat split; try tauto; try apply not_elem_of_nil.
    intros [Hin|[Hr _]]; [|done].
    unfold U, unmarked in Hv. apply list_elem_of_filter in Hv as [Hm _].
    apply not_true_iff_false in Hm. exfalso. apply Hm, getTemp_elem.
    unfold var. apply list_elem_of_fmap. eauto.
  - rewrite decide_False in Hloop by done.
    destruct Hloop as (m & st_c & Hrun).
    exists m, st_c. by erewrite bind_throw.
Qed.

Lemma sortType_classification_witness :
  exists st1,
    sortType output_ocp = (Ok tt, st1) /\
    p_ st1 = [] /\ x_ st1 = [] /\ u_ st1 = [] /\ y_ st1 = [].
Proof.
  destruct (proj1 (sortType_classification output_ocp eq_refl))
    as (st1 & Hrun & Hp & Hx & Hu & Hy & _).
  - vm_compute. repeat constructor; discriminate.
  - exists st1. split; [exact Hrun|]. rewrite Hp, Hx, Hu, Hy.
    vm_compute. repeat split; reflexivity.
Defined.

(** C6 as stated fails: a registry holding a discrete variable and a
    continuous output is sorted without any exception, and the two
    variables, which are not dependent, end up in none of the buckets. *)
Lemma sortType_leaves_variables_out :
  exists st1,
    sortType output_ocp = (Ok tt, st1) /\
    Forall (fun kv => v_var (snd kv) ∉ var (y_ output_ocp)) (varmap_ output_ocp) /\
    x_ st1 ++ xd_ st1 ++ xa_ st1 ++ q_ st1 ++ y_ st1 ++ p_ st1 ++ u_ st1 = [].
Proof.
  eexists. split; [vm_compute; reflexivity|]. split; [|reflexivity].
  repeat constructor; apply not_elem_of_nil.
Qed.

(* ================================================================== *)
(** * BLT sorting *)
(* ================================================================== *)

(** Reading a list through a list of indices that are all in range. *)
Lemma map_M_vec_at {S A} (l : list A) (p idx : list nat) (s : S) :
  (forall i, i ∈ idx -> exists r a, p !! i = Some r /\ l !! r = Some a) ->
  exists out,
    map_M (fun i => r <- vec_at p i ;; vec_at l r) idx s = (Ok out, s) /\
    length out = length idx /\
    forall k i r, idx !! k = Some i -> p !! i = Some r -> out !! k = l !! r.
Proof.
  induction idx as [|i idx IH]; intros Hall.
  - exists []. split; [done|]. split; [done|].
    intros k i r Hk. by rewrite lookup_nil in Hk.
  - destruct (Hall i) as (r & a & Hr & Ha); [by left|].
    destruct IH as (out & Hrun & Hlen & Hout).
    { intros j Hj. apply Hall. by right. }
    exists (a :: out). split; [|split].
    + simpl. erewrite bind_ok; cycle 1.
      { erewrite bind_ok; [|by apply vec_at_Some]. by apply vec_at_Some. }
      by erewrite bind_ok; [|exact Hrun].
    + simpl. by rewrite Hlen.
    + intros [|k] i' r' Hk Hr'; simpl in *.
      * injection Hk as <-. congruence.
      * by eapply Hout.
Qed.

Lemma Permutation_seq_lookup (p : list nat) n i r :
  p ≡ₚ seq 0 n -> p !! i = Some r -> r < n.
Proof.
  intros Hp Hi. apply list_elem_of_lookup_2 in Hi.
  rewrite Hp in Hi. apply elem_of_seq in Hi. lia.
Qed.







Section sorting.
Context `{Substrate}.

End sorting.





(* ================================================================== *)
(** * The bound checks *)
(* ================================================================== *)

Lemma scan_violated_exists cond v l :
  scan_violated cond v l = v || existsb cond l.
Proof.
  revert v. induction l as [|i l IH]; intros v; simpl.
  - by rewrite orb_false_r.
  - destruct v; [done|]. by rewrite IH.
Qed.

Lemma existsb_seq_true cond n :
  existsb cond (seq 0 n) = true <-> exists i, i < n /\ cond i = true.
Proof.
  rewrite existsb_exists. split.
  - intros (i & Hin & Hc). apply in_seq in Hin. exists i. split; [lia|done].
  - intros (i & Hlt & Hc). exists i. split; [|done]. apply in_seq. lia.
Qed.

Lemma existsb_seq_false cond n :
  existsb cond (seq 0 n) = false <-> forall i, i < n -> cond i = false.
Proof.
  rewrite <- not_true_iff_false, existsb_seq_true. split.
  - intros Hn i Hi. apply not_true_iff_false. intros Hc. apply Hn. eauto.
  - intros Hall (i & Hi & Hc). rewrite Hall in Hc by done. discriminate.
Qed.

Lemma checkInitialBounds_unfold (st : NlpSolverInternal) :
  checkInitialBounds st =
    if existsb (ill_posed (input_ st NLP_SOLVER_LBX) (input_ st NLP_SOLVER_UBX))
               (seq 0 (nx_ st))
    then (Throw [MTxt "Ill-posed problem detected (x bounds)"], st)
    else if existsb (ill_posed (input_ st NLP_SOLVER_LBG) (input_ st NLP_SOLVER_UBG))
                    (seq 0 (ng_ st))
    then (Throw [MTxt "Ill-posed problem detected (g bounds)"], st)
    else if warn_initial_bounds_ st
            && existsb (fun k => (elt (input_ st NLP_SOLVER_UBX) k
                                  <? elt (input_ st NLP_SOLVER_X0) k)
                                 || (elt (input_ st NLP_SOLVER_X0) k
                                     <? elt (input_ st NLP_SOLVER_LBX) k))%float
                       (seq 0 (nx_ st))
    then (Ok tt,
          set_console_
            (console_ st ++
             [[MTxt "WARNING: ";
               MTxt "NlpSolver: The initial guess does not satisfy LBX and UBX. Option 'warn_initial_bounds' controls this warning."]])
            st)
    else (Ok tt, st).
Proof.
  unfold checkInitialBounds, ill_posed, bind, get, casadi_assert_message.
  simpl. rewrite !scan_violated_exists. simpl.
  match goal with
  | |- context [existsb ?f (seq 0 (nx_ st))] =>
      destruct (existsb f (seq 0 (nx_ st)))
  end; simpl; [done|].
  match goal with
  | |- context [existsb ?f (seq 0 (ng_ st))] =>
      destruct (existsb f (seq 0 (ng_ st)))
  end; simpl; [done|].
  destruct (warn_initial_bounds_ st); simpl; [|done].
  by destruct (existsb _ _).
Qed.

Lemma set_console_same (st : NlpSolverInternal) : set_console_ (console_ st) st = st.
Proof. by destruct st. Qed.

Lemma check_bound_run text lb ub i l u (st : NlpSolverInternal) :
  lb !! i = Some l -> ub !! i = Some u ->
  check_bound text lb ub i st =
    if (l <=? u)%float then (Ok tt, st) else (Throw (text i l u), st).
Proof.
  intros Hl Hu. unfold check_bound, bind, at_, casadi_assert_message.
  rewrite Hl, Hu. simpl. by destruct (l <=? u)%float.
Qed.

Lemma elt_lookup v i x : v !! i = Some x -> elt v i = x.
Proof. intros H. unfold elt. by apply nth_lookup_Some with (d := 0%float) in H. Qed.

(** The loop of [checkInputs] over the indices [k .. k+n-1], all in range:
    it passes when every pair is in order, and stops at the first that is
    not. *)
Lemma for_each_check_bound_pass text lb ub n k (st : NlpSolverInternal) :
  k + n <= length lb -> k + n <= length ub ->
  (forall i, k <= i < k + n -> (elt lb i <=? elt ub i)%float = true) ->
  for_each (check_bound text lb ub) (seq k n) st = (Ok tt, st).
Proof.
  revert k. induction n as [|n IH]; intros k Hlb Hub Hall; simpl; [done|].
  destruct (lookup_lt_is_Some_2 lb k) as [l Hl]; [lia|].
  destruct (lookup_lt_is_Some_2 ub k) as [u Hu]; [lia|].
  unfold bind at 1. rewrite (check_bound_run _ _ _ _ _ _ _ Hl Hu).
  rewrite <- (elt_lookup _ _ _ Hl), <- (elt_lookup _ _ _ Hu), Hall by lia.
  apply IH; [lia|lia|]. intros i Hi. apply Hall. lia.
Qed.

Lemma for_each_check_bound_stop text lb ub n k i (st : NlpSolverInternal) :
  k + n <= length lb -> k + n <= length ub ->
  k <= i < k + n ->
  (forall j, k <= j < i -> (elt lb j <=? elt ub j)%float = true) ->
  (elt lb i <=? elt ub i)%float = false ->
  for_each (check_bound text lb ub) (seq k n) st =
    (Throw (text i (elt lb i) (elt ub i)), st).
Proof.
  revert k. induction n as [|n IH]; intros k Hlb Hub Hi Hbefore Hfail; simpl; [lia|].
  destruct (lookup_lt_is_Some_2 lb k) as [l Hl]; [lia|].
  destruct (lookup_lt_is_Some_2 ub k) as [u Hu]; [lia|].
  unfold bind at 1. rewrite (check_bound_run _ _ _ _ _ _ _ Hl Hu).
  rewrite <- (elt_lookup _ _ _ Hl), <- (elt_lookup _ _ _ Hu).
  destruct (decide (i = k)) as [->|Hne].
  - by rewrite Hfail.
  - rewrite Hbefore by lia. apply IH; [lia|lia|lia| |done].
    intros j Hj. apply Hbefore. lia.
Qed.

(** The amended C2.  [checkInputs] throws an exception that names the
    first index [i] at which [lb[i] <= ub[i]] does not hold, the variable
    bounds being examined before the constraint bounds, and passes when
    there is none.  [checkInitialBounds] throws an exception that names the
    kind of bound, and no index, when some index has a lower bound equal to
    [+inf], a lower bound above the upper bound, or an upper bound equal to
    [-inf], and passes otherwise.  A throwing check leaves the object as it
    was, and a passing check leaves the stored inputs as they were. *)
Theorem bound_checks (st : NlpSolverInternal) :
  let lbx := input_ st NLP_SOLVER_LBX in
  let ubx := input_ st NLP_SOLVER_UBX in
  let lbg := input_ st NLP_SOLVER_LBG in
  let ubg := input_ st NLP_SOLVER_UBG in
  length ubx = length lbx -> length ubg = length lbg ->
  (* checkInputs *)
  (forall i, i < length lbx ->
     (forall j, j < i -> (elt lbx j <=? elt ubx j)%float = true) ->
     (elt lbx i <=? elt ubx i)%float = false ->
     checkInputs st = (Throw (lbx_violated_text i (elt lbx i) (elt ubx i)), st) /\
     names_index (lbx_violated_text i (elt lbx i) (elt ubx i)) i) /\
  (forall i, i < length lbg ->
     (forall j, j < length lbx -> (elt lbx j <=? elt ubx j)%float = true) ->
     (forall j, j < i -> (elt lbg j <=? elt ubg j)%float = true) ->
     (elt lbg i <=? elt ubg i)%float = false ->
     checkInputs st = (Throw (lbg_violated_text i (elt lbg i) (elt ubg i)), st) /\
     names_index (lbg_violated_text i (elt lbg i) (elt ubg i)) i) /\
  ((forall j, j < length lbx -> (elt lbx j <=? elt ubx j)%float = true) ->
   (forall j, j < length lbg -> (elt lbg j <=? elt ubg j)%float = true) ->
   checkInputs st = (Ok tt, st)) /\
  (* checkInitialBounds *)
  ((exists i, i < nx_ st /\ ill_posed lbx ubx i = true) ->
   checkInitialBounds st =
     (Throw [MTxt "Ill-posed problem detected (x bounds)"], st)) /\
  ((forall i, i < nx_ st -> ill_posed lbx ubx i = false) ->
   (exists i, i < ng_ st /\ ill_posed lbg ubg i = true) ->
   checkInitialBounds st =
     (Throw [MTxt "Ill-posed problem detected (g bounds)"], st)) /\
  ((forall i, i < nx_ st -> ill_posed lbx ubx i = false) ->
   (forall i, i < ng_ st -> ill_posed lbg ubg i = false) ->
   exists st1, checkInitialBounds st = (Ok tt, st1) /\ same_but_console st st1).
Proof.
  intros lbx ubx lbg ubg Hx Hg.
  assert (Hin : forall (text : nat -> float -> float -> message) i l u,
            text = lbx_violated_text \/ text = lbg_violated_text ->
            names_index (text i l u) i).
  { intros text i l u [->| ->]; unfold names_index; set_solver. }
  split; [|split; [|split; [|split; [|split]]]].
  - intros i Hi Hbefore Hfail. split; [|apply Hin; by left].
    unfold checkInputs, bind at 1, get. fold lbx ubx lbg ubg.
    erewrite bind_throw; [done|].
    apply for_each_check_bound_stop; simpl; try lia; try done.
    intros j Hj. apply Hbefore. lia.
  - intros i Hi Hallx Hbefore Hfail. split; [|apply Hin; by right].
    unfold checkInputs, bind at 1, get. fold lbx ubx lbg ubg.
    erewrite bind_ok; cycle 1.
    { apply for_each_check_bound_pass; simpl; try lia.
      intros j Hj. apply Hallx. lia. }
    apply for_each_check_bound_stop; simpl; try lia; try done.
    intros j Hj. apply Hbefore. lia.
  - intros Hallx Hallg. unfold checkInputs, bind at 1, get.
    fold lbx ubx lbg ubg.
    erewrite bind_ok; cycle 1.
    { apply for_each_check_bound_pass; simpl; try lia.
      intros j Hj. apply Hallx. lia. }
    apply for_each_check_bound_pass; simpl; try lia.
    intros j Hj. apply Hallg. lia.
  - intros Hex. rewrite checkInitialBounds_unfold. fold lbx ubx.
    apply existsb_seq_true in Hex. by rewrite Hex.
  - intros Hallx Hex. rewrite checkInitialBounds_unfold. fold lbx ubx lbg ubg.
    apply existsb_seq_false in Hallx. apply existsb_seq_true in Hex.
    by rewrite Hallx, Hex.
  - intros Hallx Hallg. rewrite checkInitialBounds_unfold.
    fold lbx ubx lbg ubg.
    apply existsb_seq_false in Hallx. apply existsb_seq_false in Hallg.
    rewrite Hallx, Hallg. unfold same_but_console.
    destruct (_ && _); eexists; (split; [reflexivity|]); by destruct st.
Qed.

Lemma bound_checks_witness :
  checkInputs crossed_bounds_solver =
    (Throw (lbx_violated_text 1 2%float 1%float), crossed_bounds_solver) /\
  names_index (lbx_violated_text 1 2%float 1%float) 1 /\
  checkInitialBounds crossed_bounds_solver =
    (Throw [MTxt "Ill-posed problem detected (x bounds)"], crossed_bounds_solver).
Proof.
  destruct (bound_checks crossed_bounds_solver eq_refl eq_refl)
    as (Hx & _ & _ & Hix & _).
  destruct (Hx 1) as [Hrun Hname].
  - simpl. lia.
  - intros j Hj. assert (j = 0) as -> by lia. reflexivity.
  - reflexivity.
  - split; [exact Hrun|]. split; [exact Hname|].
    apply Hix. exists 1. split; [simpl; lia|reflexivity].
Defined.

(** C2 as stated fails: with both bounds of variable 0 equal to [+inf] the
    lower bound equals [+inf], yet [checkInputs] passes, and the exception
    of [checkInitialBounds] names no index. *)
Lemma infinite_lower_bound_not_located :
  ill_posed (input_ infinite_bounds_solver NLP_SOLVER_LBX)
            (input_ infinite_bounds_solver NLP_SOLVER_UBX) 0 = true /\
  checkInputs infinite_bounds_solver = (Ok tt, infinite_bounds_solver) /\
  exists m,
    checkInitialBounds infinite_bounds_solver = (Throw m, infinite_bounds_solver) /\
    forall i, ~ names_index m i.
Proof.
  split; [reflexivity|]. split; [reflexivity|].
  eexists. split; [reflexivity|].
  intros i Hi. unfold names_index in Hi.
  apply list_elem_of_singleton in Hi. discriminate.
Qed.

(* ================================================================== *)
(** * Frames of the derivative-function manager *)
(* ================================================================== *)

Lemma config_same_refl st : config_same st st.
Proof. by repeat split. Qed.

Lemma config_same_trans st1 st2 st3 :
  config_same st1 st2 -> config_same st2 st3 -> config_same st1 st3.
Proof.
  unfold config_same. intros (?&?&?&?&?&?&?&?) (?&?&?&?&?&?&?&?).
  repeat split; congruence.
Qed.

Lemma arity_stable_refl st : arity_stable st st.
Proof. intros a n Hn. eauto. Qed.

Lemma arity_stable_trans st1 st2 st3 :
  arity_stable st1 st2 -> arity_stable st2 st3 -> arity_stable st1 st3.
Proof.
  intros H12 H23 a n Hn.
  destruct (H12 a n Hn) as (n2 & Hn2 & Hi2 & Ho2).
  destruct (H23 a n2 Hn2) as (n3 & Hn3 & Hi3 & Ho3).
  exists n3. repeat split; congruence.
Qed.

Lemma frame_refl ks st : frame ks st st.
Proof.
  split; [apply config_same_refl|]. split; [done|]. split; [done|].
  apply arity_stable_refl.
Qed.

Lemma frame_trans ks st1 st2 st3 :
  frame ks st1 st2 -> frame ks st2 st3 -> frame ks st1 st3.
Proof.
  intros (Hc & Hs & Hf & Ha) (Hc' & Hs' & Hf' & Ha').
  split; [by eapply config_same_trans|]. split; [|split].
  - intros k Hk. rewrite Hs', Hs; done.
  - intros k Hk. rewrite Hf', Hf; try done. by rewrite Hf.
  - by eapply arity_stable_trans.
Qed.

Lemma frame_mono ks ks' st st' :
  (forall k, k ∈ ks -> k ∈ ks') -> frame ks st st' -> frame ks' st st'.
Proof.
  intros Hsub (Hc & Hs & Hf & Ha).
  split; [done|]. split; [|by split].
  intros k Hk. apply Hs. intros Hin. apply Hk, Hsub, Hin.
Qed.

Lemma frame_nil ks st st' : frame [] st st' -> frame ks st st'.
Proof. apply frame_mono. intros k Hk. by apply elem_of_nil in Hk. Qed.

(** A step that touches the heap and the console only. *)
Lemma frame_heap_console st heap console :
  (forall a n, heap_ st !! a = Some n ->
     exists n', heap !! a = Some n' /\
                fn_nin n' = fn_nin n /\ fn_nout n' = fn_nout n) ->
  frame [] st (set_heap_ heap (set_console_ console st)).
Proof.
  intros Ha. split; [by repeat split|]. split; [done|]. by split.
Qed.

Lemma preserves_ret {S A} (R : S -> S -> Prop) (a : A) :
  (forall s, R s s) -> preserves R (ret a).
Proof. intros Hrefl s r s' [= <- <-]. apply Hrefl. Qed.

Lemma preserves_throw {S A} (R : S -> S -> Prop) (m : message) :
  (forall s, R s s) -> preserves R (@throw S A m).
Proof. intros Hrefl s r s' [= <- <-]. apply Hrefl. Qed.

Lemma preserves_bind {S A B} (R : S -> S -> Prop) (c : M S A) (k : A -> M S B) :
  (forall s1 s2 s3, R s1 s2 -> R s2 s3 -> R s1 s3) ->
  preserves R c -> (forall a, preserves R (k a)) -> preserves R (bind c k).
Proof.
  intros Htrans Hc Hk s r s'. unfold bind.
  destruct (c s) as [[a|m] s1] eqn:Hcs.
  - intros Hks. eapply Htrans; [by eapply Hc|by eapply Hk].
  - intros [= <- <-]. by eapply Hc.
Qed.

(** Reading the state first. *)
Lemma preserves_get_bind {S B} (R : S -> S -> Prop) (k : S -> M S B) :
  (forall s, preserves R (k s)) -> preserves R (bind get k).
Proof. intros Hk s r s'. unfold bind, get. apply Hk. Qed.

Lemma preserves_weaken {S A} (R R' : S -> S -> Prop) (c : M S A) :
  (forall s s', R s s' -> R' s s') -> preserves R c -> preserves R' c.
Proof. intros Hw Hc s r s' Hrun. by eapply Hw, Hc. Qed.

Section manager.
Context `{DerivativeSubstrate}.

Lemma preserves_frame_bind {A B} ks (c : M NlpSolverInternal A)
    (k : A -> M NlpSolverInternal B) :
  preserves (frame ks) c -> (forall a, preserves (frame ks) (k a)) ->
  preserves (frame ks) (bind c k).
Proof. apply preserves_bind, frame_trans. Qed.

Lemma preserves_frame_ret {A} ks (a : A) : preserves (frame ks) (ret a).
Proof. apply preserves_ret, frame_refl. Qed.

Lemma preserves_frame_throw {A} ks m :
  preserves (frame ks) (@throw NlpSolverInternal A m).
Proof. apply preserves_throw, frame_refl. Qed.

Lemma preserves_frame_assert ks b m :
  preserves (frame ks) (@casadi_assert_message NlpSolverInternal b m).
Proof.
  destruct b; [apply preserves_frame_ret|apply preserves_frame_throw].
Qed.

Lemma preserves_log ks msg : preserves (frame ks) (log msg).
Proof.
  apply (preserves_weaken (frame [])); [intros s s'; apply frame_nil|].
  intros st r st'. unfold log, bind, get.
  destruct (verbose_ st); intros [= <- <-]; [|apply frame_refl].
  unfold modify.
  replace (set_console_ (console_ st ++ [[MTxt msg]]) st)
    with (set_heap_ (heap_ st) (set_console_ (console_ st ++ [[MTxt msg]]) st))
    by by destruct st.
  apply frame_heap_console. eauto.
Qed.

Lemma preserves_deref ks f : preserves (frame ks) (deref f).
Proof.
  intros st r st'. unfold deref. destruct f as [a|].
  - unfold bind, get. destruct (heap_ st !! a); intros [= <- <-];
      apply frame_refl.
  - intros [= <- <-]. apply frame_refl.
Qed.

Lemma deref_ok f st a n st' :
  deref f st = (Ok (a, n), st') ->
  f = Some a /\ heap_ st !! a = Some n /\ st' = st.
Proof.
  unfold deref. destruct f as [a'|]; [|discriminate].
  unfold bind, get. destruct (heap_ st !! a') eqn:Hn; [|discriminate].
  by intros [= <- <- <-].
Qed.

Lemma deref_run a n st : heap_ st !! a = Some n -> deref (Some a) st = (Ok (a, n), st).
Proof. intros Hn. unfold deref, bind, get. by rewrite Hn. Qed.

Lemma preserves_update_node ks f upd :
  (forall n, fn_nin (upd n) = fn_nin n /\ fn_nout (upd n) = fn_nout n) ->
  preserves (frame ks) (update_node f upd).
Proof.
  intros Hupd.
  apply (preserves_weaken (frame [])); [intros s s'; apply frame_nil|].
  intros st r st'. unfold update_node, bind at 1.
  destruct (deref f st) as [[[a n]|m] s1] eqn:Hd.
  - apply deref_ok in Hd as (-> & Hn & ->). unfold modify. intros [= <- <-].
    simpl.
    replace (set_heap_ (<[a:=upd n]> (heap_ st)) st)
      with (set_heap_ (<[a:=upd n]> (heap_ st)) (set_console_ (console_ st) st))
      by by destruct st.
    apply frame_heap_console.
    intros a' n' Hn'. destruct (decide (a' = a)) as [->|Hne].
    + exists (upd n). rewrite list_lookup_insert_eq by by eapply lookup_lt_Some.
      assert (n' = n) as -> by congruence. split; [done|apply Hupd].
    + exists n'. by rewrite list_lookup_insert_ne.
  - intros [= <- <-]. eapply preserves_deref, Hd.
Qed.

Lemma preserves_setOption_name ks f name :
  preserves (frame ks) (setOption_name f name).
Proof. by apply preserves_update_node. Qed.

Lemma preserves_setOption_input_scheme ks f sch :
  preserves (frame ks) (setOption_input_scheme f sch).
Proof. by apply preserves_update_node. Qed.

Lemma preserves_setOption_output_scheme ks f sch :
  preserves (frame ks) (setOption_output_scheme f sch).
Proof. by apply preserves_update_node. Qed.

Lemma preserves_Function_init ks f : preserves (frame ks) (Function_init f).
Proof. by apply preserves_update_node. Qed.

Lemma preserves_nIn ks f : preserves (frame ks) (nIn f).
Proof.
  apply preserves_frame_bind; [apply preserves_deref|].
  intros an. apply preserves_frame_ret.
Qed.

Lemma preserves_nOut ks f : preserves (frame ks) (nOut f).
Proof.
  apply preserves_frame_bind; [apply preserves_deref|].
  intros an. apply preserves_frame_ret.
Qed.

Lemma preserves_new_function ks o arity :
  preserves (frame ks) (new_function o arity).
Proof.
  apply (preserves_weaken (frame [])); [intros s s'; apply frame_nil|].
  intros st r st'. unfold new_function, bind, get, put, ret. intros [= <- <-].
  match goal with
  | |- frame [] st (set_heap_ ?h st) =>
      replace (set_heap_ h st)
        with (set_heap_ h (set_console_ (console_ st) st)) by by destruct st
  end.
  apply frame_heap_console. intros a n Hn. exists n.
  by rewrite lookup_app_l by by eapply lookup_lt_Some.
Qed.

Lemma preserves_Function_gradient ks f iind oind :
  preserves (frame ks) (Function_gradient f iind oind).
Proof.
  apply preserves_frame_bind; [apply preserves_deref|].
  intros an. apply preserves_new_function.
Qed.

Lemma preserves_Function_jacobian ks f iind oind compact symmetric :
  preserves (frame ks) (Function_jacobian f iind oind compact symmetric).
Proof.
  apply preserves_frame_bind; [apply preserves_deref|].
  intros an. apply preserves_new_function.
Qed.

Lemma preserves_Function_derivative ks f nfwd nadj :
  preserves (frame ks) (Function_derivative f nfwd nadj).
Proof.
  apply preserves_frame_bind; [apply preserves_deref|].
  intros an. apply preserves_new_function.
Qed.

Lemma preserves_Function_jacSparsity ks f iind oind compact symmetric :
  preserves (frame ks) (Function_jacSparsity f iind oind compact symmetric).
Proof.
  apply preserves_frame_bind; [apply preserves_deref|].
  intros an. apply preserves_frame_ret.
Qed.

Lemma preserves_getOption_Function ks name :
  preserves (frame ks) (getOption_Function name).
Proof.
  intros st r st'. unfold getOption_Function, bind, get.
  destruct (dictionary_ st !! name); intros [= <- <-]; apply frame_refl.
Qed.

Ltac frame_step :=
  lazymatch goal with
  | |- preserves _ (bind get _) => apply preserves_get_bind; intros ?
  | |- preserves _ (bind _ _) => apply preserves_frame_bind; [|intros ?]
  | |- preserves _ (ret _) => apply preserves_frame_ret
  | |- preserves _ (throw _) => apply preserves_frame_throw
  | |- preserves _ (casadi_assert_message _ _) => apply preserves_frame_assert
  | |- preserves _ (log _) => apply preserves_log
  | |- preserves _ (setOption_name _ _) => apply preserves_setOption_name
  | |- preserves _ (setOption_input_scheme _ _) =>
      apply preserves_setOption_input_scheme
  | |- preserves _ (setOption_output_scheme _ _) =>
      apply preserves_setOption_output_scheme
  | |- preserves _ (Function_init _) => apply preserves_Function_init
  | |- preserves _ (nIn _) => apply preserves_nIn
  | |- preserves _ (nOut _) => apply preserves_nOut
  | |- preserves _ (Function_gradient _ _ _) => apply preserves_Function_gradient
  | |- preserves _ (Function_jacobian _ _ _ _ _) =>
      apply preserves_Function_jacobian
  | |- preserves _ (Function_derivative _ _ _) =>
      apply preserves_Function_derivative
  | |- preserves _ (Function_jacSparsity _ _ _ _ _) =>
      apply preserves_Function_jacSparsity
  | |- preserves _ (getOption_Function _) => apply preserves_getOption_Function
  | |- preserves _ (if ?b then _ else _) => destruct b
  end.

Lemma preserves_check_signature ks f name num_in num_out tin tout sin sout done :
  preserves (frame ks)
    (check_signature f name num_in num_out tin tout sin sout done).
Proof. unfold check_signature. repeat frame_step. Qed.

Lemma preserves_getGradF ks : preserves (frame ks) getGradF.
Proof. unfold getGradF. repeat frame_step. Qed.

Lemma preserves_getJacF ks : preserves (frame ks) getJacF.
Proof. unfold getJacF. repeat frame_step. Qed.

Lemma preserves_getJacG ks : preserves (frame ks) getJacG.
Proof. unfold getJacG. repeat frame_step. Qed.

Lemma preserves_getGradLag ks : preserves (frame ks) getGradLag.
Proof. unfold getGradLag. repeat frame_step. Qed.

(** The accessor of a kind returns the content of a filled slot, and fills
    an empty slot with what the getter returns. *)
Lemma access_lazy k st :
  access k st =
    if cached_null (slot k st)
    then match getter k st with
         | (Ok c, st') => (Ok c, set_slot k c st')
         | (Throw m, st') => (Throw m, st')
         end
    else (Ok (slot k st), st).
Proof.
  destruct k; unfold access, getter, slot, cached_null;
    [unfold gradF|unfold jacF|unfold jacG|unfold gradLag|unfold hessLag
    |unfold spHessLag];
    unfold bind, get, modify, ret; simpl.
  - destruct (gradF_ st) eqn:Hs; simpl; rewrite ?Hs; [done|].
    by destruct (getGradF st) as [[f|m] st'].
  - destruct (jacF_ st) eqn:Hs; simpl; rewrite ?Hs; [done|].
    by destruct (getJacF st) as [[f|m] st'].
  - destruct (jacG_ st) eqn:Hs; simpl; rewrite ?Hs; [done|].
    by destruct (getJacG st) as [[f|m] st'].
  - destruct (gradLag_ st) eqn:Hs; simpl; rewrite ?Hs; [done|].
    by destruct (getGradLag st) as [[f|m] st'].
  - destruct (hessLag_ st) eqn:Hs; simpl; rewrite ?Hs; [done|].
    by destruct (getHessLag st) as [[f|m] st'].
  - destruct (spHessLag_ st) eqn:Hs; simpl; rewrite ?Hs; [done|].
    by destruct (getSpHessLag st) as [[f|m] st'].
Qed.

Lemma getter_result k st c st' :
  getter k st = (Ok c, st') -> slot k (set_slot k c st') = c.
Proof.
  destruct k; unfold getter; intros Hrun;
    apply bind_inv_ok in Hrun as (f & s1 & _ & [= <- <-]); reflexivity.
Qed.

Lemma frame_set_slot k c st :
  cached_null (slot k st) = true -> frame [k] st (set_slot k c st).
Proof.
  intros Hnull. split; [by destruct k, c|]. split; [|split].
  - intros k' Hk'. assert (k' <> k) by (intros ->; apply Hk'; left).
    by destruct k, c, k'.
  - intros k' Hk'. destruct (decide (k' = k)) as [->|Hne]; [congruence|].
    by destruct k, c, k'.
  - intros a n Hn. exists n. by destruct k, c.
Qed.

(** If the getter of a kind keeps the frame of [ks], the accessor keeps the
    frame of [k :: ks]. *)
Lemma preserves_access k ks :
  k ∉ ks -> preserves (frame ks) (getter k) ->
  preserves (frame (k :: ks)) (access k).
Proof.
  intros Hk Hget st r st'. rewrite access_lazy.
  destruct (cached_null (slot k st)) eqn:Hnull; [|intros [= <- <-]; apply frame_refl].
  destruct (getter k st) as [[c|m] s1] eqn:Hrun.
  - intros [= <- <-]. pose proof (Hget _ _ _ Hrun) as Hf.
    eapply frame_trans.
    + eapply frame_mono; [|exact Hf]. intros k0 Hk0. by right.
    + eapply frame_mono; [|apply frame_set_slot].
      * intros k0 Hk0. apply list_elem_of_singleton in Hk0 as ->. left.
      * destruct Hf as (_ & Hs & _). by rewrite Hs.
  - intros [= <- <-]. eapply frame_mono; [|by eapply Hget].
    intros k0 Hk0. by right.
Qed.

Lemma preserves_getter_basic k ks :
  k = KGradF \/ k = KJacF \/ k = KJacG \/ k = KGradLag ->
  preserves (frame ks) (getter k).
Proof.
  intros [->|[->|[->| ->]]]; unfold getter;
    (apply preserves_frame_bind; [|intros f; apply preserves_frame_ret]).
  - apply preserves_getGradF.
  - apply preserves_getJacF.
  - apply preserves_getJacG.
  - apply preserves_getGradLag.
Qed.

Lemma preserves_gradLag : preserves (frame [KGradLag]) gradLag.
Proof.
  intros st r st' Hrun.
  apply (preserves_access KGradLag [] (not_elem_of_nil _)
           (preserves_getter_basic KGradLag [] ltac:(tauto)) st
           (match r with Ok f => Ok (CFunction f) | Throw m => Throw m end)).
  unfold access, bind. rewrite Hrun. by destruct r.
Qed.

Lemma preserves_getHessLag : preserves (frame [KGradLag]) getHessLag.
Proof.
  unfold getHessLag. repeat frame_step. apply preserves_gradLag.
Qed.

Lemma preserves_getSpHessLag : preserves (frame [KGradLag]) getSpHessLag.
Proof.
  unfold getSpHessLag. repeat frame_step. apply preserves_gradLag.
Qed.

(** The frame of each accessor. *)
Lemma preserves_access_may_fill k : preserves (frame (may_fill k)) (access k).
Proof.
  destruct k; simpl;
    try (apply preserves_access; [apply not_elem_of_nil|];
         apply preserves_getter_basic; tauto).
  - apply preserves_access;
      [apply not_elem_of_cons; split; [discriminate|apply not_elem_of_nil]|].
    unfold getter.
    apply preserves_frame_bind; [apply preserves_getHessLag|].
    intros f. apply preserves_frame_ret.
  - apply preserves_access;
      [apply not_elem_of_cons; split; [discriminate|apply not_elem_of_nil]|].
    unfold getter.
    apply preserves_frame_bind; [apply preserves_getSpHessLag|].
    intros f. apply preserves_frame_ret.
Qed.

(* ================================================================== *)
(** * The signature check *)
(* ================================================================== *)

Lemma casadi_assert_message_ok {S} b m (s s' : S) :
  casadi_assert_message b m s = (Ok tt, s') -> b = true /\ s' = s.
Proof. destruct b; [by intros [= <-]|discriminate]. Qed.

Lemma update_node_ok f upd st st' :
  update_node f upd st = (Ok tt, st') -> exists a, f = Some a.
Proof.
  unfold update_node. intros Hrun.
  apply bind_inv_ok in Hrun as ([a n] & s1 & Hd & _).
  apply deref_ok in Hd as (-> & _). eauto.
Qed.

Lemma update_node_run a n upd st :
  heap_ st !! a = Some n ->
  update_node (Some a) upd st =
    (Ok tt, set_heap_ (<[a := upd n]> (heap_ st)) st).
Proof.
  intros Hn. unfold update_node. by erewrite bind_ok; [|by apply deref_run].
Qed.

Lemma nIn_ok f st n st' :
  nIn f st = (Ok n, st') ->
  exists a node, f = Some a /\ heap_ st !! a = Some node /\
                 n = fn_nin node /\ st' = st.
Proof.
  unfold nIn. intros Hrun.
  apply bind_inv_ok in Hrun as ([a node] & s1 & Hd & [= <- <-]).
  apply deref_ok in Hd as (-> & Hn & ->). eauto 6.
Qed.

Lemma nOut_ok f st n st' :
  nOut f st = (Ok n, st') ->
  exists a node, f = Some a /\ heap_ st !! a = Some node /\
                 n = fn_nout node /\ st' = st.
Proof.
  unfold nOut. intros Hrun.
  apply bind_inv_ok in Hrun as ([a node] & s1 & Hd & [= <- <-]).
  apply deref_ok in Hd as (-> & Hn & ->). eauto 6.
Qed.

(** A candidate that passes the check has the numbers of inputs and outputs
    it is checked against, and is what the check returns. *)
Lemma check_signature_ok f name num_in num_out tin tout sin sout done st r st' :
  check_signature f name num_in num_out tin tout sin sout done st = (Ok r, st') ->
  r = f /\
  exists a n, f = Some a /\ heap_ st' !! a = Some n /\
              fn_nin n = num_in /\ fn_nout n = num_out.
Proof.
  unfold check_signature. intros Hrun.
  apply bind_inv_ok in Hrun as ([] & s1 & _ & Hrun).
  apply bind_inv_ok in Hrun as ([] & s2 & _ & Hrun).
  apply bind_inv_ok in Hrun as (n1 & s3 & Hin & Hrun).
  apply bind_inv_ok in Hrun as ([] & s4 & Hain & Hrun).
  apply bind_inv_ok in Hrun as (n2 & s5 & Hout & Hrun).
  apply bind_inv_ok in Hrun as ([] & s6 & Haout & Hrun).
  apply nIn_ok in Hin as (a & node & -> & Hnode & -> & ->).
  apply casadi_assert_message_ok in Hain as [Hein ->].
  apply nOut_ok in Hout as (a' & node' & [= <-] & Hnode' & -> & ->).
  apply casadi_assert_message_ok in Haout as [Heout ->].
  assert (node' = node) as -> by congruence.
  apply Nat.eqb_eq in Hein, Heout.
  assert (preserves (frame [])
            (setOption_input_scheme (Some a) sin ;;;
             setOption_output_scheme (Some a) sout ;;;
             log done ;;; ret (Some a))) as Hp by repeat frame_step.
  pose proof Hrun as Hr.
  apply Hp in Hrun as (_ & _ & _ & Hstable).
  destruct (Hstable a node Hnode) as (n' & Hn' & Hi' & Ho').
  apply bind_inv_ok in Hr as ([] & s7 & _ & Hr).
  apply bind_inv_ok in Hr as ([] & s8 & _ & Hr).
  apply bind_inv_ok in Hr as ([] & s9 & _ & [= <- <-]).
  split; [done|]. exists a, n'. repeat split; congruence.
Qed.

(** A candidate with a wrong number of inputs, or of outputs, makes the
    check throw the text of the failed assertion. *)
Lemma check_signature_throw a n name num_in num_out tin tout sin sout done st :
  heap_ st !! a = Some n ->
  (fn_nin n <> num_in ->
   exists st', check_signature (Some a) name num_in num_out tin tout sin sout done st
               = (Throw tin, st')) /\
  (fn_nin n = num_in -> fn_nout n <> num_out ->
   exists st', check_signature (Some a) name num_in num_out tin tout sin sout done st
               = (Throw tout, st')).
Proof.
  intros Hn. unfold check_signature.
  erewrite bind_ok; [|by apply update_node_run].
  assert (Hlt : a < length (heap_ st)) by by eapply lookup_lt_Some.
  erewrite bind_ok; cycle 1.
  { apply update_node_run. simpl. by apply list_lookup_insert_eq. }
  set (st2 := set_heap_ _ _).
  assert (Hn2 : heap_ st2 !! a = Some (initialized (with_name name n))).
  { unfold st2. simpl. apply list_lookup_insert_eq.
    by rewrite length_insert. }
  assert (Hin : nIn (Some a) st2 = (Ok (fn_nin n), st2)).
  { unfold nIn. by erewrite bind_ok; [|by apply deref_run]. }
  assert (Hout : nOut (Some a) st2 = (Ok (fn_nout n), st2)).
  { unfold nOut. by erewrite bind_ok; [|by apply deref_run]. }
  erewrite bind_ok; [|exact Hin]. split.
  - intros Hne. apply Nat.eqb_neq in Hne. rewrite Hne. simpl.
    exists st2. by erewrite bind_throw.
  - intros Heq Hne. apply Nat.eqb_eq in Heq. rewrite Heq. simpl.
    erewrite bind_ok; [|reflexivity]. erewrite bind_ok; [|exact Hout].
    apply Nat.eqb_neq in Hne. rewrite Hne. simpl.
    exists st2. by erewrite bind_throw.
Qed.

(* ================================================================== *)
(** * The getters, as candidate and check *)
(* ================================================================== *)

Lemma bind_assoc {S A B C} (c : M S A) (k1 : A -> M S B) (k2 : B -> M S C) s :
  bind (bind c k1) k2 s = bind c (fun a => bind (k1 a) k2) s.
Proof. unfold bind. by destruct (c s) as [[a|m] s']. Qed.

Lemma bind_cong {S A B} (c c' : M S A) (k : A -> M S B) s :
  c s = c' s -> bind c k s = bind c' k s.
Proof. intros Heq. unfold bind. by rewrite Heq. Qed.

Lemma getGradF_split st :
  getGradF st = (c <- candidate KGradF ;; finish KGradF c) st.
Proof. unfold candidate. by rewrite bind_assoc. Qed.

Lemma getJacF_split st :
  getJacF st = (c <- candidate KJacF ;; finish KJacF c) st.
Proof. unfold candidate. by rewrite bind_assoc. Qed.

Lemma getJacG_split st :
  getJacG st =
    if ng_ st =? 0 then (Ok None, st)
    else (c <- candidate KJacG ;; finish KJacG c) st.
Proof.
  unfold candidate. rewrite bind_assoc. unfold getJacG, bind at 1 6, get.
  by destruct (ng_ st =? 0).
Qed.

Lemma getGradLag_split st :
  getGradLag st = (c <- candidate KGradLag ;; finish KGradLag c) st.
Proof. unfold candidate. by rewrite bind_assoc. Qed.

Lemma getHessLag_split st :
  getHessLag st = (c <- candidate KHessLag ;; finish KHessLag c) st.
Proof. unfold candidate. by rewrite bind_assoc. Qed.

Lemma getter_split k st :
  k <> KSpHessLag -> (k = KJacG -> ng_ st <> 0) ->
  getter k st = (c <- candidate k ;; f <- finish k c ;; ret (CFunction f)) st.
Proof.
  intros Hk Hng. rewrite <- bind_assoc.
  destruct k; unfold getter;
    [apply bind_cong, getGradF_split
    |apply bind_cong, getJacF_split
    |apply bind_cong
    |apply bind_cong, getGradLag_split
    |apply bind_cong, getHessLag_split
    |done].
  rewrite getJacG_split. specialize (Hng eq_refl).
  apply Nat.eqb_neq in Hng. by rewrite Hng.
Qed.

Lemma finish_ok k f st r st' :
  k <> KSpHessLag ->
  finish k f st = (Ok r, st') ->
  r = f /\
  exists a, f = Some a /\
    forall num_in num_out, expected_arity k = Some (num_in, num_out) ->
      exists n, heap_ st' !! a = Some n /\
                fn_nin n = num_in /\ fn_nout n = num_out.
Proof.
  intros Hk Hrun.
  destruct k; try done; simpl in Hrun;
    try (apply check_signature_ok in Hrun as (-> & a & n & -> & Hn & Hi & Ho);
         split; [done|]; exists a; split; [done|];
         intros num_in num_out [= <- <-]; eauto).
  apply bind_inv_ok in Hrun as ([] & s1 & Hname & Hrun).
  apply bind_inv_ok in Hrun as ([] & s2 & _ & Hrun).
  apply bind_inv_ok in Hrun as ([] & s3 & _ & [= <- <-]).
  apply update_node_ok in Hname as [a ->].
  split; [done|]. exists a. split; [done|]. discriminate.
Qed.

Lemma finish_throw k a n num_in num_out st :
  expected_arity k = Some (num_in, num_out) ->
  heap_ st !! a = Some n ->
  (fn_nin n <> num_in ->
   exists st', finish k (Some a) st = (Throw (inputs_text k), st')) /\
  (fn_nin n = num_in -> fn_nout n <> num_out ->
   exists st', finish k (Some a) st = (Throw (outputs_text k), st')).
Proof.
  intros Hexp Hn.
  destruct k; try discriminate; injection Hexp as <- <-; simpl;
    by apply check_signature_throw.
Qed.

Lemma heap_set_slot k c st : heap_ (set_slot k c st) = heap_ st.
Proof. by destruct k, c. Qed.

(** What a getter returns: a null function only for the constraint Jacobian
    of a problem without constraints, and otherwise the candidate, which
    has passed the check of the kind. *)
Lemma getter_ok k st c st' :
  getter k st = (Ok c, st') ->
  (cached_null c = true -> k = KJacG /\ ng_ st = 0 /\ st' = st) /\
  (cached_null c = false -> k <> KSpHessLag ->
   exists a s1,
     c = CFunction (Some a) /\ candidate k st = (Ok (Some a), s1) /\
     forall num_in num_out, expected_arity k = Some (num_in, num_out) ->
       exists n, heap_ st' !! a = Some n /\
                 fn_nin n = num_in /\ fn_nout n = num_out).
Proof.
  intros Hrun.
  destruct (decide (k = KSpHessLag)) as [->|Hk].
  { unfold getter, getSpHessLag in Hrun.
    apply bind_inv_ok in Hrun as (sp & s1 & Hrun & [= <- <-]).
    apply bind_inv_ok in Hrun as (g & s2 & _ & Hrun).
    apply bind_inv_ok in Hrun as ([] & s3 & _ & Hrun).
    apply bind_inv_ok in Hrun as (sp' & s4 & Hsp & Hrun).
    apply bind_inv_ok in Hrun as ([] & s5 & _ & [= <- <-]).
    unfold Function_jacSparsity in Hsp.
    apply bind_inv_ok in Hsp as (an & s6 & _ & [= <- <-]). done. }
  destruct (decide (k = KJacG /\ ng_ st = 0)) as [[-> Hng]|Hng].
  { unfold getter in Hrun. apply bind_inv_ok in Hrun as (f & s1 & Hrun & [= <- <-]).
    rewrite getJacG_split, Hng in Hrun. simpl in Hrun.
    injection Hrun as <- <-. done. }
  rewrite getter_split in Hrun; [|done|tauto].
  apply bind_inv_ok in Hrun as (cnd & s1 & Hcand & Hrun).
  apply bind_inv_ok in Hrun as (f & s2 & Hfin & [= <- <-]).
  apply finish_ok in Hfin as (-> & a & -> & Harity); [|done].
  split; [done|]. intros _ _. eauto 6.
Qed.

Lemma set_slot_null_same k c st :
  cached_null (slot k st) = true -> cached_null c = true ->
  slot k (set_slot k c st) = c -> set_slot k c st = st.
Proof.
  destruct k, c as [[a|]|[sp|]]; simpl; try discriminate;
    intros Hnull _ _; destruct st; simpl in *;
    match goal with
    | H : isNull ?x = true |- _ => destruct x; [discriminate|reflexivity]
    end.
Qed.

(** What an accessor returns is in the slot afterwards, and only the
    constraint Jacobian can be null. *)
Lemma access_stores k st c st1 :
  access k st = (Ok c, st1) ->
  slot k st1 = c /\ (cached_null c = true -> k = KJacG).
Proof.
  rewrite access_lazy.
  destruct (cached_null (slot k st)) eqn:Hnull.
  - destruct (getter k st) as [[c'|m] s1] eqn:Hget; [|discriminate].
    intros [= <- <-]. split; [by eapply getter_result|].
    intros Hc. destruct (getter_ok _ _ _ _ Hget) as [Hn _].
    by destruct (Hn Hc) as (-> & _).
  - intros [= <- <-]. split; [done|]. congruence.
Qed.

(** The constraint Jacobian of a problem without constraints: as long as
    its slot is empty, the accessor returns the null function and leaves
    the whole solver as it was, whatever the options hold. *)
Lemma access_jacG_unconstrained st :
  ng_ st = 0 -> cached_null (slot KJacG st) = true ->
  access KJacG st = (Ok (CFunction None), st).
Proof.
  intros Hng Hnull. rewrite access_lazy, Hnull.
  assert (Hget : getter KJacG st = (Ok (CFunction None), st)).
  { unfold getter. erewrite bind_ok; [reflexivity|].
    by rewrite getJacG_split, Hng. }
  rewrite Hget. f_equal. by apply set_slot_null_same.
Qed.

(** The amended C3.  A call of the accessor of a kind that returns has put
    what it returns into the slot of the kind, and a second call returns the
    same object and leaves the whole solver as it is: nothing is built or
    checked again.  The object is the candidate (the configured override, or
    the function built by default) after it has passed the check of the
    kind; the only exception is the constraint Jacobian of a problem
    without constraints.  For that one, on an empty slot, every call
    returns the null function and leaves the solver as it was, also when an
    override [jac_g] is configured: the override is not taken, nothing is
    built, nothing is stored, and the slot stays empty. *)
Theorem derivative_cache_memoization k st :
  (forall c st1, access k st = (Ok c, st1) ->
     slot k st1 = c /\
     access k st1 = (Ok c, st1) /\
     (cached_null c = true -> k = KJacG /\ ng_ st = 0 /\ st1 = st) /\
     (cached_null (slot k st) = true -> cached_null c = false ->
      k <> KSpHessLag ->
      exists a s1, c = CFunction (Some a) /\ candidate k st = (Ok (Some a), s1))) /\
  (k = KJacG -> ng_ st = 0 -> cached_null (slot k st) = true ->
   access k st = (Ok (CFunction None), st)).
Proof.
  split.
  - intros c st1. rewrite access_lazy.
    destruct (cached_null (slot k st)) eqn:Hnull.
    + destruct (getter k st) as [[c'|m] s1] eqn:Hget; [|discriminate].
      intros [= <- <-]. pose proof (getter_result _ _ _ _ Hget) as Hslot.
      destruct (getter_ok _ _ _ _ Hget) as [Hn Hf].
      split; [done|].
      assert (cached_null c' = true ->
              k = KJacG /\ ng_ st = 0 /\ set_slot k c' s1 = st) as Hnull'.
      { intros Hc. destruct (Hn Hc) as (-> & Hng & ->).
        repeat split; try done. by apply set_slot_null_same. }
      split; [|split; [done|]].
      * rewrite access_lazy, Hslot.
        destruct (cached_null c') eqn:Hc; [|done].
        destruct (Hnull' eq_refl) as (_ & _ & Heq). by rewrite Heq, Hget, Heq.
      * intros _ Hc Hk. destruct (Hf Hc Hk) as (a & s2 & -> & Hcand & _). eauto.
    + intros [= <- <-]. split; [done|].
      split; [|split; intros; congruence].
      by rewrite access_lazy, Hnull.
  - intros -> Hng Hnull. by apply access_jacG_unconstrained.
Qed.

(** The statements of [getGradLag] that follow the choice of the
    candidate, run on a candidate that is a function object: it is renamed
    and initialised, and returned whatever its numbers of inputs and of
    outputs. *)
Lemma finish_gradLag_accepts a n st :
  heap_ st !! a = Some n ->
  exists st',
    finish KGradLag (Some a) st = (Ok (Some a), st') /\
    heap_ st' = <[a := initialized (with_name "grad_lag" n)]> (heap_ st) /\
    forall k, slot k st' = slot k st.
Proof.
  intros Hn. simpl.
  assert (Hlt : a < length (heap_ st)) by by eapply lookup_lt_Some.
  erewrite bind_ok; [|by apply update_node_run].
  erewrite bind_ok; cycle 1.
  { apply update_node_run. simpl. by apply list_lookup_insert_eq. }
  unfold log, bind, get, modify, ret. simpl.
  destruct (verbose_ st); simpl; eexists; (split; [reflexivity|]);
    simpl; rewrite list_insert_insert_eq; (split; [done|]);
    intros k; by destruct k.
Qed.

(** The amended C4.  For the objective gradient, the objective Jacobian, the
    constraint Jacobian (of a problem with constraints) and the Lagrangian
    Hessian, the candidate, built by default or supplied, is checked when
    the slot is filled: a function that the accessor returns has the numbers
    of inputs and of outputs fixed for the kind, and a candidate with
    another number of inputs or of outputs makes the accessor throw.  The
    text thrown says which of the two numbers is wrong and names no
    number.  The Lagrangian gradient has no numbers fixed for it and is not
    checked: a candidate that is a function object, built by default or
    supplied, is returned and stored whatever its numbers of inputs and of
    outputs, which are left as they are; a candidate that is no function
    object (a null handle) makes the accessor throw. *)
Theorem signature_validation k st :
  cached_null (slot k st) = true ->
  (k = KJacG -> ng_ st <> 0) ->
  (forall num_in num_out, expected_arity k = Some (num_in, num_out) ->
     (forall c st1, access k st = (Ok c, st1) ->
        exists a n, c = CFunction (Some a) /\ heap_ st1 !! a = Some n /\
                    fn_nin n = num_in /\ fn_nout n = num_out) /\
     (forall a s1 n, candidate k st = (Ok (Some a), s1) -> heap_ s1 !! a = Some n ->
        (fn_nin n <> num_in ->
         exists st1, access k st = (Throw (inputs_text k), st1)) /\
        (fn_nin n = num_in -> fn_nout n <> num_out ->
         exists st1, access k st = (Throw (outputs_text k), st1))) /\
     (forall i, ~ names_index (inputs_text k) i /\ ~ names_index (outputs_text k) i)) /\
  (k = KGradLag ->
     expected_arity k = None /\
     (forall a s1 n, candidate k st = (Ok (Some a), s1) -> heap_ s1 !! a = Some n ->
        exists st1 n1,
          access k st = (Ok (CFunction (Some a)), st1) /\
          slot k st1 = CFunction (Some a) /\
          heap_ st1 !! a = Some n1 /\
          fn_nin n1 = fn_nin n /\ fn_nout n1 = fn_nout n) /\
     (forall s1, candidate k st = (Ok None, s1) ->
        exists m st1, access k st = (Throw m, st1))).
Proof.
  intros Hnull Hng. split.
  - intros num_in num_out Hexp.
    assert (Hk : k <> KSpHessLag) by (intros ->; discriminate).
    split; [|split].
    + intros c st1. rewrite access_lazy, Hnull.
      destruct (getter k st) as [[c'|m] s1] eqn:Hget; [|discriminate].
      intros [= <- <-]. destruct (getter_ok _ _ _ _ Hget) as [Hn Hf].
      destruct (cached_null c') eqn:Hc.
      { destruct (Hn eq_refl) as (-> & Hz & _). by destruct (Hng eq_refl). }
      destruct (Hf eq_refl Hk) as (a & s2 & -> & _ & Harity).
      destruct (Harity _ _ Hexp) as (n & Hheap & Hi & Ho).
      exists a, n. by rewrite heap_set_slot.
    + intros a s1 n Hcand Hheap.
      assert (Hget : forall text st1,
                finish k (Some a) s1 = (Throw text, st1) ->
                access k st = (Throw text, st1)).
      { intros text st1 Hfin. rewrite access_lazy, Hnull, getter_split by done.
        erewrite bind_ok; [|exact Hcand]. by erewrite bind_throw. }
      destruct (finish_throw k a n num_in num_out s1 Hexp Hheap) as [Hin Hout].
      split.
      * intros Hne. destruct (Hin Hne) as [st1 Hthrow]. eauto.
      * intros Heq Hne. destruct (Hout Heq Hne) as [st1 Hthrow]. eauto.
    + intros i. unfold names_index.
      destruct k; try discriminate; split; intros Hin;
        apply list_elem_of_singleton in Hin; discriminate.
  - intros ->. split; [reflexivity|]. split.
    + intros a s1 n Hcand Hheap.
      destruct (finish_gradLag_accepts a n s1 Hheap) as (s2 & Hfin & Hheap2 & Hslots).
      exists (set_slot KGradLag (CFunction (Some a)) s2),
             (initialized (with_name "grad_lag" n)).
      split; [|split; [done|split; [|done]]].
      * rewrite access_lazy, Hnull, getter_split by done.
        erewrite bind_ok; [|exact Hcand].
        erewrite bind_ok; [|exact Hfin]. reflexivity.
      * rewrite heap_set_slot, Hheap2. apply list_lookup_insert_eq.
        by eapply lookup_lt_Some.
    + intros s1 Hcand. do 2 eexists.
      rewrite access_lazy, Hnull, getter_split by done.
      erewrite bind_ok; [|exact Hcand].
      erewrite bind_throw; [reflexivity|].
      simpl. erewrite bind_throw; [reflexivity|].
      unfold setOption_name, update_node. erewrite bind_throw; reflexivity.
Qed.

Lemma access_hessLag_override st r st1 :
  hasSetOption "hess_lag" st = true ->
  access KHessLag st = (r, st1) -> frame [KHessLag] st st1.
Proof.
  intros Hopt. rewrite access_lazy.
  destruct (cached_null (slot KHessLag st)) eqn:Hnull;
    [|intros [= <- <-]; apply frame_refl].
  assert (preserves (frame [])
            (c <- getOption_Function "hess_lag" ;;
             f <- finish KHessLag c ;; ret (CFunction f))) as Hp.
  { unfold finish, check_signature. repeat frame_step. }
  assert (getter KHessLag st =
            (c <- getOption_Function "hess_lag" ;;
             f <- finish KHessLag c ;; ret (CFunction f)) st) as Hget.
  { rewrite getter_split by done. apply bind_cong.
    unfold candidate, bind, get. by rewrite Hopt. }
  destruct (getter KHessLag st) as [[c|m] s1] eqn:Hrun; intros [= <- <-];
    symmetry in Hget; apply Hp in Hget.
  - eapply frame_trans; [by apply frame_nil|].
    apply (frame_set_slot KHessLag c s1). destruct Hget as (_ & Hs & _).
    rewrite Hs; [done|apply not_elem_of_nil].
  - by apply frame_nil.
Qed.

Lemma candidate_hessLag_default st :
  hasSetOption "hess_lag" st = false ->
  candidate KHessLag st =
    (gradLag <- gradLag ;;
     log "Generating Hessian of the Lagrangian" ;;;
     h <- Function_jacobian gradLag NL_X (NL_NUM_OUT + NL_X) false true ;;
     log "Hessian function generated" ;;;
     ret h) st.
Proof. intros Hopt. unfold candidate, bind at 1, get. by rewrite Hopt. Qed.

Lemma gradLag_fills st g s0 :
  gradLag st = (Ok g, s0) -> cached_null (slot KGradLag s0) = false.
Proof.
  intros Hrun.
  assert (access KGradLag st = (Ok (CFunction g), s0)) as Hacc.
  { unfold access. by erewrite bind_ok. }
  apply access_stores in Hacc as [Hslot Hnull].
  rewrite Hslot. apply not_true_iff_false. intros Hn.
  by specialize (Hnull Hn).
Qed.

Lemma access_fills_gradLag k st c st1 :
  (k = KHessLag /\ hasSetOption "hess_lag" st = false) \/ k = KSpHessLag ->
  cached_null (slot k st) = true ->
  access k st = (Ok c, st1) ->
  cached_null (slot KGradLag st1) = false.
Proof.
  intros Hk Hnull. rewrite access_lazy, Hnull.
  destruct (getter k st) as [[c'|m] s1] eqn:Hget; [|discriminate].
  intros [= <- <-].
  assert (cached_null (slot KGradLag s1) = false) as Hfilled.
  { destruct Hk as [[-> Hopt]| ->].
    - rewrite getter_split in Hget by done.
      apply bind_inv_ok in Hget as (cnd & s2 & Hcand & Hfin).
      rewrite candidate_hessLag_default in Hcand by done.
      apply bind_inv_ok in Hcand as (g & s0 & Hlag & Hrest).
      apply gradLag_fills in Hlag.
      match type of Hrest with
      | ?C s0 = _ =>
          assert (preserves (frame []) C) as Hp by repeat frame_step
      end.
      match type of Hfin with
      | ?C s2 = _ =>
          assert (preserves (frame []) C) as Hp'
            by (unfold finish, check_signature; repeat frame_step)
      end.
      apply Hp in Hrest as (_ & _ & Hf & _).
      apply Hp' in Hfin as (_ & _ & Hf' & _).
      rewrite Hf', Hf; try done. by rewrite Hf.
    - unfold getter in Hget.
      apply bind_inv_ok in Hget as (sp & s2 & Hsp & [= <- <-]).
      unfold getSpHessLag in Hsp.
      apply bind_inv_ok in Hsp as (g & s0 & Hlag & Hrest).
      apply gradLag_fills in Hlag.
      match type of Hrest with
      | ?C s0 = _ =>
          assert (preserves (frame []) C) as Hp by repeat frame_step
      end.
      apply Hp in Hrest as (_ & _ & Hf & _). by rewrite Hf. }
  destruct Hk as [[-> _]| ->]; by destruct c'.
Qed.

(** The amended C9.  The accessor of a kind leaves the slot of every other
    kind as it was, except that the accessors of the Lagrangian Hessian
    (when no override [hess_lag] is set) and of the Hessian sparsity obtain
    the Lagrangian gradient through its own accessor, and so leave the slot
    of the Lagrangian gradient filled.  No accessor changes a slot that is
    filled. *)
Theorem accessor_frame k st r st1 :
  access k st = (r, st1) ->
  (forall k', k' <> k ->
     (k' = KGradLag -> k <> KHessLag /\ k <> KSpHessLag) ->
     slot k' st1 = slot k' st) /\
  (forall k', cached_null (slot k' st) = false -> slot k' st1 = slot k' st) /\
  (k = KHessLag -> hasSetOption "hess_lag" st = true ->
   slot KGradLag st1 = slot KGradLag st) /\
  ((k = KHessLag /\ hasSetOption "hess_lag" st = false) \/ k = KSpHessLag ->
   cached_null (slot k st) = true -> is_ok r = true ->
   cached_null (slot KGradLag st1) = false).
Proof.
  intros Hrun.
  pose proof (preserves_access_may_fill k _ _ _ Hrun) as (_ & Hs & Hf & _).
  split; [|split; [done|split]].
  - intros k' Hne Hlag. apply Hs. intros Hin.
    destruct k; simpl in Hin;
      repeat (apply elem_of_cons in Hin as [Hin|Hin]; [try congruence|]);
      try (by apply elem_of_nil in Hin); subst k'; destruct (Hlag eq_refl);
      congruence.
  - intros -> Hopt.
    destruct (access_hessLag_override _ _ _ Hopt Hrun) as (_ & Hs' & _).
    apply Hs'. apply not_elem_of_cons. split; [discriminate|apply not_elem_of_nil].
  - intros Hk Hnull Hok. destruct r as [c|m]; [|discriminate].
    by eapply access_fills_gradLag.
Qed.
End manager.

(* ================================================================== *)
(** * The derivative-function manager on concrete solvers *)
(* ================================================================== *)

Lemma derivative_cache_memoization_witness :
  (exists st1,
     @access casadi_derivatives KHessLag plain_solver
       = (Ok (CFunction (Some 2)), st1) /\
     slot KHessLag st1 = CFunction (Some 2) /\
     @access casadi_derivatives KHessLag st1 = (Ok (CFunction (Some 2)), st1)) /\
  @access casadi_derivatives KJacG unconstrained_solver
    = (Ok (CFunction None), unconstrained_solver).
Proof.
  split.
  - exists (snd (@access casadi_derivatives KHessLag plain_solver)).
    split; [vm_compute; reflexivity|].
    destruct (@derivative_cache_memoization casadi_derivatives KHessLag
                plain_solver) as [Hstored _].
    destruct (Hstored (CFunction (Some 2))
                (snd (@access casadi_derivatives KHessLag plain_solver)))
      as (Hslot & Hagain & _).
    + vm_compute. reflexivity.
    + split; [exact Hslot|exact Hagain].
  - destruct (@derivative_cache_memoization casadi_derivatives KJacG
                unconstrained_solver) as [_ Hnull].
    apply Hnull; reflexivity.
Defined.

(** C3 as stated fails for the constraint Jacobian of a problem without
    constraints: although an override [jac_g] is configured, the accessor
    returns the null function, takes no override, builds nothing and leaves
    the slot empty. *)
Lemma constraint_jacobian_not_stored :
  ng_ unconstrained_solver = 0 /\
  dictionary_ unconstrained_solver !! "jac_g"%string = Some (Some 1) /\
  @access casadi_derivatives KJacG unconstrained_solver
    = (Ok (CFunction None), unconstrained_solver) /\
  slot KJacG unconstrained_solver = CFunction None.
Proof. repeat split; vm_compute; reflexivity. Qed.

Lemma signature_validation_witness :
  (exists st1,
     @access casadi_derivatives KGradF (solver_with_override "grad_f" 5)
       = (Throw gradient_inputs_text, st1)) /\
  (exists st1 n1,
     @access casadi_derivatives KGradLag (solver_with_override "grad_lag" 7)
       = (Ok (CFunction (Some 1)), st1) /\
     slot KGradLag st1 = CFunction (Some 1) /\
     heap_ st1 !! 1 = Some n1 /\
     fn_nin n1 = 7 /\ fn_nout n1 = 1).
Proof.
  split.
  - destruct (@signature_validation casadi_derivatives KGradF
                (solver_with_override "grad_f" 5))
      as [Hchecked _].
    + reflexivity.
    + discriminate.
    + destruct (Hchecked 2 3 eq_refl) as (_ & Hrefused & _).
      destruct (Hrefused 1 (solver_with_override "grad_f" 5) (supplied 5 1))
        as [Hin _].
      * vm_compute. reflexivity.
      * reflexivity.
      * apply Hin. simpl. lia.
  - destruct (@signature_validation casadi_derivatives KGradLag
                (solver_with_override "grad_lag" 7))
      as [_ Hunchecked].
    + reflexivity.
    + discriminate.
    + destruct (Hunchecked eq_refl) as (_ & Haccepted & _).
      apply (Haccepted 1 (solver_with_override "grad_lag" 7) (supplied 7 1)).
      * vm_compute. reflexivity.
      * reflexivity.
Defined.

(** C4 as stated fails.  The Lagrangian gradient is not checked: supplied
    functions with 7 inputs and with 3 inputs (and one output) are both
    accepted as they are.  And the exception of a check that fails reports
    neither the expected nor the actual numbers: supplied gradients with 5
    and with 7 inputs are refused with one and the same text. *)
Lemma lagrangian_gradient_not_validated :
  (exists st7 st3,
     @access casadi_derivatives KGradLag (solver_with_override "grad_lag" 7)
       = (Ok (CFunction (Some 1)), st7) /\
     fn_nin <$> heap_ st7 !! 1 = Some 7 /\
     @access casadi_derivatives KGradLag (solver_with_override "grad_lag" 3)
       = (Ok (CFunction (Some 1)), st3) /\
     fn_nin <$> heap_ st3 !! 1 = Some 3) /\
  (exists m,
     fst (@access casadi_derivatives KGradF (solver_with_override "grad_f" 5))
       = Throw m /\
     fst (@access casadi_derivatives KGradF (solver_with_override "grad_f" 7))
       = Throw m /\
     forall i, ~ names_index m i).
Proof.
  split.
  - do 2 eexists. repeat split; vm_compute; reflexivity.
  - exists gradient_inputs_text. split; [vm_compute; reflexivity|].
    split; [vm_compute; reflexivity|].
    intros i Hin. unfold names_index in Hin.
    apply list_elem_of_singleton in Hin. discriminate.
Qed.

Lemma accessor_frame_witness :
  let st1 := snd (@access casadi_derivatives KHessLag plain_solver) in
  slot KGradF st1 = CFunction None /\
  slot KJacF st1 = CFunction None /\
  slot KJacG st1 = CFunction None /\
  slot KSpHessLag st1 = CSparsity None /\
  cached_null (slot KGradLag st1) = false.
Proof.
  destruct (@accessor_frame casadi_derivatives KHessLag plain_solver
              (fst (@access casadi_derivatives KHessLag plain_solver))
              (snd (@access casadi_derivatives KHessLag plain_solver)))
    as (Hother & _ & _ & Hfill).
  - vm_compute. reflexivity.
  - cbv zeta. rewrite !Hother by (try discriminate; intros [=]).
    do 4 (split; [reflexivity|]).
    apply Hfill; [left; split|..]; reflexivity.
Defined.

(** C9 as stated fails: on a solver whose slots are all empty, the accessor
    of the Lagrangian Hessian and the accessor of the Hessian sparsity each
    leave the slot of the Lagrangian gradient filled. *)
Lemma hessian_access_fills_gradient_slot :
  slot KGradLag plain_solver = CFunction None /\
  slot KGradLag (snd (@access casadi_derivatives KHessLag plain_solver))
    = CFunction (Some 1) /\
  slot KGradLag (snd (@access casadi_derivatives KSpHessLag plain_solver))
    = CFunction (Some 1).
Proof. repeat split; vm_compute; reflexivity. Qed.

Section manager_tags.
Context `{DerivativeSubstrate}.

Lemma log_run msg st : log msg st = (Ok tt, logged msg st).
Proof. unfold log, logged, bind, get, modify. by destruct (verbose_ st). Qed.

Lemma logged_heap msg st : heap_ (logged msg st) = heap_ st.
Proof. unfold logged. by destruct (verbose_ st). Qed.

Lemma logged_slot msg k st : slot k (logged msg st) = slot k st.
Proof. unfold logged. destruct (verbose_ st), k; reflexivity. Qed.

Lemma logged_config msg st : config_same st (logged msg st).
Proof. unfold logged. destruct (verbose_ st); by repeat split. Qed.

(** The signature check, run on the node [n] of its candidate: the node is
    renamed and initialised before its numbers of inputs and outputs are
    looked at. *)
Lemma check_signature_run a n name num_in num_out tin tout sin sout done st :
  heap_ st !! a = Some n ->
  check_signature (Some a) name num_in num_out tin tout sin sout done st =
    if negb (fn_nin n =? num_in) then
      (Throw tin, set_heap_ (<[a := initialized (with_name name n)]> (heap_ st)) st)
    else if negb (fn_nout n =? num_out) then
      (Throw tout, set_heap_ (<[a := initialized (with_name name n)]> (heap_ st)) st)
    else
      (Ok (Some a),
       logged done
         (set_heap_ (<[a := with_output_scheme sout
                              (with_input_scheme sin
                                 (initialized (with_name name n)))]> (heap_ st))
                    st)).
Proof.
  intros Hn. unfold check_signature.
  assert (Hlt : a < length (heap_ st)) by by eapply lookup_lt_Some.
  erewrite bind_ok; [|by apply update_node_run].
  erewrite bind_ok; cycle 1.
  { apply update_node_run. simpl. by apply list_lookup_insert_eq. }
  set (st2 := set_heap_ _ _).
  assert (Hst2 : st2 = set_heap_ (<[a := initialized (with_name name n)]> (heap_ st)) st).
  { unfold st2. simpl. by rewrite list_insert_insert_eq. }
  clearbody st2. subst st2.
  set (st2 := set_heap_ _ st).
  assert (Hn2 : heap_ st2 !! a = Some (initialized (with_name name n))).
  { unfold st2. simpl. by apply list_lookup_insert_eq. }
  assert (Hin : nIn (Some a) st2 = (Ok (fn_nin n), st2)).
  { unfold nIn. by erewrite bind_ok; [|by apply deref_run]. }
  assert (Hout : nOut (Some a) st2 = (Ok (fn_nout n), st2)).
  { unfold nOut. by erewrite bind_ok; [|by apply deref_run]. }
  erewrite bind_ok; [|exact Hin].
  destruct (fn_nin n =? num_in); simpl; [|by erewrite bind_throw].
  erewrite bind_ok; [|reflexivity]. erewrite bind_ok; [|exact Hout].
  destruct (fn_nout n =? num_out); simpl; [|by erewrite bind_throw].
  erewrite bind_ok; [|reflexivity].
  erewrite bind_ok; [|by apply update_node_run].
  erewrite bind_ok; cycle 1.
  { apply update_node_run. simpl. apply list_lookup_insert_eq.
    by rewrite length_insert. }
  erewrite bind_ok; [|apply log_run].
  unfold ret. simpl. by rewrite !list_insert_insert_eq.
Qed.


(** The statements that follow the choice of the candidate, run on the node
    [n] of the candidate. *)
Lemma finish_run k a n st :
  k <> KSpHessLag -> heap_ st !! a = Some n ->
  finish k (Some a) st =
    let renamed :=
      set_heap_ (<[a := initialized (with_name (function_name k) n)]> (heap_ st)) st in
    let done := logged (done_text k) (set_heap_ (<[a := tagged k n]> (heap_ st)) st) in
    match expected_arity k with
    | Some (num_in, num_out) =>
        if negb (fn_nin n =? num_in) then (Throw (inputs_text k), renamed)
        else if negb (fn_nout n =? num_out) then (Throw (outputs_text k), renamed)
        else (Ok (Some a), done)
    | None => (Ok (Some a), done)
    end.
Proof.
  intros Hk Hn. destruct k; try done; simpl;
    try (by rewrite (check_signature_run a n) by done).
  assert (Hlt : a < length (heap_ st)) by by eapply lookup_lt_Some.
  erewrite bind_ok; [|by apply update_node_run].
  erewrite bind_ok; cycle 1.
  { apply update_node_run. simpl. by apply list_lookup_insert_eq. }
  erewrite bind_ok; [|apply log_run].
  unfold ret. simpl. by rewrite list_insert_insert_eq.
Qed.

Lemma finish_dangling k a st :
  k <> KSpHessLag -> heap_ st !! a = None ->
  exists m, finish k (Some a) st = (Throw m, st).
Proof.
  intros Hk Hn.
  assert (Hname : forall name,
            setOption_name (Some a) name st =
              (Throw [MTxt "undefined behaviour: dangling handle"], st)).
  { intros name. unfold setOption_name, update_node, deref, bind at 1, bind at 1, get.
    by rewrite Hn. }
  destruct k; try done; simpl; unfold check_signature;
    eexists; erewrite bind_throw; try reflexivity; apply Hname.
Qed.

Lemma tagged_facts k n :
  k <> KSpHessLag ->
  fn_name (tagged k n) = override_option k /\
  fn_initialized (tagged k n) = true /\
  fn_origin (tagged k n) = fn_origin n /\
  fn_nin (tagged k n) = fn_nin n /\ fn_nout (tagged k n) = fn_nout n /\
  match schemes_of k with
  | Some (sin, sout) =>
      fn_input_scheme (tagged k n) = Some sin /\
      fn_output_scheme (tagged k n) = Some sout
  | None =>
      fn_input_scheme (tagged k n) = fn_input_scheme n /\
      fn_output_scheme (tagged k n) = fn_output_scheme n
  end.
Proof. intros Hk. by destruct k. Qed.

(** A getter that returns a function has [tagged] the node of its
    candidate, and changed no other node that was there. *)
Lemma getter_tags k st a st' :
  getter k st = (Ok (CFunction (Some a)), st') ->
  exists s1 n,
    candidate k st = (Ok (Some a), s1) /\
    heap_ s1 !! a = Some n /\
    heap_ st' = <[a := tagged k n]> (heap_ s1) /\
    (forall k', slot k' st' = slot k' s1).
Proof.
  intros Hrun.
  assert (Hk : k <> KSpHessLag).
  { intros ->. unfold getter in Hrun.
    by apply bind_inv_ok in Hrun as (sp & s1 & _ & [=]). }
  assert (Hng : k = KJacG -> ng_ st <> 0).
  { intros -> Hng. unfold getter in Hrun.
    apply bind_inv_ok in Hrun as (f & s1 & Hrun & [= -> <-]).
    rewrite getJacG_split, Hng in Hrun. simpl in Hrun. by injection Hrun. }
  rewrite getter_split in Hrun by done.
  apply bind_inv_ok in Hrun as (cnd & s1 & Hcand & Hrun).
  apply bind_inv_ok in Hrun as (f & s2 & Hfin & [= -> ->]).
  pose proof (finish_ok _ _ _ _ _ Hk Hfin) as (_ & a' & -> & _).
  destruct (heap_ s1 !! a') as [n|] eqn:Hn.
  - rewrite (finish_run k a' n) in Hfin by done. cbv zeta in Hfin.
    exists s1, n.
    assert (Ok (Some a') = Ok (Some a) /\
            st' = logged (done_text k)
                    (set_heap_ (<[a' := tagged k n]> (heap_ s1)) s1)) as [[= ->] ->].
    { destruct (expected_arity k) as [[num_in num_out]|];
        [destruct (negb _); [discriminate|]; destruct (negb _); [discriminate|]|];
        by injection Hfin as <- <-. }
    split; [done|]. split; [done|]. split.
    + by rewrite logged_heap.
    + intros k'. rewrite logged_slot. by destruct k'.
  - destruct (finish_dangling k a' s1 Hk Hn) as [m Hthrow]. congruence.
Qed.


Lemma hasSetOption_Some name f st :
  dictionary_ st !! name = Some f -> hasSetOption name st = true.
Proof. intros Hd. unfold hasSetOption. rewrite Hd. by apply bool_decide_eq_true. Qed.

Lemma hasSetOption_None name st :
  dictionary_ st !! name = None -> hasSetOption name st = false.
Proof.
  intros Hd. unfold hasSetOption. rewrite Hd.
  apply bool_decide_eq_false. by intros [x Hx].
Qed.

Lemma getOption_Function_run name f st :
  dictionary_ st !! name = Some f -> getOption_Function name st = (Ok f, st).
Proof. intros Hd. unfold getOption_Function, bind, get. by rewrite Hd. Qed.

(** With the option of a kind set, the candidate is the function of the
    option, and nothing is generated. *)
Lemma candidate_override k name f st :
  override_option k = Some name -> dictionary_ st !! name = Some f ->
  candidate k st = (Ok f, st).
Proof.
  intros Hopt Hd.
  destruct k; simpl in Hopt; try discriminate; injection Hopt as <-;
    unfold candidate, bind at 1, get;
    rewrite (hasSetOption_Some _ _ _ Hd); by apply getOption_Function_run.
Qed.

Lemma access_getter k st r st1 :
  cached_null (slot k st) = true -> access k st = (r, st1) ->
  match r with
  | Ok c => exists s1, getter k st = (Ok c, s1) /\ st1 = set_slot k c s1
  | Throw m => getter k st = (Throw m, st1)
  end.
Proof.
  intros Hnull. rewrite access_lazy, Hnull.
  destruct (getter k st) as [[c|m] s1]; intros [= <- <-]; eauto.
Qed.

(** X1.  A function that an accessor has put into an empty slot carries
    the name of its option ([grad_f], [jac_f], [jac_g], [grad_lag],
    [hess_lag]) and is initialised; the objective gradient and the
    objective Jacobian carry the schemes of the objective gradient, the
    constraint Jacobian and the Lagrangian Hessian their own schemes, and
    the Lagrangian gradient the schemes its candidate had.  The origin of
    the candidate is kept. *)
Theorem accessor_tags k st a st1 :
  cached_null (slot k st) = true ->
  access k st = (Ok (CFunction (Some a)), st1) ->
  exists s1 n0 n,
    candidate k st = (Ok (Some a), s1) /\
    heap_ s1 !! a = Some n0 /\
    heap_ st1 !! a = Some n /\
    fn_name n = override_option k /\
    fn_initialized n = true /\
    fn_origin n = fn_origin n0 /\
    match schemes_of k with
    | Some (sin, sout) =>
        fn_input_scheme n = Some sin /\ fn_output_scheme n = Some sout
    | None =>
        fn_input_scheme n = fn_input_scheme n0 /\
        fn_output_scheme n = fn_output_scheme n0
    end.
Proof.
  intros Hnull Hrun.
  apply access_getter in Hrun as (s2 & Hget & ->); [|done].
  assert (Hk : k <> KSpHessLag).
  { intros ->. unfold getter in Hget.
    by apply bind_inv_ok in Hget as (sp & s1 & _ & [=]). }
  apply getter_tags in Hget as (s1 & n0 & Hcand & Hn0 & Hheap & _).
  exists s1, n0, (tagged k n0).
  destruct (tagged_facts k n0 Hk) as (Hname & Hinit & Horigin & _ & _ & Hsch).
  split; [done|]. split; [done|]. split.
  - rewrite heap_set_slot, Hheap. apply list_lookup_insert_eq.
    by eapply lookup_lt_Some.
  - done.
Qed.

(** X2.  With the option of a kind set to a function that passes the check,
    the accessor returns that very function: nothing is generated, and the
    node of the supplied function is the only one that changes; it is
    renamed, initialised and given the schemes of the kind. *)
Theorem override_taken_verbatim k name f st c st1 :
  override_option k = Some name -> dictionary_ st !! name = Some f ->
  (k = KJacG -> ng_ st <> 0) ->
  cached_null (slot k st) = true ->
  access k st = (Ok c, st1) ->
  c = CFunction f /\
  exists a n, f = Some a /\ heap_ st !! a = Some n /\
              heap_ st1 = <[a := tagged k n]> (heap_ st).
Proof.
  intros Hopt Hd Hng Hnull Hrun.
  assert (Hk : k <> KSpHessLag) by (intros ->; discriminate).
  apply access_getter in Hrun as (s2 & Hget & ->); [|done].
  destruct (getter_ok _ _ _ _ Hget) as [Hn Hf].
  destruct (cached_null c) eqn:Hc.
  { destruct (Hn eq_refl) as (-> & Hz & _). by destruct (Hng eq_refl). }
  destruct (Hf eq_refl Hk) as (a & s1 & -> & _ & _).
  apply getter_tags in Hget as (s1' & n & Hcand & Hn0 & Hheap & _).
  rewrite (candidate_override _ _ _ _ Hopt Hd) in Hcand.
  injection Hcand as -> <-.
  split; [done|]. exists a, n. by rewrite heap_set_slot.
Qed.

(** X3.  A supplied function with another number of inputs or of outputs
    than the kind fixes is refused, but not left as it was: when the
    accessor throws, the node of the supplied function has already been
    renamed and initialised.  Nothing is stored, so the next call checks
    again. *)
Theorem rejected_override_is_renamed k name a n num_in num_out st :
  override_option k = Some name -> dictionary_ st !! name = Some (Some a) ->
  heap_ st !! a = Some n ->
  expected_arity k = Some (num_in, num_out) ->
  (k = KJacG -> ng_ st <> 0) ->
  cached_null (slot k st) = true ->
  fn_nin n <> num_in \/ fn_nout n <> num_out ->
  exists m st1,
    access k st = (Throw m, st1) /\
    heap_ st1 = <[a := initialized (with_name name n)]> (heap_ st) /\
    (forall k', slot k' st1 = slot k' st).
Proof.
  intros Hopt Hd Hn Hexp Hng Hnull Hbad.
  assert (Hk : k <> KSpHessLag) by (intros ->; discriminate).
  assert (Hname : function_name k = name).
  { destruct k; simpl in Hopt; simpl; congruence. }
  rewrite access_lazy, Hnull, getter_split by done.
  erewrite bind_ok; [|by eapply candidate_override].
  unfold bind at 1. rewrite (finish_run k a n) by done. cbv zeta.
  rewrite Hexp, Hname.
  destruct (fn_nin n =? num_in) eqn:Hin; simpl.
  - destruct (fn_nout n =? num_out) eqn:Hout; simpl.
    + apply Nat.eqb_eq in Hin, Hout. by destruct Hbad.
    + do 2 eexists. split; [reflexivity|]. split; [done|]. by intros [].
  - do 2 eexists. split; [reflexivity|]. split; [done|]. by intros [].
Qed.


Lemma heap_set_heap h st : heap_ (set_heap_ h st) = h.
Proof. reflexivity. Qed.

Lemma slot_set_heap k h st : slot k (set_heap_ h st) = slot k st.
Proof. by destruct k. Qed.

Lemma slot_set_slot_other k k' c st :
  k' <> k -> slot k' (set_slot k c st) = slot k' st.
Proof. intros Hne. destruct k, c, k'; try reflexivity; congruence. Qed.

Lemma new_function_run o arity st :
  new_function o arity st =
    (Ok (Some (length (heap_ st))),
     set_heap_ (heap_ st ++ [generated o arity]) st).
Proof. reflexivity. Qed.

Lemma Function_jacobian_inv f iind oind compact symmetric st g st' :
  Function_jacobian f iind oind compact symmetric st = (Ok g, st') ->
  exists a n, f = Some a /\ heap_ st !! a = Some n /\
    g = Some (length (heap_ st)) /\
    st' = set_heap_ (heap_ st ++ [generated (Jacobian a iind oind compact symmetric)
              (jacobian_arity (fn_nin n, fn_nout n) iind oind compact symmetric)]) st.
Proof.
  unfold Function_jacobian. intros Hrun.
  apply bind_inv_ok in Hrun as ([a n] & s1 & Hd & Hnew).
  apply deref_ok in Hd as (-> & Hn & ->).
  rewrite new_function_run in Hnew. injection Hnew as <- <-. eauto 6.
Qed.

(** What [gradLag()] returns is in the slot of the Lagrangian gradient and
    is not null. *)
Lemma gradLag_stored st g s0 :
  gradLag st = (Ok g, s0) ->
  exists a, g = Some a /\ slot KGradLag s0 = CFunction (Some a) /\
            (cached_null (slot KGradLag st) = false ->
             slot KGradLag st = CFunction (Some a)).
Proof.
  intros Hrun.
  assert (access KGradLag st = (Ok (CFunction g), s0)) as Hacc.
  { unfold access. by erewrite bind_ok. }
  pose proof (access_stores _ _ _ _ Hacc) as [Hslot Hnull].
  destruct g as [a|]; [|by specialize (Hnull eq_refl)].
  exists a. split; [done|]. split; [done|].
  intros Hfilled.
  pose proof (preserves_access_may_fill KGradLag _ _ _ Hacc) as (_ & _ & Hf & _).
  by rewrite <- (Hf KGradLag Hfilled).
Qed.

(** X5.  The Lagrangian Hessian built by default and the Hessian sparsity
    both come from the function in the slot of the Lagrangian gradient,
    which is filled first when it is empty and reused when it is not: the
    Hessian is the Jacobian of that function for input [NL_X] and output
    [NL_NUM_OUT + NL_X], symmetric and not compact, and the sparsity is the
    pattern of that same Jacobian. *)
Theorem hessian_from_cached_gradient st c st1 :
  (hasSetOption "hess_lag" st = false ->
   cached_null (slot KHessLag st) = true ->
   access KHessLag st = (Ok c, st1) ->
   exists g h n,
     slot KGradLag st1 = CFunction (Some g) /\
     (cached_null (slot KGradLag st) = false ->
      slot KGradLag st = CFunction (Some g)) /\
     c = CFunction (Some h) /\ heap_ st1 !! h = Some n /\
     fn_origin n = Jacobian g NL_X (NL_NUM_OUT + NL_X) false true) /\
  (cached_null (slot KSpHessLag st) = true ->
   access KSpHessLag st = (Ok c, st1) ->
   exists g,
     slot KGradLag st1 = CFunction (Some g) /\
     (cached_null (slot KGradLag st) = false ->
      slot KGradLag st = CFunction (Some g)) /\
     c = CSparsity (Some (hessian_pattern g))).
Proof.
  split.
  - intros Hopt Hnull Hrun.
    apply access_getter in Hrun as (s3 & Hget & ->); [|done].
    destruct (getter_ok _ _ _ _ Hget) as [Hn Hf].
    destruct (cached_null c) eqn:Hc.
    { by destruct (Hn eq_refl) as (? & _). }
    destruct (Hf eq_refl ltac:(done)) as (h & s1 & -> & _ & _).
    apply getter_tags in Hget as (s1' & n0 & Hcand & Hn0 & Hheap & Hslots).
    rewrite candidate_hessLag_default in Hcand by done.
    apply bind_inv_ok in Hcand as (g & s0 & Hlag & Hrest).
    apply gradLag_stored in Hlag as (ga & -> & Hslot & Hreuse).
    erewrite bind_ok in Hrest; [|apply log_run].
    apply bind_inv_ok in Hrest as (h' & s2 & Hjac & Hrest).
    erewrite bind_ok in Hrest; [|apply log_run].
    injection Hrest as -> <-.
    apply Function_jacobian_inv in Hjac as (a & n & [= <-] & Hn' & [= ->] & ->).
    repeat (rewrite ?logged_heap, ?heap_set_heap in Hn0).
    repeat (rewrite ?logged_heap, ?heap_set_heap in Hheap).
    rewrite lookup_app_r, Nat.sub_diag in Hn0 by lia. injection Hn0 as <-.
    rewrite logged_heap.
    eexists ga, (length (heap_ s0)), _.
    split; [|split; [done|split; [done|split]]].
    + rewrite slot_set_slot_other by done.
      by rewrite Hslots, logged_slot, slot_set_heap, logged_slot.
    + rewrite heap_set_slot, Hheap.
      apply list_lookup_insert_eq. rewrite length_app. simpl. lia.
    + reflexivity.
  - intros Hnull Hrun.
    apply access_getter in Hrun as (s3 & Hget & ->); [|done].
    unfold getter in Hget.
    apply bind_inv_ok in Hget as (sp & s2 & Hsp & [= <- <-]).
    unfold getSpHessLag in Hsp.
    apply bind_inv_ok in Hsp as (g & s0 & Hlag & Hrest).
    apply gradLag_stored in Hlag as (ga & -> & Hslot & Hreuse).
    erewrite bind_ok in Hrest; [|apply log_run].
    apply bind_inv_ok in Hrest as (sp' & s4 & Hjs & Hrest).
    erewrite bind_ok in Hrest; [|apply log_run].
    injection Hrest as <- <-.
    unfold Function_jacSparsity in Hjs.
    apply bind_inv_ok in Hjs as ([a n] & s5 & Hd & [= <- <-]).
    apply deref_ok in Hd as ([= <-] & _ & ->).
    exists ga. split; [|by split].
    rewrite slot_set_slot_other by done.
    by rewrite !logged_slot.
Qed.

(** X6.  An accessor call that throws has found its slot empty and leaves
    it empty, so the next call runs the getter again; no other slot has
    changed either, apart from the slot of the Lagrangian gradient when the
    call was for the Lagrangian Hessian or the Hessian sparsity. *)
Theorem failed_access_not_cached k st m st1 :
  access k st = (Throw m, st1) ->
  cached_null (slot k st) = true /\
  cached_null (slot k st1) = true /\
  forall k', (k' = KGradLag -> k <> KHessLag /\ k <> KSpHessLag) ->
             slot k' st1 = slot k' st.
Proof.
  intros Hrun.
  assert (Hnull : cached_null (slot k st) = true).
  { rewrite access_lazy in Hrun.
    by destruct (cached_null (slot k st)). }
  apply access_getter in Hrun; [|done].
  assert (Hslots : forall k', (k' = KGradLag -> k <> KHessLag /\ k <> KSpHessLag) ->
                              slot k' st1 = slot k' st).
  { intros k' Hk'.
    destruct (decide (k = KHessLag \/ k = KSpHessLag)) as [Hh|Hb].
    - assert (preserves (frame [KGradLag]) (getter k)) as Hp.
      { destruct Hh as [-> | ->]; unfold getter;
          (apply preserves_frame_bind; [|intros f; apply preserves_frame_ret]);
          [apply preserves_getHessLag|apply preserves_getSpHessLag]. }
      apply Hp in Hrun as (_ & Hs & _). apply Hs.
      intros Hin. apply list_elem_of_singleton in Hin.
      destruct (Hk' Hin) as [? ?]. destruct Hh; congruence.
    - assert (preserves (frame []) (getter k)) as Hp.
      { apply preserves_getter_basic. destruct k; tauto. }
      apply Hp in Hrun as (_ & Hs & _). apply Hs, not_elem_of_nil. }
  split; [done|]. split; [|done].
  rewrite Hslots; [done|]. intros ->. split; discriminate.
Qed.

End manager_tags.

Lemma accessor_tags_witness :
  exists n,
    heap_ (snd (@access casadi_derivatives KJacF plain_solver)) !! 1 = Some n /\
    fn_name n = Some "jac_f"%string /\ fn_initialized n = true /\
    fn_input_scheme n = Some SCHEME_GradFInput /\
    fn_output_scheme n = Some SCHEME_GradFOutput.
Proof.
  destruct (@accessor_tags casadi_derivatives KJacF plain_solver 1
              (snd (@access casadi_derivatives KJacF plain_solver)))
    as (s1 & n0 & n & _ & _ & Hn & Hname & Hinit & _ & Hin & Hout).
  - reflexivity.
  - vm_compute. reflexivity.
  - exists n. split; [exact Hn|]. split; [exact Hname|]. split; [exact Hinit|].
    split; [exact Hin|exact Hout].
Defined.

Lemma override_taken_verbatim_witness :
  @access casadi_derivatives KGradF solver_with_gradient
    = (Ok (CFunction (Some 1)),
       snd (@access casadi_derivatives KGradF solver_with_gradient)) /\
  heap_ (snd (@access casadi_derivatives KGradF solver_with_gradient))
    = [supplied 2 2; tagged KGradF (supplied 2 3)].
Proof.
  split; [vm_compute; reflexivity|].
  destruct (@override_taken_verbatim casadi_derivatives KGradF "grad_f" (Some 1)
              solver_with_gradient (CFunction (Some 1))
              (snd (@access casadi_derivatives KGradF solver_with_gradient)))
    as (_ & a & n & Ha & Hn & Hheap).
  - reflexivity.
  - vm_compute. reflexivity.
  - discriminate.
  - reflexivity.
  - vm_compute. reflexivity.
  - injection Ha as <-. injection Hn as <-. exact Hheap.
Defined.

Lemma rejected_override_is_renamed_witness :
  exists m st1,
    @access casadi_derivatives KGradF (solver_with_override "grad_f" 5)
      = (Throw m, st1) /\
    heap_ st1 = [supplied 2 2; initialized (with_name "grad_f" (supplied 5 1))] /\
    slot KGradF st1 = CFunction None.
Proof.
  destruct (@rejected_override_is_renamed casadi_derivatives KGradF "grad_f" 1
              (supplied 5 1) 2 3 (solver_with_override "grad_f" 5))
    as (m & st1 & Hrun & Hheap & Hslot).
  - reflexivity.
  - vm_compute. reflexivity.
  - reflexivity.
  - reflexivity.
  - discriminate.
  - reflexivity.
  - left. simpl. lia.
  - exists m, st1. split; [exact Hrun|]. split; [exact Hheap|apply Hslot].
Defined.

Lemma hessian_from_cached_gradient_witness :
  exists g h n,
    slot KGradLag (snd (@access casadi_derivatives KHessLag plain_solver))
      = CFunction (Some g) /\
    heap_ (snd (@access casadi_derivatives KHessLag plain_solver)) !! h = Some n /\
    fn_origin n = Jacobian g NL_X (NL_NUM_OUT + NL_X) false true.
Proof.
  destruct (proj1 (@hessian_from_cached_gradient casadi_derivatives plain_solver
              (CFunction (Some 2))
              (snd (@access casadi_derivatives KHessLag plain_solver))))
    as (g & h & n & Hslot & _ & _ & Hn & Horigin).
  - vm_compute. reflexivity.
  - reflexivity.
  - vm_compute. reflexivity.
  - exists g, h, n. split; [exact Hslot|]. split; [exact Hn|exact Horigin].
Defined.

Lemma failed_access_not_cached_witness :
  cached_null
    (slot KGradF
       (snd (@access casadi_derivatives KGradF (solver_with_override "grad_f" 5))))
  = true.
Proof.
  destruct (@failed_access_not_cached casadi_derivatives KGradF
              (solver_with_override "grad_f" 5) gradient_inputs_text
              (snd (@access casadi_derivatives KGradF
                      (solver_with_override "grad_f" 5))))
    as (_ & Hnull & _).
  - vm_compute. reflexivity.
  - exact Hnull.
Defined.

(* ================================================================== *)
(** * The two bound checks compared *)
(* ================================================================== *)

Lemma is_nan_true x : PrimFloat.is_nan x = true <-> Prim2SF x = S754_nan.
Proof.
  rewrite <- not_false_iff_true, is_nan_false. split.
  - intros Hn. destruct (Prim2SF x); try done; exfalso; apply Hn; discriminate.
  - intros -> Hn. done.
Qed.

Lemma eqb_infinity x :
  (x =? infinity)%float = true <-> Prim2SF x = S754_infinity false.
Proof.
  rewrite FloatAxioms.eqb_spec.
  change (Prim2SF infinity) with (S754_infinity false).
  destruct (Prim2SF x) as [[]|[]| |[] m e]; simpl; split; (discriminate || done).
Qed.

Lemma eqb_neg_infinity x :
  (x =? neg_infinity)%float = true <-> Prim2SF x = S754_infinity true.
Proof.
  rewrite FloatAxioms.eqb_spec.
  change (Prim2SF neg_infinity) with (S754_infinity true).
  destruct (Prim2SF x) as [[]|[]| |[] m e]; simpl; split; (discriminate || done).
Qed.

Ltac float_cases :=
  repeat match goal with
  | |- context [Pos.compare_cont Eq ?a ?b] =>
      change (Pos.compare_cont Eq a b) with (Pos.compare a b)
  | H : context [Pos.compare_cont Eq ?a ?b] |- _ =>
      change (Pos.compare_cont Eq a b) with (Pos.compare a b) in H
  end;
  repeat match goal with
  | |- context [Z.compare ?a ?b] => destruct (Z.compare_spec a b); simpl in *
  | H : context [Z.compare ?a ?b] |- _ => destruct (Z.compare_spec a b); simpl in *
  | |- context [Pos.compare ?a ?b] => destruct (Pos.compare_spec a b); simpl in *
  | H : context [Pos.compare ?a ?b] |- _ => destruct (Pos.compare_spec a b); simpl in *
  end;
  try discriminate; try reflexivity; try lia.

Lemma SFleb_not_SFltb x y : SFleb x y = true -> SFltb y x = false.
Proof.
  unfold SFleb, SFltb.
  destruct x as [[]|[]| |[] mx ex], y as [[]|[]| |[] my ey];
    simpl; try discriminate; try reflexivity; intros H1; float_cases.
Qed.

(** A pair in order is not crossed, and an infinite bound on the wrong
    side makes the other bound the same infinity. *)
Lemma leb_not_crossed l u :
  (l <=? u)%float = true ->
  (u <? l)%float = false /\
  ((l =? infinity)%float = true -> (u =? infinity)%float = true) /\
  ((u =? neg_infinity)%float = true -> (l =? neg_infinity)%float = true).
Proof.
  rewrite leb_spec, ltb_spec, !eqb_infinity, !eqb_neg_infinity.
  intros Hle. split; [by apply SFleb_not_SFltb|].
  unfold SFleb in Hle.
  destruct (Prim2SF l) as [[]|[]| |[] m e], (Prim2SF u) as [[]|[]| |[] m' e'];
    simpl in Hle; try discriminate; split; intros; congruence.
Qed.

(** A pair with a bound that is not a number is neither in order nor
    crossed. *)
Lemma nan_bound l u :
  PrimFloat.is_nan l = true \/ PrimFloat.is_nan u = true ->
  (l <=? u)%float = false /\ (u <? l)%float = false.
Proof.
  rewrite !is_nan_true, leb_spec, ltb_spec.
  unfold SFleb, SFltb.
  intros [Hn|Hn]; rewrite Hn; simpl;
    destruct (Prim2SF l) as [[]|[]| |[] m e], (Prim2SF u) as [[]|[]| |[] m' e'];
    simpl; split; congruence.
Qed.

(** A run of [checkInputs] that returns has found every pair of bounds in
    range and in order. *)
Lemma for_each_check_bound_inv text lb ub n k (st st' : NlpSolverInternal) :
  for_each (check_bound text lb ub) (seq k n) st = (Ok tt, st') ->
  st' = st /\
  forall i, k <= i < k + n ->
    i < length lb /\ i < length ub /\ (elt lb i <=? elt ub i)%float = true.
Proof.
  revert k. induction n as [|n IH]; intros k; simpl.
  - intros [= <-]. split; [done|]. intros i Hi. lia.
  - intros Hrun. apply bind_inv_ok in Hrun as ([] & s1 & Hk & Hrest).
    unfold check_bound, at_ in Hk.
    destruct (lb !! k) as [l|] eqn:Hl; [|discriminate].
    destruct (ub !! k) as [u|] eqn:Hu; [|discriminate].
    unfold bind, ret in Hk. simpl in Hk.
    destruct (l <=? u)%float eqn:Hle; [|discriminate].
    injection Hk as <-.
    apply IH in Hrest as [-> Hall]. split; [done|].
    intros i Hi. destruct (decide (i = k)) as [->|Hne]; [|apply Hall; lia].
    split; [by eapply lookup_lt_Some|]. split; [by eapply lookup_lt_Some|].
    by rewrite (elt_lookup _ _ _ Hl), (elt_lookup _ _ _ Hu).
Qed.

Lemma ill_posed_in_order lb ub i :
  (elt lb i <=? elt ub i)%float = true ->
  ill_posed lb ub i = both_infinite lb ub i.
Proof.
  intros Hle. destruct (leb_not_crossed _ _ Hle) as (Hc & Hinf & Hninf).
  unfold ill_posed, both_infinite. rewrite Hc, orb_false_r.
  change (- infinity)%float with neg_infinity.
  destruct (elt lb i =? infinity)%float eqn:E1.
  - rewrite Hinf by done. simpl. done.
  - simpl. destruct (elt ub i =? neg_infinity)%float eqn:E2.
    + rewrite Hninf by done. done.
    + by rewrite andb_false_r.
Qed.

(** X7.  The two checks compared.  On input vectors that [checkInputs]
    accepts, [checkInitialBounds] can only refuse a pair of bounds that are
    both [+inf] or both [-inf].  On bounds without NaN that
    [checkInitialBounds] accepts, [checkInputs] returns as well.  A pair
    with a NaN bound is never in order for [checkInputs], and is ill-posed
    for [checkInitialBounds] only through the other bound: when the lower
    bound is [+inf] or the upper bound is [-inf]. *)
Theorem checks_compared (st : NlpSolverInternal) :
  let lbx := input_ st NLP_SOLVER_LBX in
  let ubx := input_ st NLP_SOLVER_UBX in
  let lbg := input_ st NLP_SOLVER_LBG in
  let ubg := input_ st NLP_SOLVER_UBG in
  (checkInputs st = (Ok tt, st) ->
   nx_ st <= length lbx -> ng_ st <= length lbg ->
   forall m st1, checkInitialBounds st = (Throw m, st1) ->
     (exists i, i < nx_ st /\ both_infinite lbx ubx i = true) \/
     (exists i, i < ng_ st /\ both_infinite lbg ubg i = true)) /\
  ((exists st1, checkInitialBounds st = (Ok tt, st1)) ->
   length lbx = nx_ st -> length ubx = nx_ st ->
   length lbg = ng_ st -> length ubg = ng_ st ->
   (forall x, x ∈ lbx ++ ubx ++ lbg ++ ubg -> PrimFloat.is_nan x = false) ->
   checkInputs st = (Ok tt, st)) /\
  (forall lb ub i,
     PrimFloat.is_nan (elt lb i) = true \/ PrimFloat.is_nan (elt ub i) = true ->
     (elt lb i <=? elt ub i)%float = false /\
     ill_posed lb ub i
       = ((elt lb i =? infinity) || (elt ub i =? neg_infinity))%float).
Proof.
  intros lbx ubx lbg ubg. split; [|split].
  - intros Hin Hnx Hng m st1 Hinit.
    unfold checkInputs, bind at 1, get in Hin. fold lbx ubx lbg ubg in Hin.
    apply bind_inv_ok in Hin as ([] & s1 & Hx & Hg).
    apply for_each_check_bound_inv in Hx as [-> Hx].
    apply for_each_check_bound_inv in Hg as [_ Hg].
    rewrite checkInitialBounds_unfold in Hinit. fold lbx ubx lbg ubg in Hinit.
    destruct (existsb (ill_posed lbx ubx) (seq 0 (nx_ st))) eqn:Ex.
    { left. apply existsb_seq_true in Ex as (i & Hi & Hill).
      exists i. split; [done|]. rewrite <- ill_posed_in_order; [done|].
      apply Hx. lia. }
    destruct (existsb (ill_posed lbg ubg) (seq 0 (ng_ st))) eqn:Eg.
    { right. apply existsb_seq_true in Eg as (i & Hi & Hill).
      exists i. split; [done|]. rewrite <- ill_posed_in_order; [done|].
      apply Hg. lia. }
    by destruct (_ && _).
  - intros [st1 Hinit] Hlx Hux Hlg Hug Hnan.
    rewrite checkInitialBounds_unfold in Hinit. fold lbx ubx lbg ubg in Hinit.
    destruct (existsb (ill_posed lbx ubx) (seq 0 (nx_ st))) eqn:Ex; [discriminate|].
    destruct (existsb (ill_posed lbg ubg) (seq 0 (ng_ st))) eqn:Eg; [discriminate|].
    assert (Hord : forall lb ub n i,
              length lb = n -> length ub = n ->
              (forall x, x ∈ lb ++ ub -> PrimFloat.is_nan x = false) ->
              existsb (ill_posed lb ub) (seq 0 n) = false ->
              i < n -> (elt lb i <=? elt ub i)%float = true).
    { intros lb ub n i Hl Hu Hn Hex Hi.
      rewrite existsb_seq_false in Hex. specialize (Hex i Hi).
      unfold ill_posed in Hex.
      apply orb_false_iff in Hex as [Hex _]. apply orb_false_iff in Hex as [_ Hex].
      destruct (lookup_lt_is_Some_2 lb i) as [l Hli]; [lia|].
      destruct (lookup_lt_is_Some_2 ub i) as [u Hui]; [lia|].
      rewrite (elt_lookup _ _ _ Hli), (elt_lookup _ _ _ Hui) in *.
      apply leb_total; [| |done].
      - apply Hn, elem_of_app. right. by eapply list_elem_of_lookup_2.
      - apply Hn, elem_of_app. left. by eapply list_elem_of_lookup_2. }
    unfold checkInputs, bind at 1, get. fold lbx ubx lbg ubg.
    erewrite bind_ok; cycle 1.
    { apply for_each_check_bound_pass; simpl; try lia.
      intros i Hi. apply (Hord lbx ubx (nx_ st)); try done; [|lia].
      intros x Hx. apply Hnan. rewrite !elem_of_app in *. tauto. }
    apply for_each_check_bound_pass; simpl; try lia.
    intros i Hi. apply (Hord lbg ubg (ng_ st)); try done; [|lia].
    intros x Hx. apply Hnan. rewrite !elem_of_app in *. tauto.
  - intros lb ub i Hn. destruct (nan_bound _ _ Hn) as (Hle & Hlt).
    split; [done|]. unfold ill_posed.
    change (- infinity)%float with neg_infinity. by rewrite Hlt, orb_false_r.
Qed.

Lemma checks_compared_witness :
  exists i, i < 1 /\
    both_infinite (input_ infinite_bounds_solver NLP_SOLVER_LBX)
                  (input_ infinite_bounds_solver NLP_SOLVER_UBX) i = true.
Proof.
  destruct (proj1 (checks_compared infinite_bounds_solver))
    with (m := [MTxt "Ill-posed problem detected (x bounds)"])
         (st1 := infinite_bounds_solver) as [Hx|(i & Hi & _)].
  - reflexivity.
  - simpl. lia.
  - simpl. lia.
  - reflexivity.
  - exact Hx.
  - simpl in Hi. lia.
Defined.

(** X8.  On well-posed bounds [checkInitialBounds] returns.  It prints one
    line, however many entries are concerned, when the option
    [warn_initial_bounds] is set and some entry of the initial guess is
    above its upper or below its lower bound; otherwise it leaves the
    object as it is. *)
Theorem initial_guess_warned (st : NlpSolverInternal) :
  let x0 := input_ st NLP_SOLVER_X0 in
  let lbx := input_ st NLP_SOLVER_LBX in
  let ubx := input_ st NLP_SOLVER_UBX in
  let lbg := input_ st NLP_SOLVER_LBG in
  let ubg := input_ st NLP_SOLVER_UBG in
  (forall i, i < nx_ st -> ill_posed lbx ubx i = false) ->
  (forall i, i < ng_ st -> ill_posed lbg ubg i = false) ->
  (warn_initial_bounds_ st = true ->
   (exists k, k < nx_ st /\ guess_outside x0 lbx ubx k = true) ->
   checkInitialBounds st =
     (Ok tt, set_console_ (console_ st ++ [initial_guess_warning]) st)) /\
  (warn_initial_bounds_ st = false \/
   (forall k, k < nx_ st -> guess_outside x0 lbx ubx k = false) ->
   checkInitialBounds st = (Ok tt, st)).
Proof.
  intros x0 lbx ubx lbg ubg Hx Hg.
  apply existsb_seq_false in Hx, Hg.
  rewrite checkInitialBounds_unfold. fold x0 lbx ubx lbg ubg.
  rewrite Hx, Hg. fold (guess_outside x0 lbx ubx).
  split.
  - intros -> Hex. apply existsb_seq_true in Hex. by rewrite Hex.
  - intros [-> | Hall]; [done|].
    apply existsb_seq_false in Hall. by rewrite Hall, andb_false_r.
Qed.

Lemma initial_guess_warned_witness :
  checkInitialBounds warned_solver =
    (Ok tt, set_console_ [initial_guess_warning] warned_solver).
Proof.
  apply (proj1 (initial_guess_warned warned_solver
                  ltac:(intros i Hi; simpl in Hi;
                        assert (i = 0) as -> by lia; reflexivity)
                  ltac:(intros i Hi; simpl in Hi; lia))).
  - reflexivity.
  - exists 0. split; [simpl; lia|reflexivity].
Defined.

(* ================================================================== *)
(** * The order of strings *)
(* ================================================================== *)

Lemma ascii_compare_trans a b c :
  Ascii.compare a b = Lt -> Ascii.compare b c = Lt -> Ascii.compare a c = Lt.
Proof.
  unfold Ascii.compare. rewrite !N.compare_lt_iff. lia.
Qed.

Lemma ascii_compare_refl a : Ascii.compare a a = Eq.
Proof. unfold Ascii.compare. apply N.compare_refl. Qed.

Lemma string_compare_refl s : String.compare s s = Eq.
Proof.
  induction s as [|a s IH]; simpl; [done|]. by rewrite ascii_compare_refl.
Qed.

Lemma string_compare_trans s1 s2 s3 :
  String.compare s1 s2 = Lt -> String.compare s2 s3 = Lt ->
  String.compare s1 s3 = Lt.
Proof.
  revert s2 s3. induction s1 as [|a s1 IH]; intros [|b s2] [|c s3]; simpl;
    try discriminate; try done.
  destruct (Ascii.compare a b) eqn:Hab; try discriminate;
    destruct (Ascii.compare b c) eqn:Hbc; try discriminate; intros H1 H2.
  - apply Ascii.compare_eq_iff in Hab as ->. apply Ascii.compare_eq_iff in Hbc as ->.
    rewrite ascii_compare_refl. by eapply IH.
  - apply Ascii.compare_eq_iff in Hab as ->. by rewrite Hbc.
  - apply Ascii.compare_eq_iff in Hbc as <-. by rewrite Hab.
  - by rewrite (ascii_compare_trans _ _ _ Hab Hbc).
Qed.

Lemma string_ltb_trans s1 s2 s3 :
  String.ltb s1 s2 = true -> String.ltb s2 s3 = true -> String.ltb s1 s3 = true.
Proof.
  unfold String.ltb.
  destruct (String.compare s1 s2) eqn:H12; try discriminate.
  destruct (String.compare s2 s3) eqn:H23; try discriminate.
  by rewrite (string_compare_trans _ _ _ H12 H23).
Qed.

Lemma string_ltb_irrefl s : String.ltb s s = false.
Proof. unfold String.ltb. by rewrite string_compare_refl. Qed.

Lemma string_ltb_asym s1 s2 : String.ltb s1 s2 = true -> String.ltb s2 s1 = false.
Proof.
  unfold String.ltb. rewrite (String.compare_antisym s1 s2).
  by destruct (String.compare s2 s1).
Qed.

Lemma string_ltb_total s1 s2 :
  String.ltb s1 s2 = false -> s1 <> s2 -> String.ltb s2 s1 = true.
Proof.
  unfold String.ltb. rewrite (String.compare_antisym s1 s2).
  destruct (String.compare s2 s1) eqn:Hc; simpl; try done.
  intros _ Hne. apply String.compare_eq_iff in Hc. congruence.
Qed.

Lemma string_ltb_neq s1 s2 : String.ltb s1 s2 = true -> s1 <> s2.
Proof. intros Hlt ->. by rewrite string_ltb_irrefl in Hlt. Qed.

(* ================================================================== *)
(** * The registry of variables *)
(* ================================================================== *)

Lemma map_find_assign_eq name var m :
  map_find name (map_assign name var m) = Some var.
Proof.
  induction m as [|[k v] m IH]; simpl.
  - by rewrite String.eqb_refl.
  - destruct (String.ltb name k); simpl; [by rewrite String.eqb_refl|].
    destruct (String.eqb k name) eqn:Hk; simpl.
    + by rewrite String.eqb_refl.
    + by rewrite Hk.
Qed.

Lemma map_find_assign_ne name other var m :
  other <> name -> map_find other (map_assign name var m) = map_find other m.
Proof.
  intros Hne. apply String.eqb_neq in Hne. rewrite String.eqb_sym in Hne.
  induction m as [|[k v] m IH]; simpl.
  - by rewrite Hne.
  - destruct (String.ltb name k); simpl; [by rewrite Hne|].
    destruct (String.eqb_spec k name) as [->|Hk]; simpl.
    + by rewrite Hne.
    + by rewrite IH.
Qed.

Lemma map_find_None name m :
  map_find name m = None <-> forall kv, kv ∈ m -> kv.1 <> name.
Proof.
  induction m as [|[k v] m IH]; simpl.
  - split; [|done]. intros _ kv Hin. by apply elem_of_nil in Hin.
  - destruct (String.eqb_spec k name) as [->|Hk].
    + split; [done|]. intros Hall. by destruct (Hall (name, v) ltac:(left)).
    + rewrite IH. split.
      * intros Hall kv Hin. apply elem_of_cons in Hin as [->|Hin]; [done|].
        by apply Hall.
      * intros Hall kv Hin. apply Hall. by right.
Qed.

Lemma variable_run name st :
  variable name st =
    match map_find name (varmap_ st) with
    | Some v => (Ok v, st)
    | None => (Throw (no_such_variable_text name), st)
    end.
Proof. unfold variable, bind, get. by destruct (map_find _ _). Qed.

Lemma addVariable_run name var st :
  addVariable name var st =
    match map_find name (varmap_ st) with
    | Some _ => (Throw (already_added_text name), st)
    | None => (Ok tt, set_varmap_ (map_assign name var (varmap_ st)) st)
    end.
Proof. unfold addVariable, bind, get. by destruct (map_find _ _). Qed.

(** X9.  A variable that [addVariable] has registered is what [variable]
    returns for its name; the variables registered under other names are
    found as before, and nothing but the registry has changed. *)
Theorem addVariable_then_variable name var st st1 :
  addVariable name var st = (Ok tt, st1) ->
  variable name st1 = (Ok var, st1) /\
  (forall other, other <> name ->
     fst (variable other st1) = fst (variable other st)) /\
  st1 = set_varmap_ (varmap_ st1) st.
Proof.
  rewrite addVariable_run.
  destruct (map_find name (varmap_ st)) eqn:Hf; [discriminate|].
  intros [= <-]. split; [|split; [|done]].
  - rewrite variable_run. simpl. by rewrite map_find_assign_eq.
  - intros other Hne. rewrite !variable_run. simpl.
    rewrite map_find_assign_ne by done. by destruct (map_find other _).
Qed.

(** X10.  [variable] throws for a name under which nothing is registered,
    and [addVariable] throws for a name that is registered already; both
    exceptions name the variable and leave the object as it was: the
    variable registered first is not replaced. *)
Theorem registry_errors name st :
  ((forall kv, kv ∈ varmap_ st -> kv.1 <> name) ->
   variable name st = (Throw (no_such_variable_text name), st)) /\
  (forall var st1, addVariable name var st = (Ok tt, st1) ->
     forall var', addVariable name var' st1 = (Throw (already_added_text name), st1) /\
                  variable name st1 = (Ok var, st1)) /\
  MTxt name ∈ no_such_variable_text name /\
  MTxt name ∈ already_added_text name.
Proof.
  split; [|split; [|split]].
  - intros Hall. rewrite variable_run.
    by apply map_find_None in Hall as ->.
  - intros var st1. rewrite addVariable_run.
    destruct (map_find name (varmap_ st)) eqn:Hf; [discriminate|].
    intros [= <-] var'. rewrite addVariable_run, variable_run. simpl.
    by rewrite map_find_assign_eq.
  - unfold no_such_variable_text. set_solver.
  - unfold already_added_text. set_solver.
Qed.

Lemma keys_increase_cons k v m :
  keys_increase ((k, v) :: m) = true <->
  keys_increase m = true /\ forall kv, kv ∈ m -> String.ltb k kv.1 = true.
Proof.
  revert k v. induction m as [|[k' v'] m IH]; intros k v.
  - simpl. split; [|done]. intros _. split; [done|].
    intros kv Hin. by apply elem_of_nil in Hin.
  - change (keys_increase ((k, v) :: (k', v') :: m))
      with (String.ltb k k' && keys_increase ((k', v') :: m)).
    rewrite andb_true_iff. split.
    + intros [Hlt Hinc]. split; [done|].
      intros kv Hin. apply elem_of_cons in Hin as [->|Hin]; [done|].
      apply (string_ltb_trans _ k'); [done|].
      apply IH in Hinc as [_ Hall]. by apply Hall.
    + intros [Hinc Hall]. split; [|done]. apply (Hall (k', v')). by left.
Qed.

Lemma map_assign_elem name var m kv :
  kv ∈ map_assign name var m -> kv = (name, var) \/ kv ∈ m.
Proof.
  induction m as [|[k v] m IH]; simpl.
  - intros Hin. apply list_elem_of_singleton in Hin. by left.
  - destruct (String.ltb name k).
    { intros Hin. apply elem_of_cons in Hin as [->|Hin]; [by left|by right]. }
    destruct (String.eqb k name).
    { intros Hin. apply elem_of_cons in Hin as [->|Hin]; [by left|].
      right. by right. }
    intros Hin. apply elem_of_cons in Hin as [->|Hin]; [right; by left|].
    destruct (IH Hin) as [->|Hin']; [by left|right; by right].
Qed.

(** The registry stays in the order of its keys. *)
Lemma map_assign_keys_increase name var m :
  keys_increase m = true -> keys_increase (map_assign name var m) = true.
Proof.
  induction m as [|[k v] m IH]; [done|]. intros Hinc.
  cbn [map_assign].
  destruct (String.ltb name k) eqn:Hlt.
  { change (String.ltb name k && keys_increase ((k, v) :: m) = true).
    by rewrite Hlt, Hinc. }
  apply keys_increase_cons in Hinc as [Hinc Hall].
  destruct (String.eqb_spec k name) as [->|Hk].
  { by apply keys_increase_cons. }
  apply keys_increase_cons. split; [by apply IH|].
  intros kv Hin. apply map_assign_elem in Hin as [->|Hin]; [|by apply Hall].
  simpl. apply string_ltb_total; [done|congruence].
Qed.

Lemma map_assign_below name var m :
  (forall kv, kv ∈ m -> String.ltb name kv.1 = true) ->
  map_assign name var m = (name, var) :: m.
Proof.
  destruct m as [|[k v] m]; [done|]. intros Hall. simpl.
  assert (String.ltb name k = true) as -> by (apply (Hall (k, v)); by left).
  done.
Qed.

Lemma map_assign_above name var k v m :
  String.ltb k name = true ->
  map_assign name var ((k, v) :: m) = (k, v) :: map_assign name var m.
Proof.
  intros Hlt. simpl. rewrite (string_ltb_asym _ _ Hlt).
  destruct (String.eqb_spec k name) as [->|Hne]; [|done].
  by rewrite string_ltb_irrefl in Hlt.
Qed.

Lemma map_assign_same name var v m :
  map_assign name var ((name, v) :: m) = (name, var) :: m.
Proof. simpl. by rewrite string_ltb_irrefl, String.eqb_refl. Qed.

Lemma map_assign_commutes a b va vb m :
  keys_increase m = true -> a <> b ->
  map_assign a va (map_assign b vb m) = map_assign b vb (map_assign a va m).
Proof.
  intros Hinc Hne. revert a b va vb Hne.
  induction m as [|[k v] m IH]; intros a b va vb Hne.
  - simpl. destruct (String.ltb a b) eqn:Hlt.
    + rewrite (string_ltb_asym _ _ Hlt).
      destruct (String.eqb_spec a b); [congruence|done].
    + rewrite (string_ltb_total _ _ Hlt Hne).
      destruct (String.eqb_spec b a); [congruence|done].
  - apply keys_increase_cons in Hinc as [Hinc Hall].
    assert (Hcase : forall a b va vb, a <> b -> String.ltb b k = true ->
              map_assign a va (map_assign b vb ((k, v) :: m))
              = map_assign b vb (map_assign a va ((k, v) :: m))).
    { clear a b va vb Hne. intros a b va vb Hne Hbk.
      rewrite (map_assign_below b vb ((k, v) :: m)); cycle 1.
      { intros kv Hin. apply elem_of_cons in Hin as [->|Hin]; [done|].
        apply (string_ltb_trans _ k); [done|by apply Hall]. }
      destruct (String.ltb a b) eqn:Hab.
      - rewrite (map_assign_below a va ((k, v) :: m)); cycle 1.
        { intros kv Hin. apply (string_ltb_trans _ b); [done|].
          apply elem_of_cons in Hin as [->|Hin]; [done|].
          apply (string_ltb_trans _ k); [done|by apply Hall]. }
        rewrite map_assign_below.
        + rewrite map_assign_above by done.
          rewrite (map_assign_below b); [done|].
          intros kv Hin. apply elem_of_cons in Hin as [->|Hin]; [done|].
          apply (string_ltb_trans _ k); [done|by apply Hall].
        + intros kv Hin. apply elem_of_cons in Hin as [->|Hin]; [done|].
          apply (string_ltb_trans _ b); [done|].
          apply elem_of_cons in Hin as [->|Hin]; [done|].
          apply (string_ltb_trans _ k); [done|by apply Hall].
      - assert (Hba : String.ltb b a = true) by by apply string_ltb_total.
        rewrite map_assign_above by done.
        rewrite (map_assign_below b vb); [done|].
        intros kv Hin. apply map_assign_elem in Hin as [->|Hin]; [done|].
        apply elem_of_cons in Hin as [->|Hin]; [done|].
        apply (string_ltb_trans _ k); [done|by apply Hall]. }
    destruct (String.ltb b k) eqn:Hbk; [by apply Hcase|].
    destruct (String.ltb a k) eqn:Hak; [symmetry; by apply Hcase|].
    destruct (String.eqb_spec k b) as [->|Hkb].
    { assert (Hba : String.ltb b a = true) by (apply string_ltb_total; done).
      rewrite (map_assign_same b), (map_assign_above a va b) by done.
      rewrite (map_assign_above a va b) by done.
      by rewrite map_assign_same. }
    destruct (String.eqb_spec k a) as [->|Hka].
    { assert (Hab : String.ltb a b = true) by (apply string_ltb_total; done).
      rewrite (map_assign_same a), (map_assign_above b vb a) by done.
      rewrite (map_assign_above b vb a) by done.
      by rewrite map_assign_same. }
    assert (Hkb' : String.ltb k b = true) by (apply string_ltb_total; done).
    assert (Hka' : String.ltb k a = true) by (apply string_ltb_total; done).
    rewrite !map_assign_above by done. f_equal. by apply IH.
Qed.

(** X11.  The registry forgets the order of registration: registering two
    variables under different names in one order or the other gives the
    same object, so that the order in which [sortType] visits the registry,
    the order of the names, does not depend on it. *)
Theorem addVariable_commutes a b va vb st st1 :
  keys_increase (varmap_ st) = true -> a <> b ->
  (addVariable a va ;;; addVariable b vb) st = (Ok tt, st1) ->
  (addVariable b vb ;;; addVariable a va) st = (Ok tt, st1) /\
  keys_increase (varmap_ st1) = true.
Proof.
  intros Hinc Hne Hrun.
  apply bind_inv_ok in Hrun as ([] & s1 & Ha & Hb).
  rewrite addVariable_run in Ha.
  destruct (map_find a (varmap_ st)) eqn:Hfa; [discriminate|].
  injection Ha as <-.
  rewrite addVariable_run in Hb. simpl in Hb.
  rewrite map_find_assign_ne in Hb by congruence.
  destruct (map_find b (varmap_ st)) eqn:Hfb; [discriminate|].
  injection Hb as <-. split.
  - erewrite bind_ok; cycle 1.
    { rewrite addVariable_run, Hfb. reflexivity. }
    rewrite addVariable_run. simpl.
    rewrite map_find_assign_ne, Hfa by done.
    by rewrite map_assign_commutes.
  - simpl. by do 2 apply map_assign_keys_increase.
Qed.

Lemma addVariable_then_variable_witness :
  variable "x" (snd (addVariable "x" (plain_variable "x" CONTINUOUS INTERNAL) empty_ocp))
  = (Ok (plain_variable "x" CONTINUOUS INTERNAL),
     snd (addVariable "x" (plain_variable "x" CONTINUOUS INTERNAL) empty_ocp)).
Proof.
  apply (addVariable_then_variable "x" (plain_variable "x" CONTINUOUS INTERNAL)
           empty_ocp).
  reflexivity.
Defined.

Lemma registry_errors_witness :
  variable "x" empty_ocp = (Throw (no_such_variable_text "x"), empty_ocp).
Proof.
  apply (proj1 (registry_errors "x" empty_ocp)).
  intros kv Hin. simpl in Hin. by apply elem_of_nil in Hin.
Defined.

Lemma addVariable_commutes_witness :
  (addVariable "b" (plain_variable "b" CONTINUOUS INTERNAL) ;;;
   addVariable "a" (plain_variable "a" CONTINUOUS INPUT)) empty_ocp
  = (addVariable "a" (plain_variable "a" CONTINUOUS INPUT) ;;;
     addVariable "b" (plain_variable "b" CONTINUOUS INTERNAL)) empty_ocp.
Proof.
  apply (proj1 (addVariable_commutes "a" "b" (plain_variable "a" CONTINUOUS INPUT)
                  (plain_variable "b" CONTINUOUS INTERNAL) empty_ocp
                  (snd ((addVariable "a" (plain_variable "a" CONTINUOUS INPUT) ;;;
                         addVariable "b" (plain_variable "b" CONTINUOUS INTERNAL))
                          empty_ocp))
                  eq_refl ltac:(discriminate) eq_refl)).
Defined.

(* ================================================================== *)
(** * What the passes of the flat OCP keep *)
(* ================================================================== *)

Lemma preserves_modify {S} (R : S -> S -> Prop) (f : S -> S) :
  (forall s, R s (f s)) -> preserves R (modify f).
Proof. intros Hf s r s' [= <- <-]. apply Hf. Qed.

Lemma preserves_casadi_assert_message {S} (R : S -> S -> Prop) b m :
  (forall s, R s s) -> preserves R (@casadi_assert_message S b m).
Proof.
  intros Hrefl. unfold casadi_assert_message.
  destruct b; [by apply preserves_ret|by apply preserves_throw].
Qed.

Lemma preserves_vec_at {S A} (R : S -> S -> Prop) (l : list A) i :
  (forall s, R s s) -> preserves R (@vec_at S A l i).
Proof.
  intros Hrefl. unfold vec_at.
  destruct (l !! i); [by apply preserves_ret|by apply preserves_throw].
Qed.

Lemma preserves_for_each {S A} (R : S -> S -> Prop) (body : A -> M S unit) l :
  (forall s, R s s) -> (forall s1 s2 s3, R s1 s2 -> R s2 s3 -> R s1 s3) ->
  (forall a, preserves R (body a)) -> preserves R (for_each body l).
Proof.
  intros Hrefl Htrans Hbody. induction l as [|a l IH]; simpl.
  - by apply preserves_ret.
  - apply preserves_bind; [done|apply Hbody|by intros _].
Qed.

Lemma preserves_map_M {S A B} (R : S -> S -> Prop) (f : A -> M S B) l :
  (forall s, R s s) -> (forall s1 s2 s3, R s1 s2 -> R s2 s3 -> R s1 s3) ->
  (forall a, preserves R (f a)) -> preserves R (map_M f l).
Proof.
  intros Hrefl Htrans Hf. induction l as [|a l IH]; simpl.
  - by apply preserves_ret.
  - apply preserves_bind; [done|apply Hf|]. intros b.
    apply preserves_bind; [done|apply IH|]. intros bs. by apply preserves_ret.
Qed.

Lemma same_sizes_refl st : same_sizes st st.
Proof. by repeat split. Qed.

Lemma same_sizes_trans st1 st2 st3 :
  same_sizes st1 st2 -> same_sizes st2 st3 -> same_sizes st1 st3.
Proof.
  unfold same_sizes. intros H1 H2.
  destruct H1 as (?&?&?&?&?&?&?&?&?&?), H2 as (?&?&?&?&?&?&?&?&?&?).
  repeat split; congruence.
Qed.

Lemma same_sizes_consistent st st' :
  same_sizes st st' -> dimensions_consistent st -> dimensions_consistent st'.
Proof.
  unfold same_sizes, dimensions_consistent.
  intros (?&?&?&?&?&?&?&?&?&?) (?&?&?&?&?). repeat split; congruence.
Qed.

Lemma unsorted_same_refl st : unsorted_same st st.
Proof. by repeat split. Qed.

Lemma unsorted_same_trans st1 st2 st3 :
  unsorted_same st1 st2 -> unsorted_same st2 st3 -> unsorted_same st1 st3.
Proof.
  unfold unsorted_same. intros H1 H2.
  destruct H1 as (?&?&?&?&?&?&?&?&?&?&?&?&?&?&?),
           H2 as (?&?&?&?&?&?&?&?&?&?&?&?&?&?&?).
  repeat split; congruence.
Qed.

Ltac keeps_step R_refl R_trans :=
  lazymatch goal with
  | |- preserves _ (bind get _) => apply preserves_get_bind; intros ?
  | |- preserves _ (bind _ _) => apply preserves_bind; [exact R_trans| |intros ?]
  | |- preserves _ (ret _) => apply preserves_ret; exact R_refl
  | |- preserves _ (throw _) => apply preserves_throw; exact R_refl
  | |- preserves _ (casadi_assert_message _ _) =>
      apply preserves_casadi_assert_message; exact R_refl
  | |- preserves _ (casadi_assert _ _) =>
      apply preserves_casadi_assert_message; exact R_refl
  | |- preserves _ (vec_at _ _) => apply preserves_vec_at; exact R_refl
  | |- preserves _ (for_each _ _) =>
      apply preserves_for_each; [exact R_refl|exact R_trans|intros ?; cbv beta zeta]
  | |- preserves _ (map_M _ _) =>
      apply preserves_map_M; [exact R_refl|exact R_trans|intros ?; cbv beta zeta]
  | |- preserves _ (modify _) => apply preserves_modify; intros ?
  | |- preserves _ (if ?b then _ else _) => destruct b
  | |- preserves _ (match ?x with _ => _ end) => destruct x
  end.

Lemma sortType_keeps : preserves unsorted_same sortType.
Proof.
  unfold sortType.
  repeat keeps_step unsorted_same_refl unsorted_same_trans; try done.
  unfold sortType_visit.
  repeat keeps_step unsorted_same_refl unsorted_same_trans; done.
Qed.

(** X12.  [sortType] touches the lists it sorts into and the markers only:
    the registry, the quadrature states, the flags and every set of
    equations but the definitions of the dependent variables are as they
    were, whether it returns or throws. *)
Theorem sortType_frame st r st' :
  sortType st = (r, st') -> unsorted_same st st'.
Proof. apply sortType_keeps. Qed.

(** Reading a list through a list of indices changes nothing, and gives as
    many items as there are indices. *)
Lemma map_M_vec_at_inv {S A} (l : list A) (p idx : list nat) (s : S) r s' :
  map_M (fun i => r <- vec_at p i ;; vec_at l r) idx s = (r, s') ->
  s' = s /\ forall out, r = Ok out -> length out = length idx.
Proof.
  revert r s'. induction idx as [|i idx IH]; intros r s'; simpl.
  - intros [= <- <-]. split; [done|]. by intros out [= <-].
  - unfold bind at 1. unfold bind at 1, vec_at at 1.
    destruct (p !! i) as [j|]; simpl; [|intros [= <- <-]; by split].
    unfold vec_at at 1. destruct (l !! j) as [a|]; simpl;
      [|intros [= <- <-]; by split].
    unfold bind at 1.
    destruct (map_M _ idx s) as [[out|m] s1] eqn:Hrest;
      destruct (IH _ _ eq_refl) as [-> Hlen]; simpl; intros [= <- <-].
    + split; [done|]. intros out' [= <-]. simpl. by rewrite (Hlen out).
    + by split.
Qed.

Section passes.
Context `{Substrate}.

Lemma sortBLT_same_sizes with_x : preserves same_sizes (sortBLT with_x).
Proof.
  intros st r st'. unfold sortBLT, bind at 1, get. unfold bind at 1.
  destruct (map_M _ (seq 0 (length (dae_ st))) st) as [[dae_new|m] s1] eqn:Hdae;
    apply map_M_vec_at_inv in Hdae as [-> Hdl].
  2: { intros [= <- <-]. apply same_sizes_refl. }
  specialize (Hdl _ eq_refl). rewrite length_seq in Hdl.
  unfold bind at 1, modify at 1. unfold bind at 1.
  destruct (map_M _ (seq 0 (length (x_ st))) _) as [[x_new|m] s1] eqn:Hx;
    apply map_M_vec_at_inv in Hx as [-> Hxl].
  2: { intros [= <- <-]. by repeat split. }
  specialize (Hxl _ eq_refl). rewrite length_seq in Hxl.
  intros [= <- <-]. by repeat split.
Qed.

(** X13.  The passes that follow parsing keep the sizes of the lists of
    variables and of the sets of equations, whether they return or throw:
    an object on which the sizes checked at the end of parsing agree is
    still such an object after [scaleVariables],
    [eliminateInterdependencies], [eliminateDependent], [scaleEquations]
    and [sortBLT]. *)
Theorem passes_keep_dimensions (pass : M FlatOCPInternal unit) st r st' :
  pass = scaleVariables \/ pass = eliminateInterdependencies \/
  (exists b, pass = eliminateDependent b) \/ pass = scaleEquations \/
  (exists with_x, pass = sortBLT with_x) ->
  pass st = (r, st') ->
  same_sizes st st' /\
  (dimensions_consistent st -> dimensions_consistent st').
Proof.
  intros Hpass Hrun.
  assert (Hsame : same_sizes st st'); [|split; [done|by apply same_sizes_consistent]].
  revert st r st' Hrun. change (preserves same_sizes pass).
  destruct Hpass as [->|[->|[[b ->]|[->|[with_x ->]]]]].
  - unfold scaleVariables.
    repeat keeps_step same_sizes_refl same_sizes_trans;
      repeat split; simpl; by rewrite ?length_substitute.
  - intros st r st'. unfold eliminateInterdependencies, bind, get.
    destruct (substituteInPlace _ _ _) as [d|m] eqn:Hd.
    + apply substituteInPlace_free in Hd as [Hlen _].
      intros [= <- <-]. by repeat split.
    + intros [= <- <-]. apply same_sizes_refl.
  - unfold eliminateDependent.
    repeat keeps_step same_sizes_refl same_sizes_trans;
      repeat split; simpl; by rewrite ?length_substitute.
  - unfold scaleEquations, scale_factor, divide_equation.
    repeat keeps_step same_sizes_refl same_sizes_trans;
      repeat split; simpl; by rewrite ?length_insert.
  - apply sortBLT_same_sizes.
Qed.

End passes.

(* ================================================================== *)
(** * Role classification, run again *)
(* ================================================================== *)

(** The two outcomes of [sortType] on an object without markers. *)
Lemma sortType_cases (st : FlatOCPInternal) :
  temp_ st = [] ->
  let U := unmarked (var (y_ st)) (map snd (varmap_ st)) in
  if decide (Forall (fun v => role_of v <> RoleInvalid) U)
  then exists st1,
         sortType st = (Ok tt, st1) /\
         p_ st1 = with_role RoleParameter U /\
         x_ st1 = with_role RoleState U /\
         u_ st1 = with_role RoleControl U /\
         y_ st1 = y_ st ++ with_role RoleDependent U /\
         dep_ st1 = dep_ st ++ map (fun v => SXConst (v_nominal v))
                                   (with_role RoleDependent U) /\
         xd_ st1 = [] /\ xa_ st1 = [] /\ temp_ st1 = []
  else exists m st1, sortType st = (Throw m, st1).
Proof.
  intros Htemp U. rewrite sortType_unfold. cbv zeta. rewrite Htemp.
  set (st_b := set_temp_ _ _).
  assert (HU : unmarked (temp_ st_b) (map snd (varmap_ st)) = U).
  { apply unmarked_ext. intros s. unfold st_b. simpl.
    rewrite marked_elem, elem_of_nil. tauto. }
  pose proof (for_each_sortType_visit (varmap_ st) st_b) as Hloop.
  rewrite HU in Hloop.
  destruct (decide (Forall (fun v => role_of v <> RoleInvalid) U)) as [Hall|Hall].
  - destruct Hloop as (st_c & Hrun & Hp & Hx & Hu & Hy & Hd & Hxd & Hxa & Ht & _).
    erewrite bind_ok; [|exact Hrun]. unfold bind at 1, get.
    rewrite for_each_setTemp. eexists. split; [reflexivity|]. simpl.
    rewrite Hp, Hx, Hu, Hy, Hd, Hxd, Hxa, Ht. simpl.
    repeat (split; [done|]).
    apply elem_of_nil_inv. intros s Hs. apply cleared_elem in Hs as [Hn Hs].
    apply marked_elem in Hs as [Hs|Hs]; [|by apply elem_of_nil in Hs].
    apply Hn. unfold var. rewrite map_app. apply elem_of_app. by left.
  - destruct Hloop as (m & st_c & Hrun).
    exists m, st_c. by erewrite bind_throw.
Qed.

Lemma var_injective (l : list OCPVariable) v w :
  NoDup (var l) -> v ∈ l -> w ∈ l -> v_var v = v_var w -> v = w.
Proof.
  intros Hnd Hv Hw Heq.
  apply list_elem_of_lookup in Hv as [i Hi], Hw as [j Hj].
  assert (i = j) as ->; [|congruence].
  apply (NoDup_lookup (var l) i j (v_var v)); [done| |];
    unfold var; rewrite list_lookup_fmap; [by rewrite Hi|by rewrite Hj, Heq].
Qed.

(** Once the constants have joined the dependent variables, the variables
    left to sort are those that were sorted into another list. *)
Lemma unmarked_again (ys l : list OCPVariable) :
  NoDup (var l) ->
  let U := unmarked (var ys) l in
  unmarked (var (ys ++ with_role RoleDependent U)) l
  = filter (fun v => role_of v <> RoleDependent) U.
Proof.
  intros Hnd U.
  assert (Hgen : forall l', (forall v, v ∈ l' -> v ∈ l) ->
            unmarked (var (ys ++ with_role RoleDependent U)) l'
            = filter (fun v => role_of v <> RoleDependent) (unmarked (var ys) l')).
  { induction l' as [|v l' IH]; intros Hsub; [done|].
    rewrite !unmarked_cons.
    assert (Hv : v ∈ l) by (apply Hsub; by left).
    assert (IH' := IH (fun w Hw => Hsub w ltac:(by right))).
    destruct (getTemp (v_var v) (var ys)) eqn:Hm.
    - assert (getTemp (v_var v) (var (ys ++ with_role RoleDependent U)) = true) as ->.
      { apply getTemp_elem. apply getTemp_elem in Hm.
        unfold var. rewrite map_app. apply elem_of_app. by left. }
      done.
    - rewrite filter_cons.
      assert (HvU : v ∈ U).
      { unfold U, unmarked. apply list_elem_of_filter. by split. }
      destruct (decide (role_of v = RoleDependent)) as [Hr|Hr].
      + assert (getTemp (v_var v) (var (ys ++ with_role RoleDependent U)) = true) as ->.
        { apply getTemp_elem. unfold var. rewrite map_app. apply elem_of_app.
          right. apply list_elem_of_fmap. exists v. split; [done|].
          unfold with_role. apply list_elem_of_filter. by split. }
        rewrite decide_False by tauto. done.
      + assert (getTemp (v_var v) (var (ys ++ with_role RoleDependent U)) = false) as ->.
        { apply not_true_iff_false. rewrite getTemp_elem.
          unfold var. rewrite map_app, elem_of_app. intros [Hin|Hin].
          - apply not_true_iff_false in Hm. apply Hm. by apply getTemp_elem.
          - apply list_elem_of_fmap in Hin as (w & Heq & Hw).
            unfold with_role in Hw. apply list_elem_of_filter in Hw as [Hrw HwU].
            assert (w ∈ l).
            { unfold U, unmarked in HwU. by apply list_elem_of_filter in HwU as [_ ?]. }
            assert (v = w) by by eapply var_injective. congruence. }
        rewrite decide_True by done. by rewrite IH'. }
  by apply Hgen.
Qed.

Lemma with_role_filter r (U : list OCPVariable) :
  with_role r (filter (fun v => role_of v <> RoleDependent) U)
  = if decide (r = RoleDependent) then [] else with_role r U.
Proof.
  unfold with_role. induction U as [|v U IH]; [by case_decide|].
  rewrite !filter_cons.
  destruct (decide (role_of v <> RoleDependent)) as [Hv|Hv].
  - rewrite filter_cons, IH.
    destruct (decide (r = RoleDependent)) as [->|Hr].
    + by rewrite decide_False by done.
    + done.
  - rewrite IH. destruct (decide (r = RoleDependent)) as [->|Hr]; [done|].
    rewrite decide_False; [done|]. intros Heq. apply Hv. congruence.
Qed.

(** X14.  [sortType] can be run again: on a registry whose variables have
    symbols of their own, a second run after a run that returned returns
    too and leaves every list as the first run left it; in particular the
    constants are not appended to the dependent variables a second time. *)
Theorem sortType_idempotent st st1 :
  temp_ st = [] -> NoDup (var (map snd (varmap_ st))) ->
  sortType st = (Ok tt, st1) ->
  exists st2,
    sortType st1 = (Ok tt, st2) /\
    p_ st2 = p_ st1 /\ x_ st2 = x_ st1 /\ u_ st2 = u_ st1 /\
    y_ st2 = y_ st1 /\ dep_ st2 = dep_ st1 /\
    xd_ st2 = xd_ st1 /\ xa_ st2 = xa_ st1.
Proof.
  intros Htemp Hnd Hrun.
  pose proof (sortType_keeps _ _ _ Hrun) as (Hmap & _).
  pose proof (sortType_cases st Htemp) as H1. cbv zeta in H1.
  set (U := unmarked (var (y_ st)) (map snd (varmap_ st))) in *.
  destruct (decide (Forall _ U)) as [Hall|Hall];
    [|destruct H1 as (m & s & H1); congruence].
  destruct H1 as (st1' & Hrun' & Hp & Hx & Hu & Hy & Hd & Hxd & Hxa & Ht).
  assert (st1' = st1) as -> by congruence.
  pose proof (sortType_cases st1 Ht) as H2. cbv zeta in H2.
  rewrite Hmap, Hy in H2. fold U in H2.
  pose proof (unmarked_again (y_ st) (map snd (varmap_ st)) Hnd) as Hagain.
  cbv zeta in Hagain. fold U in Hagain. rewrite Hagain in H2.
  rewrite decide_True in H2.
  2: { apply Forall_forall. intros v Hv.
       apply list_elem_of_filter in Hv as [_ Hv].
       rewrite Forall_forall in Hall. by apply Hall. }
  destruct H2 as (st2 & Hrun2 & Hp2 & Hx2 & Hu2 & Hy2 & Hd2 & Hxd2 & Hxa2 & _).
  rewrite !with_role_filter in *. simpl in *.
  exists st2. split; [done|].
  rewrite Hp2, Hx2, Hu2, Hy2, Hd2, Hxd2, Hxa2, Hp, Hx, Hu, Hxd, Hxa.
  by rewrite !app_nil_r.
Qed.

(* ================================================================== *)
(** * BLT sorting loses nothing *)
(* ================================================================== *)

Lemma permuted_Permutation {A} (l l1 : list A) (p : list nat) :
  p ≡ₚ seq 0 (length l) -> length l1 = length l ->
  (forall i r, p !! i = Some r -> l1 !! i = l !! r) ->
  l1 ≡ₚ l.
Proof.
  intros Hp Hlen Hlook.
  destruct l as [|a0 l0] eqn:El.
  { destruct l1; [done|discriminate]. }
  rewrite <- El in *. clear El l0.
  assert (Hpl : length p = length l).
  { apply Permutation_length in Hp. by rewrite length_seq in Hp. }
  assert (l1 = (fun r => nth r l a0) <$> p) as ->.
  { apply list_eq. intros i. rewrite list_lookup_fmap.
    destruct (p !! i) as [r|] eqn:Hr; simpl.
    - rewrite (Hlook _ _ Hr).
      assert (r < length l) as Hlt by by eapply Permutation_seq_lookup.
      destruct (lookup_lt_is_Some_2 l r Hlt) as [x Hx].
      by rewrite Hx, (nth_lookup_Some _ _ a0 _ Hx).
    - apply lookup_ge_None. apply lookup_ge_None in Hr. lia. }
  rewrite Hp.
  assert (((fun r => nth r l a0) <$> seq 0 (length l)) = l) as ->; [|done].
  apply list_eq. intros i. rewrite list_lookup_fmap.
  destruct (decide (i < length l)) as [Hi|Hi].
  - rewrite lookup_seq_lt by done. simpl.
    destruct (lookup_lt_is_Some_2 l i Hi) as [x Hx].
    by rewrite Hx, (nth_lookup_Some _ _ a0 _ Hx).
  - rewrite lookup_seq_ge by lia. simpl. symmetry. apply lookup_ge_None. lia.
Qed.

Section sorting_more.
Context `{Substrate}.

(** X15.  When the decomposition hands [sortBLT] permutations of the
    indices of the equations and of the variables, the call returns, the
    sorted equations are the equations there were and the sorted variables
    the variables there were, none lost and none twice, and nothing else in
    the object has changed. *)
Theorem sortBLT_loses_nothing (with_x : bool) (st : FlatOCPInternal) :
  let blt := dulmageMendelsohn (sortBLT_sparsity with_x st) in
  rowperm blt ≡ₚ seq 0 (length (dae_ st)) ->
  colperm blt ≡ₚ seq 0 (length (x_ st)) ->
  exists st1,
    sortBLT with_x st = (Ok tt, st1) /\
    dae_ st1 ≡ₚ dae_ st /\ x_ st1 ≡ₚ x_ st /\
    st1 = set_x_ (x_ st1) (set_dae_ (dae_ st1) st).
Proof.
  intros blt Hrow Hcol.
  assert (Hrl : length (rowperm blt) = length (dae_ st)).
  { apply Permutation_length in Hrow. by rewrite length_seq in Hrow. }
  assert (Hcl : length (colperm blt) = length (x_ st)).
  { apply Permutation_length in Hcol. by rewrite length_seq in Hcol. }
  destruct (map_M_vec_at (dae_ st) (rowperm blt) (seq 0 (length (dae_ st))) st)
    as (dae_new & Hdae & Hdlen & Hdout).
  { intros i Hi. apply elem_of_seq in Hi.
    destruct (lookup_lt_is_Some_2 (rowperm blt) i) as [r Hr]; [lia|].
    destruct (lookup_lt_is_Some_2 (dae_ st) r) as [a Ha]; [|eauto].
    by eapply Permutation_seq_lookup. }
  destruct (map_M_vec_at (x_ st) (colperm blt) (seq 0 (length (x_ st)))
              (set_dae_ dae_new st))
    as (x_new & Hx & Hxlen & Hxout).
  { intros i Hi. apply elem_of_seq in Hi.
    destruct (lookup_lt_is_Some_2 (colperm blt) i) as [c Hc]; [lia|].
    destruct (lookup_lt_is_Some_2 (x_ st) c) as [a Ha]; [|eauto].
    by eapply Permutation_seq_lookup. }
  rewrite length_seq in Hdlen, Hxlen.
  exists (set_x_ x_new (set_dae_ dae_new st)).
  split; [|split; [|split; [|done]]].
  - unfold sortBLT, bind at 1, get. fold blt.
    erewrite bind_ok; [|exact Hdae].
    erewrite bind_ok; [|reflexivity].
    erewrite bind_ok; [|exact Hx]. reflexivity.
  - simpl. apply (permuted_Permutation _ _ (rowperm blt)); [done|done|].
    intros i r Hr. apply (Hdout i i r); [|done].
    apply lookup_seq. split; [done|]. apply lookup_lt_Some in Hr. lia.
  - simpl. apply (permuted_Permutation _ _ (colperm blt)); [done|done|].
    intros i c Hc. apply (Hxout i i c); [|done].
    apply lookup_seq. split; [done|]. apply lookup_lt_Some in Hc. lia.
Qed.

End sorting_more.

Lemma sortType_frame_witness :
  unsorted_same scenario_ocp (snd (sortType scenario_ocp)).
Proof.
  apply (sortType_frame scenario_ocp (fst (sortType scenario_ocp))).
  vm_compute. reflexivity.
Defined.

Lemma passes_keep_dimensions_witness :
  dimensions_consistent (snd (@sortBLT example_substrate false example_ocp)).
Proof.
  apply (@passes_keep_dimensions example_substrate
           (@sortBLT example_substrate false) example_ocp
           (fst (@sortBLT example_substrate false example_ocp))).
  - right. right. right. right. by exists false.
  - vm_compute. reflexivity.
  - vm_compute. repeat split; reflexivity.
Defined.

Lemma sortBLT_loses_nothing_witness :
  exists st1,
    @sortBLT example_substrate false example_ocp = (Ok tt, st1) /\
    dae_ st1 ≡ₚ dae_ example_ocp /\ x_ st1 ≡ₚ x_ example_ocp.
Proof.
  destruct (@sortBLT_loses_nothing example_substrate false example_ocp)
    as (st1 & Hrun & Hdae & Hx & _).
  - apply (Permutation_swap 0 1 []).
  - apply (Permutation_swap 0 1 []).
  - exists st1. split; [exact Hrun|]. split; [exact Hdae|exact Hx].
Defined.

Lemma sortType_idempotent_witness :
  exists st2,
    sortType (snd (sortType constant_ocp)) = (Ok tt, st2) /\
    y_ st2 = [plain_variable "c" CONSTANT INTERNAL] /\
    x_ st2 = [plain_variable "x" CONTINUOUS INTERNAL].
Proof.
  destruct (sortType_idempotent constant_ocp (snd (sortType constant_ocp)))
    as (st2 & Hrun & _ & Hx & _ & Hy & _).
  - reflexivity.
  - apply (bool_decide_unpack _). vm_compute. reflexivity.
  - vm_compute. reflexivity.
  - exists st2. split; [exact Hrun|]. rewrite Hy, Hx.
    split; vm_compute; reflexivity.
Defined.

(* ================================================================== *)
(** * What scaling and elimination leave alone *)
(* ================================================================== *)

Lemma variables_same_refl st : variables_same st st.
Proof. by repeat split. Qed.

Lemma variables_same_trans st1 st2 st3 :
  variables_same st1 st2 -> variables_same st2 st3 -> variables_same st1 st3.
Proof.
  unfold variables_same. intros H1 H2.
  destruct H1 as (?&?&?&?&?&?&?&?&?&?&?), H2 as (?&?&?&?&?&?&?&?&?&?&?).
  repeat split; congruence.
Qed.

Section scaling_frame.
Context `{Substrate}.

(** X16.  Scaling and elimination rewrite equations only: the registry and
    every list of variables (and with them the nominal, start, minimal and
    maximal values of the variables and the list of the dependent
    variables) and the bounds of the path constraints are as they were
    after [scaleVariables], [eliminateInterdependencies],
    [eliminateDependent] and [scaleEquations], whether they return or
    throw. *)
Theorem passes_keep_variables (pass : M FlatOCPInternal unit) st r st' :
  pass = scaleVariables \/ pass = eliminateInterdependencies \/
  (exists b, pass = eliminateDependent b) \/ pass = scaleEquations ->
  pass st = (r, st') ->
  variables_same st st'.
Proof.
  intros Hpass. revert st r st'. change (preserves variables_same pass).
  destruct Hpass as [->|[->|[[b ->]| ->]]].
  - unfold scaleVariables.
    repeat keeps_step variables_same_refl variables_same_trans; done.
  - unfold eliminateInterdependencies.
    repeat keeps_step variables_same_refl variables_same_trans; done.
  - unfold eliminateDependent.
    repeat keeps_step variables_same_refl variables_same_trans; done.
  - unfold scaleEquations, scale_factor, divide_equation.
    repeat keeps_step variables_same_refl variables_same_trans; done.
Qed.

End scaling_frame.

Lemma passes_keep_variables_witness :
  variables_same scenario_ocp (snd (eliminateDependent true scenario_ocp)).
Proof.
  apply (@passes_keep_variables example_substrate (eliminateDependent true)
           scenario_ocp (fst (eliminateDependent true scenario_ocp))).
  - right. right. left. by exists true.
  - vm_compute. reflexivity.
Defined.

Section manager_configuration.
Context `{DerivativeSubstrate}.

(** X17.  No accessor touches the configuration of the solver (the NLP
    function, the dimensions, the inputs, the options), removes a function,
    or changes the number of inputs or of outputs of a function that was
    there, whether it returns or throws. *)
Theorem accessor_keeps_configuration k st r st1 :
  access k st = (r, st1) ->
  config_same st st1 /\ arity_stable st st1.
Proof.
  intros Hrun.
  by pose proof (preserves_access_may_fill k _ _ _ Hrun) as (Hc & _ & _ & Ha).
Qed.

End manager_configuration.

Lemma accessor_keeps_configuration_witness :
  config_same plain_solver (snd (@access casadi_derivatives KHessLag plain_solver)).
Proof.
  apply (@accessor_keeps_configuration casadi_derivatives KHessLag plain_solver
           (fst (@access casadi_derivatives KHessLag plain_solver))).
  vm_compute. reflexivity.
Defined.

(* ================================================================== *)
(** * Reading expressions *)
(* ================================================================== *)

(** A string that begins with [exp:]. *)
Lemma prefix_exp s :
  String.prefix "exp:" s = true -> exists r, s = ("exp:" +:+ r)%string.
Proof.
  intros Hp.
  destruct s as [|a [|b [|c [|d s]]]]; cbn [String.prefix] in Hp;
    repeat match type of Hp with
    | context [Ascii.ascii_dec ?x ?y] =>
        destruct (Ascii.ascii_dec x y) as [<-|]; cbn [String.prefix] in Hp
    end; try discriminate.
  by exists s.
Qed.

Lemma prefix_exp_colon s : String.prefix "exp:" s = true -> colon_free s = false.
Proof. intros [r ->]%prefix_exp. reflexivity. Qed.

Lemma colon_free_tail c s : colon_free (String c s) = true -> colon_free s = true.
Proof. simpl. by intros [_ ?]%andb_true_iff. Qed.

Lemma colon_free_index s : colon_free s = true -> String.index 0 "exp:" s = None.
Proof.
  induction s as [|c s IH]; [done|]. intros Hc.
  cbn [String.index].
  destruct (String.prefix "exp:" (String c s)) eqn:Hp.
  { apply prefix_exp_colon in Hp. congruence. }
  by rewrite IH by by eapply colon_free_tail.
Qed.

(** The test of [readExpr] looks for [exp:] anywhere in the name, and the
    first four characters are then chopped whatever they are; for a name
    without colon behind them, the four characters were [exp:]. *)
Lemma chopped_name s k N :
  String.index 0 "exp:" s = Some k -> substr 4 s = N ->
  N <> EmptyString -> colon_free N = true ->
  s = ("exp:" +:+ N)%string.
Proof.
  intros Hidx Hsub Hne Hfree.
  destruct s as [|a [|b [|c [|d s]]]]; simpl in Hsub; try congruence.
  subst s.
  destruct (String.prefix "exp:" (String a (String b (String c (String d N))))) eqn:Hp.
  { apply prefix_exp in Hp as [r Hr]. injection Hr as -> -> -> -> ->. done. }
  exfalso.
  assert (H1 : String.prefix "exp:" (String b (String c (String d N))) = false).
  { apply not_true_is_false. intros [r Hr]%prefix_exp.
    injection Hr as -> -> -> ->. simpl in Hfree. discriminate. }
  assert (H2 : String.prefix "exp:" (String c (String d N)) = false).
  { apply not_true_is_false. intros [r Hr]%prefix_exp.
    injection Hr as -> -> ->. simpl in Hfree. discriminate. }
  assert (H3 : String.prefix "exp:" (String d N) = false).
  { apply not_true_is_false. intros [r Hr]%prefix_exp.
    injection Hr as -> ->. simpl in Hfree. discriminate. }
  cbn [String.index] in Hidx.
  by rewrite Hp, H1, H2, H3, (colon_free_index N Hfree) in Hidx.
Qed.

Ltac known_name Hname :=
  match goal with
  | Heq : ?name = ?N |- _ =>
      split;
      [ intros _ _ _; exists N; split;
        [ apply list_elem_of_In; simpl; tauto
        | by apply Hname ]
      | intros Hall; exfalso; apply (Hall N);
        [ apply list_elem_of_In; simpl; tauto
        | by apply Hname ] ]
  end.

Section reading.
Context `{ParserSubstrate}.

(** X18.  [readExpr] returns only for a node whose name is [exp:] followed
    by one of the names it has a case for: although its test accepts
    [exp:] anywhere in the name and then chops four characters whatever
    they are, no other name gets through.  For every other node it throws
    and leaves the object as it was; the exception is the complaint about
    the missing [exp:], the text of a string literal, or the complaint
    about an unknown node, which shows the name without its first four
    characters. *)
Theorem readExpr_names (node : XMLNode) (st : FlatOCPInternal) :
  (forall e st', readExpr node st = (Ok e, st') ->
     exists N, N ∈ expression_names /\ getName node = ("exp:" +:+ N)%string) /\
  ((forall N, N ∈ expression_names -> getName node <> ("exp:" +:+ N)%string) ->
   readExpr node st = (Throw (not_an_expression_text (getName node)), st) \/
   readExpr node st = (Throw (unknown_node_text (substr 4 (getName node))), st) \/
   (getName node = "exp:StringLiteral"%string /\
    readExpr node st = (Throw [MTxt (getText node)], st))).
Proof.
  destruct node as [fullname attributes text children].
  cbn [readExpr getName getText].
  destruct (String.index 0 "exp:" fullname) as [k|] eqn:Hidx.
  2: { split; [discriminate|]. intros _. by left. }
  assert (Hname : forall N, substr 4 fullname = N -> N <> EmptyString ->
            colon_free N = true -> fullname = ("exp:" +:+ N)%string).
  { intros N. by apply chopped_name with (k := k). }
  set (name := substr 4 fullname) in *.
  repeat match goal with
  | |- context [String.eqb name ?N] =>
      destruct (String.eqb_spec name N) as [Heq|?];
      [ first [ known_name Hname | idtac ] | ]
  end.
  - split; [discriminate|]. intros _. right. right.
    split; [by apply Hname|]. done.
  - split; [discriminate|]. intros _. right. by left.
Qed.


Lemma XMLNode_induction (P : XMLNode -> Prop) :
  (forall name attributes text children,
     Forall P children -> P (XMLElement name attributes text children)) ->
  forall node, P node.
Proof.
  intros Hstep. fix IH 1. intros [name attributes text children].
  apply Hstep. induction children as [|c children IHc]; constructor.
  - apply IH.
  - apply IHc.
Qed.

Lemma registry_only_refl st : registry_only st st.
Proof. unfold registry_only. by destruct st. Qed.

Lemma registry_only_trans st1 st2 st3 :
  registry_only st1 st2 -> registry_only st2 st3 -> registry_only st1 st3.
Proof. unfold registry_only. intros H1 ->. by rewrite H1 at 1. Qed.

Ltac reads_step := keeps_step registry_only_refl registry_only_trans.

Lemma preserves_child {S} (R : S -> S -> Prop) node i :
  (forall s, R s s) -> preserves R (@child S node i).
Proof.
  intros Hrefl. unfold child.
  destruct (_ !! _); [by apply preserves_ret|by apply preserves_throw].
Qed.

Lemma preserves_child_named {S} (R : S -> S -> Prop) node name :
  (forall s, R s s) -> preserves R (@child_named S node name).
Proof.
  intros Hrefl. unfold child_named.
  destruct (list_find _ _) as [[? ?]|];
    [by apply preserves_ret|by apply preserves_throw].
Qed.

Lemma preserves_attribute {S} (R : S -> S -> Prop) node name :
  (forall s, R s s) -> preserves R (@attribute S node name).
Proof.
  intros Hrefl. unfold attribute.
  destruct (list_find _ _) as [[? ?]|];
    [by apply preserves_ret|by apply preserves_throw].
Qed.

Lemma preserves_qualifiedName {S} (R : S -> S -> Prop) nn :
  (forall s, R s s) -> (forall s1 s2 s3, R s1 s2 -> R s2 s3 -> R s1 s3) ->
  preserves R (@qualifiedName _ S nn).
Proof.
  intros Hrefl Htrans. unfold qualifiedName.
  apply preserves_bind; [done| |intros ?; by apply preserves_ret].
  apply preserves_map_M; [done|done|]. intros [i part].
  unfold qualifiedName_part. cbn [fst snd].
  apply preserves_bind; [done|by apply preserves_attribute|]. intros namepart.
  destruct (0 <? size part); [|by apply preserves_ret].
  repeat (apply preserves_bind;
          [done|by apply preserves_child_named|intros ?]).
  by apply preserves_ret.
Qed.

Lemma preserves_variable name : preserves registry_only (variable name).
Proof. unfold variable. repeat reads_step. Qed.

Lemma preserves_readVariable node : preserves registry_only (readVariable node).
Proof.
  unfold readVariable.
  apply preserves_bind; [apply registry_only_trans| |intros qn].
  - apply preserves_qualifiedName;
      [apply registry_only_refl|apply registry_only_trans].
  - apply preserves_bind;
      [apply registry_only_trans|apply preserves_variable|intros v].
    apply preserves_ret, registry_only_refl.
Qed.

Lemma preserves_through_reference ref member :
  preserves registry_only (through_reference ref member).
Proof. unfold through_reference. repeat reads_step. reflexivity. Qed.

Lemma preserves_operands {S A B} (R : S -> S -> Prop) second_first
    (first : M S A) (second : M S B) :
  (forall s, R s s) -> (forall s1 s2 s3, R s1 s2 -> R s2 s3 -> R s1 s3) ->
  preserves R first -> preserves R second ->
  preserves R (operands second_first first second).
Proof.
  intros Hrefl Htrans Hfirst Hsecond. unfold operands.
  destruct second_first;
    (apply preserves_bind; [done|done|intros ?]);
    (apply preserves_bind; [done|done|intros ?]);
    by apply preserves_ret.
Qed.

Lemma preserves_noevent_loop second_first arg positions ex :
  (forall i, preserves registry_only (arg i)) ->
  preserves registry_only (noevent_loop second_first arg positions ex).
Proof.
  intros Harg. revert ex. induction positions as [|i rest IH]; intros ex; simpl.
  - apply preserves_ret, registry_only_refl.
  - apply preserves_bind; [apply registry_only_trans| |intros ce; apply IH].
    apply preserves_operands;
      [apply registry_only_refl|apply registry_only_trans|apply Harg|apply Harg].
Qed.

Lemma readExpr_keeps node : preserves registry_only (readExpr node).
Proof.
  induction node as [fullname attributes text children IH] using XMLNode_induction.
  assert (Harg : forall i,
            preserves registry_only
              (match map readExpr children !! i with
               | Some read => read
               | None => throw [MTxt "XMLNode: index out of bounds"]
               end)).
  { intros i. rewrite list_lookup_fmap.
    destruct (children !! i) as [c|] eqn:Hc; simpl.
    - rewrite Forall_forall in IH. apply IH. by eapply list_elem_of_lookup_2.
    - apply preserves_throw, registry_only_refl. }
  cbn [readExpr].
  destruct (String.index 0 "exp:" fullname);
    [|apply preserves_throw, registry_only_refl].
  repeat match goal with
  | |- preserves _ (if ?b then _ else _) => destruct b
  end;
  repeat first
    [ apply Harg
    | apply preserves_readVariable
    | apply preserves_through_reference
    | apply preserves_child; apply registry_only_refl
    | apply preserves_noevent_loop; exact Harg
    | apply preserves_operands;
        [exact registry_only_refl|exact registry_only_trans| | ]
    | lazymatch goal with
      | |- preserves _ (match length children with _ => _ end) =>
          destruct (length children)
      | |- preserves _ (bind get _) => apply preserves_get_bind; intros ?
      | |- preserves _ (bind _ _) =>
          apply preserves_bind; [exact registry_only_trans| |intros ?]
      | |- preserves _ (ret _) => apply preserves_ret; exact registry_only_refl
      | |- preserves _ (throw _) => apply preserves_throw; exact registry_only_refl
      end ].
Qed.

(** X19.  Reading an expression changes nothing in the object but the
    registry of variables (through which a derivative or a timed variable
    may be allocated), whether it returns or throws: no equation, no list
    of variables and no flag is touched. *)
Theorem readExpr_frame node st r st' :
  readExpr node st = (r, st') -> registry_only st st'.
Proof. apply readExpr_keeps. Qed.


(** The positions the loop of the [NoEvent] case visits, for [m] branches
    of which the first begins at position [first]. *)
Lemma noevent_positions_branches rounds first m :
  m < rounds -> first < 2 ->
  noevent_positions rounds (first + 2 * m)
  = map (fun j => first + 2 * j) (reverse (seq 0 (S m))).
Proof.
  revert rounds. induction m as [|m IH]; intros rounds Hr Hf.
  - destruct rounds as [|rounds]; [lia|]. simpl.
    rewrite Nat.add_0_r. by apply Nat.ltb_lt in Hf as ->.
  - destruct rounds as [|rounds]; [lia|].
    cbn [noevent_positions].
    assert ((first + 2 * S m <? 2) = false) as -> by (apply Nat.ltb_ge; lia).
    replace (first + 2 * S m - 2) with (first + 2 * m) by lia.
    rewrite IH by lia.
    rewrite (seq_S (S m)), reverse_app. simpl. done.
Qed.

(** Two operands that are evaluated without a change give the same in
    either order. *)
Lemma operands_unchanged {S A B} second_first (first : M S A) (second : M S B)
    a b (s : S) :
  first s = (Ok a, s) -> second s = (Ok b, s) ->
  operands second_first first second s = (Ok (a, b), s).
Proof.
  intros Hfirst Hsecond. unfold operands. destruct second_first.
  - erewrite bind_ok; [|exact Hsecond]. by erewrite bind_ok; [|exact Hfirst].
  - erewrite bind_ok; [|exact Hfirst]. by erewrite bind_ok; [|exact Hsecond].
Qed.

Lemma noevent_loop_branches second_first (arg : nat -> M FlatOCPInternal SX)
    st first (branches : list (SX * SX)) d :
  (forall j c e, branches !! j = Some (c, e) ->
     arg (first + 2 * j) st = (Ok c, st) /\
     arg (first + 2 * j + 1) st = (Ok e, st)) ->
  noevent_loop second_first arg
    (map (fun j => first + 2 * j) (reverse (seq 0 (length branches)))) d st
  = (Ok (nested_if branches d), st).
Proof.
  revert d. induction branches as [|[c e] branches IH] using rev_ind; intros d Harg.
  - reflexivity.
  - rewrite length_app. simpl. rewrite Nat.add_1_r, seq_S, reverse_app. simpl.
    destruct (Harg (length branches) c e) as [Hc He].
    { by rewrite lookup_app_r, Nat.sub_diag by lia. }
    erewrite bind_ok; [|by apply operands_unchanged]. cbn [fst snd].
    rewrite IH.
    + f_equal. f_equal. clear. induction branches as [|[c' e'] branches IH]; simpl.
      * done.
      * by rewrite IH.
    + intros j c' e' Hj. apply Harg. apply lookup_app_l_Some. exact Hj.
Qed.

Lemma readExpr_NoEvent_unfold attributes text children :
  readExpr (XMLElement "exp:NoEvent" attributes text children)
  = (let arg (i : nat) : M FlatOCPInternal SX :=
       match map readExpr children !! i with
       | Some read => read
       | None => throw [MTxt "XMLNode: index out of bounds"]
       end in
     let n := length children in
     ex <- match n with
           | 0 => throw [MTxt "XMLNode: index out of bounds"]
           | S m => arg m
           end ;;
     noevent_loop (second_operand_first "NoEvent") arg
       (if n <? 3 then [] else noevent_positions n (n - 3)) ex).
Proof. reflexivity. Qed.

(** X20.  The [NoEvent] construct is read as a chain of alternatives: for
    children that are the conditions and values of the branches in a row,
    followed by the default, the expression is
    [if c1 then e1 else if c2 then e2 ... else d], the first branch
    outermost.  With one child more in front, the result is the same: that
    first child is not read at all, whatever it is. *)
Theorem readExpr_NoEvent attributes text (ignored : list XMLNode)
    (children : list XMLNode) (branches : list (SX * SX)) (d : SX) st :
  length ignored <= 1 ->
  Forall2 (fun c v => readExpr c st = (Ok v, st)) children
          (in_a_row branches ++ [d]) ->
  readExpr (XMLElement "exp:NoEvent" attributes text (ignored ++ children)) st
  = (Ok (nested_if branches d), st).
Proof.
  intros Hign Hread.
  set (first := length ignored).
  assert (Hlen : length children = 2 * length branches + 1).
  { apply Forall2_length in Hread. rewrite Hread, length_app. simpl.
    unfold in_a_row. clear. induction branches as [|[c e] b IH]; simpl; [done|].
    simpl in IH. lia. }
  assert (Hval : forall i v, (in_a_row branches ++ [d]) !! i = Some v ->
            match map readExpr (ignored ++ children) !! (first + i) with
            | Some read => read
            | None => throw [MTxt "XMLNode: index out of bounds"]
            end st = (Ok v, st)).
  { intros i v Hv. rewrite list_lookup_fmap.
    rewrite lookup_app_r by (unfold first; lia).
    replace (first + i - length ignored) with i by (unfold first; lia).
    destruct (Forall2_lookup_r _ _ _ _ _ Hread Hv) as (c & Hc & Hrun).
    by rewrite Hc. }
  assert (Hbranch : forall j c e, branches !! j = Some (c, e) ->
            (in_a_row branches ++ [d]) !! (2 * j) = Some c /\
            (in_a_row branches ++ [d]) !! (2 * j + 1) = Some e).
  { clear. intros j c e. revert j.
    induction branches as [|[c' e'] b IH]; intros j Hj; [done|].
    destruct j as [|j]; simpl in *.
    - by injection Hj as -> ->.
    - replace (j + S (j + 0)) with (S (2 * j)) by lia.
      replace (j + S (j + 0) + 1) with (S (2 * j + 1)) by lia.
      simpl. by apply IH. }
  rewrite readExpr_NoEvent_unfold.
  rewrite length_app. fold first. rewrite Hlen.
  replace (first + (2 * length branches + 1)) with (S (first + 2 * length branches))
    by lia.
  erewrite bind_ok; cycle 1.
  { apply (Hval (2 * length branches)).
    rewrite lookup_app_r; unfold in_a_row.
    - assert (length (concat (map (fun b => [b.1; b.2]) branches))
              = 2 * length branches) as ->.
      { clear. induction branches as [|[c e] b IH]; simpl; [done|].
        simpl in IH. lia. }
      by rewrite Nat.sub_diag.
    - assert (length (concat (map (fun b => [b.1; b.2]) branches))
              = 2 * length branches) as ->; [|lia].
      clear. induction branches as [|[c e] b IH]; simpl; [done|].
      simpl in IH. lia. }
  destruct (length branches) as [|m] eqn:Hm.
  - destruct branches; [|discriminate].
    assert ((S (first + 2 * 0) <? 3) = true) as ->.
    { apply Nat.ltb_lt. unfold first. lia. }
    reflexivity.
  - assert ((S (first + 2 * S m) <? 3) = false) as -> by (apply Nat.ltb_ge; lia).
    replace (S (first + 2 * S m) - 3) with (first + 2 * m) by lia.
    rewrite noevent_positions_branches by (unfold first; lia).
    rewrite <- Hm. apply noevent_loop_branches.
    intros j c e Hj. destruct (Hbranch j c e Hj) as [Hc He].
    split.
    + by apply Hval.
    + replace (first + 2 * j + 1) with (first + (2 * j + 1)) by lia.
      by apply Hval.
Qed.

End reading.

Lemma readExpr_frame_witness :
  registry_only constant_ocp
    (snd (@readExpr example_parser example_switch constant_ocp)).
Proof.
  apply (@readExpr_frame example_parser example_switch constant_ocp
           (fst (@readExpr example_parser example_switch constant_ocp))).
  reflexivity.
Defined.

Lemma readExpr_NoEvent_witness :
  @readExpr example_parser
    (XMLElement "exp:NoEvent" [] ""
       ([example_identifier] ++
        [XMLElement "exp:LogLt" [] ""
           [example_identifier; XMLElement "exp:IntegerLiteral" [] "2" []];
         example_identifier;
         XMLElement "exp:Time" [] "" []])) constant_ocp
  = (Ok (nested_if [(SXBin OpLt (SXSym "x") (SXConst 2), SXSym "x")] (SXSym "t")),
     constant_ocp).
Proof.
  apply (@readExpr_NoEvent example_parser [] "" [example_identifier]).
  - simpl. lia.
  - repeat constructor.
Defined.

(* ================================================================== *)
(** * Properties of adding the objective and the constraints *)
(* ================================================================== *)

Lemma bind_inv {S A B} (c : M S A) (k : A -> M S B) s r s' :
  bind c k s = (r, s') ->
  (exists a s1, c s = (Ok a, s1) /\ k a s1 = (r, s')) \/
  (exists m, c s = (Throw m, s') /\ r = Throw m).
Proof.
  unfold bind. destruct (c s) as [[a|m] s1]; intros Hk.
  - left. by exists a, s1.
  - right. exists m. by injection Hk as <- <-.
Qed.

(** A loop over the positions of the children is a loop over the children. *)
Lemma for_each_children {S} (node : XMLNode) (f : XMLNode -> M S unit) (s : S) :
  for_each (fun i => c <- child node i ;; f c) (seq 0 (size node)) s
  = for_each f (node_children node) s.
Proof.
  unfold size, child.
  assert (Hgen : forall suf pre s,
            node_children node = pre ++ suf ->
            for_each (fun i => c <- match node_children node !! i with
                                    | Some c => ret c
                                    | None => throw [MTxt "XMLNode: index out of bounds"]
                                    end ;; f c)
                     (seq (length pre) (length suf)) s
            = for_each f suf s).
  { clear s. induction suf as [|c suf IH]; intros pre s Hsplit; [reflexivity|].
    cbn [length seq for_each].
    assert (Hc : node_children node !! length pre = Some c).
    { rewrite Hsplit, lookup_app_r, Nat.sub_diag by lia. done. }
    unfold bind. rewrite Hc. unfold ret at 1.
    destruct (f c s) as [[[]|m] s1]; [|reflexivity].
    specialize (IH (pre ++ [c]) s1). rewrite length_app in IH. simpl in IH.
    rewrite Nat.add_1_r in IH. apply IH. by rewrite <- app_assoc. }
  apply (Hgen (node_children node) []). done.
Qed.

Section adding.
Context `{ParserSubstrate}.

(** ** What an expression is read from *)

Lemma reads_registry_ret {A} (a : A) : reads_registry (ret a).
Proof. by intros st1 st2 Hv. Qed.

Lemma reads_registry_throw {A} m : reads_registry (@throw _ A m).
Proof. by intros st1 st2 Hv. Qed.

Lemma reads_registry_bind {A B} (c : M FlatOCPInternal A)
    (k : A -> M FlatOCPInternal B) :
  reads_registry c -> (forall a, reads_registry (k a)) ->
  reads_registry (bind c k).
Proof.
  intros Hc Hk st1 st2 Hv. unfold bind.
  destruct (Hc st1 st2 Hv) as [Hr Hv'].
  destruct (c st1) as [r1 s1], (c st2) as [r2 s2]. simpl in Hr, Hv'. subst r2.
  destruct r1 as [a|m]; [by apply Hk|done].
Qed.

Lemma reads_registry_child node i : reads_registry (child node i).
Proof.
  unfold child.
  destruct (_ !! _); [apply reads_registry_ret|apply reads_registry_throw].
Qed.

Lemma reads_registry_child_named node name :
  reads_registry (child_named node name).
Proof.
  unfold child_named.
  destruct (list_find _ _) as [[? ?]|];
    [apply reads_registry_ret|apply reads_registry_throw].
Qed.

Lemma reads_registry_attribute node name :
  reads_registry (attribute node name).
Proof.
  unfold attribute.
  destruct (list_find _ _) as [[? ?]|];
    [apply reads_registry_ret|apply reads_registry_throw].
Qed.

Lemma reads_registry_map_M {A B} (f : A -> M FlatOCPInternal B) l :
  (forall a, reads_registry (f a)) -> reads_registry (map_M f l).
Proof.
  intros Hf. induction l as [|a l IH]; simpl.
  - apply reads_registry_ret.
  - apply reads_registry_bind; [apply Hf|intros b].
    apply reads_registry_bind; [apply IH|intros bs]. apply reads_registry_ret.
Qed.

Lemma reads_registry_qualifiedName nn : reads_registry (qualifiedName nn).
Proof.
  unfold qualifiedName.
  apply reads_registry_bind; [|intros ?; apply reads_registry_ret].
  apply reads_registry_map_M. intros [i part].
  unfold qualifiedName_part. cbn [fst snd].
  apply reads_registry_bind; [apply reads_registry_attribute|intros namepart].
  destruct (0 <? size part); [|apply reads_registry_ret].
  repeat (apply reads_registry_bind;
          [apply reads_registry_child_named|intros ?]).
  apply reads_registry_ret.
Qed.

Lemma reads_registry_variable name : reads_registry (variable name).
Proof.
  intros st1 st2 [Hmap Ht]. unfold variable, bind, get. rewrite Hmap.
  by destruct (map_find name (varmap_ st2)).
Qed.

Lemma reads_registry_readVariable node : reads_registry (readVariable node).
Proof.
  unfold readVariable.
  apply reads_registry_bind; [apply reads_registry_qualifiedName|intros qn].
  apply reads_registry_bind; [apply reads_registry_variable|intros v].
  apply reads_registry_ret.
Qed.

Lemma reads_registry_through_reference ref member :
  reads_registry (through_reference ref member).
Proof.
  intros st1 st2 [Hmap Ht]. unfold through_reference, bind, modify, ret.
  simpl. by rewrite Hmap.
Qed.

Lemma reads_registry_operands {A B} second_first
    (first : M FlatOCPInternal A) (second : M FlatOCPInternal B) :
  reads_registry first -> reads_registry second ->
  reads_registry (operands second_first first second).
Proof.
  intros Hfirst Hsecond. unfold operands.
  destruct second_first;
    (apply reads_registry_bind; [done|intros ?]);
    (apply reads_registry_bind; [done|intros ?]);
    apply reads_registry_ret.
Qed.

Lemma reads_registry_noevent_loop second_first arg positions ex :
  (forall i, reads_registry (arg i)) ->
  reads_registry (noevent_loop second_first arg positions ex).
Proof.
  intros Harg. revert ex. induction positions as [|i rest IH]; intros ex; simpl.
  - apply reads_registry_ret.
  - apply reads_registry_bind; [|intros ce; apply IH].
    apply reads_registry_operands; apply Harg.
Qed.

Lemma readExpr_reads node : reads_registry (readExpr node).
Proof.
  induction node as [fullname attributes text children IH] using XMLNode_induction.
  assert (Harg : forall i,
            reads_registry
              (match map readExpr children !! i with
               | Some read => read
               | None => throw [MTxt "XMLNode: index out of bounds"]
               end)).
  { intros i. rewrite list_lookup_fmap.
    destruct (children !! i) as [c|] eqn:Hc; simpl.
    - rewrite Forall_forall in IH. apply IH. by eapply list_elem_of_lookup_2.
    - apply reads_registry_throw. }
  cbn [readExpr].
  destruct (String.index 0 "exp:" fullname); [|apply reads_registry_throw].
  repeat match goal with
  | |- reads_registry (if ?b then _ else _) => destruct b
  end;
  repeat first
    [ apply Harg
    | apply reads_registry_readVariable
    | apply reads_registry_through_reference
    | apply reads_registry_child
    | apply reads_registry_noevent_loop; exact Harg
    | apply reads_registry_operands
    | lazymatch goal with
      | |- reads_registry (match length children with _ => _ end) =>
          destruct (length children)
      | |- reads_registry (bind get _) =>
          intros st1 st2 [Hmap Ht]; unfold bind, get, ret; simpl;
          rewrite Ht; by split
      | |- reads_registry (bind _ _) =>
          apply reads_registry_bind; [|intros ?]
      | |- reads_registry (ret _) => apply reads_registry_ret
      | |- reads_registry (throw _) => apply reads_registry_throw
      end ].
Qed.

Lemma readExpr_transfer node st1 st2 r st1' :
  varmap_ st2 = varmap_ st1 -> t_ st2 = t_ st1 ->
  readExpr node st1 = (r, st1') ->
  readExpr node st2 = (r, set_varmap_ (varmap_ st1') st2).
Proof.
  intros Hmap Ht Hrun.
  destruct (readExpr_reads node st1 st2) as [Hr [Hmap' _]]; [by split|].
  rewrite Hrun in Hr, Hmap'. simpl in Hr, Hmap'.
  destruct (readExpr node st2) as [r2 st2'] eqn:Hrun2. simpl in Hr, Hmap'.
  subst r2. f_equal.
  pose proof (readExpr_keeps node _ _ _ Hrun2) as Hframe.
  unfold registry_only in Hframe. by rewrite Hmap'.
Qed.

(** X21.  What reading an expression returns, and the registry it leaves,
    are decided by the registry and the time symbol alone: in an object
    with the same registry and the same time symbol, whatever its
    equations, lists and flags, the outcome is the same, the registry
    afterwards is the same, and all the rest is as it was. *)
Theorem readExpr_reads_registry node st1 st2 :
  varmap_ st2 = varmap_ st1 -> t_ st2 = t_ st1 ->
  readExpr node st2
  = (fst (readExpr node st1),
     set_varmap_ (varmap_ (snd (readExpr node st1))) st2).
Proof.
  intros Hmap Ht. apply (readExpr_transfer node st1 st2); [done|done|].
  by destruct (readExpr node st1).
Qed.

(** ** The objective *)

(** Reading the items of a list one after the other. *)
Lemma map_M_readExpr_keeps cs : preserves registry_only (map_M readExpr cs).
Proof.
  apply preserves_map_M;
    [apply registry_only_refl|apply registry_only_trans|apply readExpr_keeps].
Qed.

(** A list of items of which the reading fails: the items before the one
    that fails are read, and that one throws. *)
Lemma map_M_throw_prefix {S A B} (f : A -> M S B) cs (st : S) m st1 :
  map_M f cs st = (Throw m, st1) ->
  exists vs s c,
    map_M f (take (length vs) cs) st = (Ok vs, s) /\
    cs !! length vs = Some c /\
    f c s = (Throw m, st1).
Proof.
  revert st. induction cs as [|c cs IH]; intros st Hrun; [discriminate|].
  cbn [map_M] in Hrun. unfold bind at 1 in Hrun.
  destruct (f c st) as [[v|m'] s1] eqn:Hc.
  - unfold bind at 1 in Hrun.
    destruct (map_M f cs s1) as [[vs|m''] s2] eqn:Hcs; [discriminate|].
    injection Hrun as -> ->.
    destruct (IH s1 Hcs) as (vs & s & c' & Hvs & Hc' & Hthrow).
    exists (v :: vs), s, c'. split; [|by split].
    cbn [length take map_M]. erewrite bind_ok; [|exact Hc].
    by erewrite bind_ok; [|exact Hvs].
  - injection Hrun as -> ->. exists [], st, c. by repeat split.
Qed.

Section appending.
Variable push : SX -> FlatOCPInternal -> FlatOCPInternal.
Hypothesis push_varmap : forall v st, varmap_ (push v st) = varmap_ st.
Hypothesis push_t : forall v st, t_ (push v st) = t_ st.
Hypothesis push_set_varmap : forall v m st,
  set_varmap_ m (push v st) = push v (set_varmap_ m st).

Lemma fold_left_push_set_varmap vs m st :
  set_varmap_ m (fold_left (fun s v => push v s) vs st)
  = fold_left (fun s v => push v s) vs (set_varmap_ m st).
Proof using push_set_varmap.
  revert st. induction vs as [|v vs IH]; intros st; simpl; [done|].
  by rewrite IH, push_set_varmap.
Qed.

Lemma fold_left_push_view vs st :
  varmap_ (fold_left (fun s v => push v s) vs st) = varmap_ st /\
  t_ (fold_left (fun s v => push v s) vs st) = t_ st.
Proof using push_varmap push_t.
  revert st. induction vs as [|v vs IH]; intros st; simpl; [done|].
  destruct (IH (push v st)) as [-> ->]. by rewrite push_varmap, push_t.
Qed.

(** Reading and appending in turn comes to reading all and appending all. *)
Lemma for_each_push cs st sta vs st1 :
  varmap_ sta = varmap_ st -> t_ sta = t_ st ->
  map_M readExpr cs st = (Ok vs, st1) ->
  for_each (fun c => v <- readExpr c ;; modify (push v)) cs sta
  = (Ok tt, fold_left (fun s v => push v s) vs (set_varmap_ (varmap_ st1) sta)).
Proof using All.
  revert st sta vs st1.
  induction cs as [|c cs IH]; intros st sta vs st1 Hmap Ht Hrun.
  - injection Hrun as <- <-. simpl.
    unfold ret. f_equal. rewrite <- Hmap. by destruct sta.
  - cbn [map_M for_each] in *.
    apply bind_inv_ok in Hrun as (v & s1 & Hc & Hrun).
    apply bind_inv_ok in Hrun as (vs' & s2 & Hcs & [= <- <-]).
    pose proof (readExpr_transfer c st sta _ _ Hmap Ht Hc) as Hc'.
    pose proof (readExpr_keeps c _ _ _ Hc) as Hk. unfold registry_only in Hk.
    rewrite (bind_ok _ _ sta tt (push v (set_varmap_ (varmap_ s1) sta)))
      by (by rewrite (bind_ok _ _ _ _ _ Hc')).
    rewrite (IH s1 (push v (set_varmap_ (varmap_ s1) sta)) vs' s2).
    + cbn [fold_left]. by rewrite push_set_varmap.
    + rewrite push_varmap. by destruct sta.
    + rewrite push_t, Hk. by destruct sta, st.
    + exact Hcs.
Qed.

(** When reading the child at position [length vs] fails, after the
    children before it have given [vs], the loop stops there with [vs]
    appended. *)
Lemma for_each_push_throw cs st vs s c m st1 :
  map_M readExpr (take (length vs) cs) st = (Ok vs, s) ->
  cs !! length vs = Some c ->
  readExpr c s = (Throw m, st1) ->
  for_each (fun c => v <- readExpr c ;; modify (push v)) cs st
  = (Throw m, fold_left (fun s v => push v s) vs st1).
Proof using All.
  intros Hvs Hc Hthrow.
  rewrite <- (take_drop (length vs) cs) at 1.
  rewrite (drop_S _ _ _ Hc).
  assert (Happ : forall (l1 l2 : list XMLNode) s0 s1,
            for_each (fun c => v <- readExpr c ;; modify (push v)) l1 s0
              = (Ok tt, s1) ->
            for_each (fun c => v <- readExpr c ;; modify (push v)) (l1 ++ l2) s0
            = for_each (fun c => v <- readExpr c ;; modify (push v)) l2 s1).
  { clear. induction l1 as [|c l1 IH]; intros l2 s0 s1 Hrun.
    - by injection Hrun as <-.
    - cbn [for_each app] in *. unfold bind at 1 in Hrun. unfold bind at 1.
      destruct ((v <- readExpr c ;; modify (push v)) s0) as [[[]|m] s2];
        [|discriminate].
      by apply IH. }
  rewrite (Happ _ _ _ _ (for_each_push _ st st vs s eq_refl eq_refl Hvs)).
  cbn [for_each].
  pose proof (map_M_readExpr_keeps _ _ _ _ Hvs) as Hs.
  unfold registry_only in Hs. rewrite <- Hs.
  destruct (fold_left_push_view vs s) as [Hview_m Hview_t].
  pose proof (readExpr_transfer c s _ _ _ Hview_m Hview_t Hthrow) as Hc'.
  apply bind_throw. erewrite bind_throw; [reflexivity|].
  rewrite Hc'. f_equal.
  rewrite fold_left_push_set_varmap. f_equal.
  pose proof (readExpr_keeps c _ _ _ Hthrow) as Hk.
  by unfold registry_only in Hk.
Qed.

End appending.

Lemma fold_left_set_mterm_ vs st :
  fold_left (fun s v => set_mterm_ (mterm_ s ++ [v]) s) vs st
  = set_mterm_ (mterm_ st ++ vs) st.
Proof.
  revert st. induction vs as [|v vs IH]; intros st; simpl.
  - rewrite app_nil_r. by destruct st.
  - rewrite IH. simpl. rewrite <- app_assoc. by destruct st.
Qed.

Lemma fold_left_set_lterm_ vs st :
  fold_left (fun s v => set_lterm_ (lterm_ s ++ [v]) s) vs st
  = set_lterm_ (lterm_ st ++ vs) st.
Proof.
  revert st. induction vs as [|v vs IH]; intros st; simpl.
  - rewrite app_nil_r. by destruct st.
  - rewrite IH. simpl. rewrite <- app_assoc. by destruct st.
Qed.

(** X22.  Adding the terms of an objective comes to reading the children
    one after the other and appending what they give, in their order, to
    the terms there are: the end terms for [addObjectiveFunction], the
    integrand terms for [addIntegrandObjectiveFunction].  When reading a
    child fails, after the children before it have given the terms [vs],
    the failure is the one of that child, and exactly the terms [vs] of
    the children before it have been appended and stay. *)
Theorem objective_terms_appended onode st r st1 :
  map_M readExpr (node_children onode) st = (r, st1) ->
  match r with
  | Ok vs =>
      addObjectiveFunction onode st
      = (Ok tt, set_mterm_ (mterm_ st ++ vs) st1) /\
      addIntegrandObjectiveFunction onode st
      = (Ok tt, set_lterm_ (lterm_ st ++ vs) st1)
  | Throw m =>
      exists vs s c,
        map_M readExpr (take (length vs) (node_children onode)) st = (Ok vs, s) /\
        node_children onode !! length vs = Some c /\
        readExpr c s = (Throw m, st1) /\
        addObjectiveFunction onode st
        = (Throw m, set_mterm_ (mterm_ st ++ vs) st1) /\
        addIntegrandObjectiveFunction onode st
        = (Throw m, set_lterm_ (lterm_ st ++ vs) st1)
  end.
Proof.
  intros Hrun.
  pose proof (map_M_readExpr_keeps _ _ _ _ Hrun) as Hframe.
  unfold registry_only in Hframe.
  assert (Hmt : mterm_ st1 = mterm_ st) by (by rewrite Hframe).
  assert (Hlt : lterm_ st1 = lterm_ st) by (by rewrite Hframe).
  unfold addObjectiveFunction, addIntegrandObjectiveFunction.
  rewrite !for_each_children.
  destruct r as [vs|m].
  - rewrite (for_each_push (fun v s => set_mterm_ (mterm_ s ++ [v]) s)
               (fun _ _ => eq_refl) (fun _ _ => eq_refl) (fun _ _ _ => eq_refl)
               _ st st vs st1 eq_refl eq_refl Hrun).
    rewrite (for_each_push (fun v s => set_lterm_ (lterm_ s ++ [v]) s)
               (fun _ _ => eq_refl) (fun _ _ => eq_refl) (fun _ _ _ => eq_refl)
               _ st st vs st1 eq_refl eq_refl Hrun).
    by rewrite fold_left_set_mterm_, fold_left_set_lterm_, <- Hframe, Hmt, Hlt.
  - destruct (map_M_throw_prefix _ _ _ _ _ Hrun) as (vs & s & c & Hvs & Hc & Hthrow).
    exists vs, s, c. split; [done|]. split; [done|]. split; [done|].
    rewrite (for_each_push_throw (fun v s => set_mterm_ (mterm_ s ++ [v]) s)
               (fun _ _ => eq_refl) (fun _ _ => eq_refl) (fun _ _ _ => eq_refl)
               _ st vs s c m st1 Hvs Hc Hthrow).
    rewrite (for_each_push_throw (fun v s => set_lterm_ (lterm_ s ++ [v]) s)
               (fun _ _ => eq_refl) (fun _ _ => eq_refl) (fun _ _ _ => eq_refl)
               _ st vs s c m st1 Hvs Hc Hthrow).
    by rewrite fold_left_set_mterm_, fold_left_set_lterm_, Hmt, Hlt.
Qed.

(** ** The path constraints *)

Lemma add_rows_nil st : add_rows [] st = st.
Proof. unfold add_rows. simpl. rewrite !app_nil_r. by destruct st. Qed.

Lemma add_rows_app rows1 rows2 st :
  add_rows rows2 (add_rows rows1 st) = add_rows (rows1 ++ rows2) st.
Proof.
  unfold add_rows. simpl. rewrite !map_app, !app_assoc. reflexivity.
Qed.

Lemma add_rows_set_varmap rows m st :
  set_varmap_ m (add_rows rows st) = add_rows rows (set_varmap_ m st).
Proof. reflexivity. Qed.

(** The body of the loop of [addConstraints], for the constraint [c]. *)
Lemma addConstraints_step (c : XMLNode) st r st' :
  (if checkName c "opt:ConstraintLeq" then
     (c0 <- child c 0 ;;
      ex <- readExpr c0 ;;
      c1 <- child c 1 ;;
      ub <- readExpr c1 ;;
      modify (fun st => set_path_ (path_ st ++ [SXBin OpSub ex ub]) st) ;;;
      modify (fun st => set_path_min_ (path_min_ st ++ [neg_infinity]) st) ;;;
      modify (fun st => set_path_max_ (path_max_ st ++ [0%float]) st))
   else if checkName c "opt:ConstraintGeq" then
     (c0 <- child c 0 ;;
      ex <- readExpr c0 ;;
      c1 <- child c 1 ;;
      lb <- readExpr c1 ;;
      modify (fun st => set_path_ (path_ st ++ [SXBin OpSub ex lb]) st) ;;;
      modify (fun st => set_path_min_ (path_min_ st ++ [0%float]) st) ;;;
      modify (fun st => set_path_max_ (path_max_ st ++ [infinity]) st))
   else if checkName c "opt:ConstraintEq" then
     (c0 <- child c 0 ;;
      ex <- readExpr c0 ;;
      c1 <- child c 1 ;;
      eq <- readExpr c1 ;;
      modify (fun st => set_path_ (path_ st ++ [SXBin OpSub ex eq]) st) ;;;
      modify (fun st => set_path_min_ (path_min_ st ++ [0%float]) st) ;;;
      modify (fun st => set_path_max_ (path_max_ st ++ [0%float]) st))
   else
     throw [MTxt "FlatOCPInternal::addConstraints"]) st = (r, st') ->
  match r with
  | Ok _ => exists row, row_of c row /\
                        st' = add_rows [row] (set_varmap_ (varmap_ st') st)
  | Throw _ => registry_only st st'
  end.
Proof.
  assert (Hreads : forall (c0i c1i : nat) (lb ub : float) r st',
    constraint_bounds (getName c) = Some (lb, ub) ->
    (c0 <- child c c0i ;;
     ex <- readExpr c0 ;;
     c1 <- child c c1i ;;
     b <- readExpr c1 ;;
     modify (fun st => set_path_ (path_ st ++ [SXBin OpSub ex b]) st) ;;;
     modify (fun st => set_path_min_ (path_min_ st ++ [lb]) st) ;;;
     modify (fun st => set_path_max_ (path_max_ st ++ [ub]) st)) st = (r, st') ->
    match r with
    | Ok _ => exists row, row_of c row /\
                          st' = add_rows [row] (set_varmap_ (varmap_ st') st)
    | Throw _ => registry_only st st'
    end).
  { clear r st'. intros c0i c1i lb ub r st' Hkind Hrun.
    apply bind_inv in Hrun as [(c0 & s0 & Hc0 & Hrun)|(m & Hc0 & ->)]; cycle 1.
    { by apply (preserves_child registry_only c c0i registry_only_refl) in Hc0. }
    apply (preserves_child registry_only c c0i registry_only_refl) in Hc0 as H0.
    apply bind_inv in Hrun as [(ex & s1 & Hex & Hrun)|(m & Hex & ->)]; cycle 1.
    { apply readExpr_keeps in Hex. by eapply registry_only_trans. }
    apply readExpr_keeps in Hex.
    apply bind_inv in Hrun as [(c1 & s2 & Hc1 & Hrun)|(m & Hc1 & ->)]; cycle 1.
    { apply (preserves_child registry_only c c1i registry_only_refl) in Hc1.
      eapply registry_only_trans; [|exact Hc1].
      by eapply registry_only_trans. }
    apply (preserves_child registry_only c c1i registry_only_refl) in Hc1.
    apply bind_inv in Hrun as [(b & s3 & Hb & Hrun)|(m & Hb & ->)]; cycle 1.
    { apply readExpr_keeps in Hb.
      eapply registry_only_trans; [|exact Hb].
      eapply registry_only_trans; [|exact Hc1].
      by eapply registry_only_trans. }
    apply readExpr_keeps in Hb.
    assert (Hs3 : registry_only st s3).
    { eapply registry_only_trans; [|exact Hb].
      eapply registry_only_trans; [|exact Hc1].
      by eapply registry_only_trans. }
    unfold bind, modify in Hrun. injection Hrun as <- <-.
    exists (SXBin OpSub ex b, lb, ub). split.
    - split; [by eexists _, _|exact Hkind].
    - unfold registry_only in Hs3. rewrite Hs3. reflexivity. }
  unfold checkName, constraint_bounds in *.
  destruct (String.eqb (getName c) "opt:ConstraintLeq") eqn:Hleq.
  { intros Hrun. by apply (Hreads 0 1 neg_infinity 0%float). }
  destruct (String.eqb (getName c) "opt:ConstraintGeq") eqn:Hgeq.
  { intros Hrun. by apply (Hreads 0 1 0%float infinity). }
  destruct (String.eqb (getName c) "opt:ConstraintEq") eqn:Heq.
  { intros Hrun. by apply (Hreads 0 1 0%float 0%float). }
  intros [= <- <-]. apply registry_only_refl.
Qed.

Lemma addConstraints_rows_run onode st r st' :
  addConstraints onode st = (r, st') ->
  exists rows,
    st' = add_rows rows (set_varmap_ (varmap_ st') st) /\
    Forall2 row_of (take (length rows) (node_children onode)) rows /\
    match r with
    | Ok _ => length rows = size onode
    | Throw _ => length rows < size onode
    end.
Proof.
  unfold addConstraints, size. rewrite for_each_children.
  generalize (node_children onode) as cs. intros cs. revert st r st'.
  induction cs as [|c cs IH]; intros st r st' Hrun.
  - injection Hrun as <- <-. exists []. rewrite add_rows_nil.
    split; [by destruct st|]. split; [constructor|done].
  - cbn [for_each] in Hrun.
    apply bind_inv in Hrun as [([] & s1 & Hc & Hrun)|(m & Hc & ->)].
    + apply addConstraints_step in Hc as (row & Hrow & Hs1).
      apply IH in Hrun as (rows & Hst' & Hrows & Hlen).
      exists (row :: rows). split; [|split].
      * etransitivity; [exact Hst'|]. rewrite Hs1.
        change (row :: rows) with ([row] ++ rows).
        rewrite <- (add_rows_app [row] rows). reflexivity.
      * simpl. by constructor.
      * destruct r; simpl; lia.
    + apply addConstraints_step in Hc. exists []. rewrite add_rows_nil.
      split; [exact Hc|]. split; [constructor|simpl; lia].
Qed.

(** X23.  When [addConstraints] returns, it has added one path constraint
    for each child, in their order: the expression is a difference, and
    the bounds are those of the type of the child, minus infinity and zero
    for [opt:ConstraintLeq], zero and infinity for [opt:ConstraintGeq],
    zero and zero for [opt:ConstraintEq].  Nothing else has changed but
    the registry. *)
Theorem addConstraints_rows onode st st' :
  addConstraints onode st = (Ok tt, st') ->
  exists rows,
    st' = add_rows rows (set_varmap_ (varmap_ st') st) /\
    Forall2 row_of (node_children onode) rows.
Proof.
  intros Hrun.
  apply addConstraints_rows_run in Hrun as (rows & Hst' & Hrows & Hlen).
  exists rows. split; [exact Hst'|].
  unfold size in Hlen. by rewrite Hlen, firstn_all in Hrows.
Qed.



End adding.

Lemma readExpr_reads_registry_witness :
  @readExpr example_parser example_switch
    (set_mterm_ [SXSym "t"] (set_scaled_variables_ true constant_ocp))
  = (fst (@readExpr example_parser example_switch constant_ocp),
     set_varmap_
       (varmap_ (snd (@readExpr example_parser example_switch constant_ocp)))
       (set_mterm_ [SXSym "t"] (set_scaled_variables_ true constant_ocp))).
Proof.
  apply (@readExpr_reads_registry example_parser example_switch constant_ocp
           (set_mterm_ [SXSym "t"] (set_scaled_variables_ true constant_ocp))).
  reflexivity. reflexivity.
Defined.

Lemma objective_terms_appended_witness :
  @addObjectiveFunction example_parser example_objective constant_ocp
  = (Ok tt,
     set_mterm_
       (mterm_ constant_ocp ++
        [SXSym "der(x)";
         SXIfElse (SXBin OpLt (SXSym "x") (SXConst 2)) (SXSym "der(x)") (SXSym "t")])
       (snd (@map_M _ _ _ (@readExpr example_parser)
               (node_children example_objective) constant_ocp))) /\
  @addIntegrandObjectiveFunction example_parser example_objective constant_ocp
  = (Ok tt,
     set_lterm_
       (lterm_ constant_ocp ++
        [SXSym "der(x)";
         SXIfElse (SXBin OpLt (SXSym "x") (SXConst 2)) (SXSym "der(x)") (SXSym "t")])
       (snd (@map_M _ _ _ (@readExpr example_parser)
               (node_children example_objective) constant_ocp))).
Proof.
  apply (@objective_terms_appended example_parser example_objective constant_ocp
           (Ok [SXSym "der(x)";
                SXIfElse (SXBin OpLt (SXSym "x") (SXConst 2)) (SXSym "der(x)")
                         (SXSym "t")])).
  vm_compute. reflexivity.
Defined.

Lemma addConstraints_rows_witness :
  exists rows,
    snd (@addConstraints example_parser example_constraints constant_ocp)
    = add_rows rows
        (set_varmap_
           (varmap_ (snd (@addConstraints example_parser example_constraints
                            constant_ocp)))
           constant_ocp) /\
    Forall2 row_of (node_children example_constraints) rows.
Proof.
  apply (@addConstraints_rows example_parser example_constraints constant_ocp).
  vm_compute. reflexivity.
Defined.

